(** * ccache (int64 keys): a shallow embedding of the sharded LRU cache

    The Go sources embedded here are
    - [configurationInt64.go] : the fluent configuration record,
    - the item file            : [ItemInt64] and its methods,
    - the bucket file          : [bucketInt64], one shard of the key space,
    - the cache file           : [CacheInt64], its facade and its worker.

    Go pointers to items are addresses into an explicit item store, so that
    the shard maps, the recency list and the two channels alias the same
    mutable item, as they do in the program.  Calls that read the clock take
    the value of [time.Now().UnixNano()] as an argument.  A computation
    returns [None] where the Go program panics.

    A call of the facade is one step: what it does to its shard and the
    messages it sends happen together.  The worker is a separate party
    that takes one message per turn; which channel it takes from is left
    to the run.  The bulk deletions [DeleteFunc] and [DeletePrefix] range
    over a Go map, whose order is not fixed: they take the order of the
    visit as an argument.  [Stop] and the drain phase of the worker are
    followed as far as the state of the cache goes.  Left out: [GetWithNow]
    (it calls [IsExpired], which the files at hand do not define), and the
    [sync.RWMutex] of a bucket, which a one-step call does not need. *)

From stdpp Require Import gmap list.

Local Open Scope Z_scope.

(** ** Machine integers *)

(** Two's complement wrap-around of [int64], [int32] and [uint32]. *)
Definition wrap64 (z : Z) : Z := (z + 2 ^ 63) mod 2 ^ 64 - 2 ^ 63.
Definition wrap32 (z : Z) : Z := (z + 2 ^ 31) mod 2 ^ 32 - 2 ^ 31.
Definition wrapU32 (z : Z) : Z := z mod 2 ^ 32.

Definition max_int64 : Z := 2 ^ 63 - 1.
Definition min_int64 : Z := - 2 ^ 63.

(** ** Items *)

(** Address of an [ItemInt64] in the item store, address of an [int64]
    cell in the cell store. *)
Abbreviation ptr := nat (only parsing).
Abbreviation cell := nat (only parsing).

(** A value of type [interface{}], as far as the cache inspects it: a
    [*int64] (what the increment family stores), a value that implements
    [Sized] and reports [sz], or anything else. *)
Inductive value : Type :=
  | VInt64Ptr (v : cell)
  | VSized (sz : Z) (payload : nat)
  | VOther (payload : nat).

(** A [*list.Element] of container/list, as far as the cache uses it: the
    element of an item is created once by [PushFront] and carries the item
    as its [Value], so it is identified with the item; [e_list] is the list
    that owns it, [None] once [Remove] has unlinked it. *)
Record Element : Type := mkElement { e_list : option nat }.

(** [ItemInt64]; the field [group] is never read nor written and is left
    out. *)
Record ItemInt64 : Type := mkItem {
  i_key : Z;
  i_promotions : Z;
  i_refCount : Z;
  i_expires : Z;
  i_size : Z;
  i_value : value;
  i_element : option Element
}.

Definition set_promotions (n : Z) (i : ItemInt64) : ItemInt64 :=
  mkItem (i_key i) n (i_refCount i) (i_expires i) (i_size i) (i_value i)
    (i_element i).
Definition set_refCount (n : Z) (i : ItemInt64) : ItemInt64 :=
  mkItem (i_key i) (i_promotions i) n (i_expires i) (i_size i) (i_value i)
    (i_element i).
Definition set_expires (n : Z) (i : ItemInt64) : ItemInt64 :=
  mkItem (i_key i) (i_promotions i) (i_refCount i) n (i_size i) (i_value i)
    (i_element i).
Definition set_element (e : option Element) (i : ItemInt64) : ItemInt64 :=
  mkItem (i_key i) (i_promotions i) (i_refCount i) (i_expires i) (i_size i)
    (i_value i) e.

Definition value_size (v : value) : Z :=
  match v with
  | VSized sz _ => sz
  | _ => 1
  end.

Definition newItemInt64 (key : Z) (v : value) (expires : Z) (track : bool)
  : ItemInt64 :=
  mkItem key 0 (if track then 1 else 0) expires (value_size v) v None.

(** [shouldPromote]: the new counter and the answer. *)
Definition shouldPromote (getsPerPromote : Z) (i : ItemInt64)
  : bool * ItemInt64 :=
  let n := wrap32 (i_promotions i + 1) in
  (n =? getsPerPromote, set_promotions n i).

Definition track (i : ItemInt64) : ItemInt64 :=
  set_refCount (wrap32 (i_refCount i + 1)) i.

Definition Release (i : ItemInt64) : ItemInt64 :=
  set_refCount (wrap32 (i_refCount i + -1)) i.

(** [Expired] and [TTL] read the clock; [now] is what it shows. *)
Definition Expired (now : Z) (i : ItemInt64) : bool := i_expires i <? now.

Definition TTL (now : Z) (i : ItemInt64) : Z := wrap64 (i_expires i - now).

Definition Extend (now duration : Z) (i : ItemInt64) : ItemInt64 :=
  set_expires (wrap64 (now + duration)) i.

(** ** Configuration *)

Record ConfigurationInt64 : Type := mkConfig {
  maxSize : Z;
  buckets : Z;
  itemsToPrune : Z;
  deleteBuffer : Z;
  promoteBuffer : Z;
  getsPerPromote : Z;
  tracking : bool;
  (** whether an [onDelete] callback is installed; its calls are recorded
      in the cache state *)
  onDelete : bool
}.

Definition ConfigureInt64 : ConfigurationInt64 :=
  mkConfig 5000 16 500 1024 1024 3 false false.

Definition MaxSize (max : Z) (c : ConfigurationInt64) : ConfigurationInt64 :=
  mkConfig max (buckets c) (itemsToPrune c) (deleteBuffer c)
    (promoteBuffer c) (getsPerPromote c) (tracking c) (onDelete c).

(** [count] is a [uint32]: [^count + 1] wraps at 32 bits. *)
Definition Buckets (count : Z) (c : ConfigurationInt64) : ConfigurationInt64 :=
  let count' :=
    if (count =? 0)
       || negb (Z.land count (wrapU32 (Z.lxor count (2 ^ 32 - 1) + 1)) =? count)
    then 16 else count in
  mkConfig (maxSize c) count' (itemsToPrune c) (deleteBuffer c)
    (promoteBuffer c) (getsPerPromote c) (tracking c) (onDelete c).

Definition ItemsToPrune (count : Z) (c : ConfigurationInt64)
  : ConfigurationInt64 :=
  mkConfig (maxSize c) (buckets c) count (deleteBuffer c)
    (promoteBuffer c) (getsPerPromote c) (tracking c) (onDelete c).

Definition PromoteBuffer (sz : Z) (c : ConfigurationInt64)
  : ConfigurationInt64 :=
  mkConfig (maxSize c) (buckets c) (itemsToPrune c) (deleteBuffer c)
    sz (getsPerPromote c) (tracking c) (onDelete c).

Definition DeleteBuffer (sz : Z) (c : ConfigurationInt64)
  : ConfigurationInt64 :=
  mkConfig (maxSize c) (buckets c) (itemsToPrune c) sz
    (promoteBuffer c) (getsPerPromote c) (tracking c) (onDelete c).

Definition GetsPerPromote (count : Z) (c : ConfigurationInt64)
  : ConfigurationInt64 :=
  mkConfig (maxSize c) (buckets c) (itemsToPrune c) (deleteBuffer c)
    (promoteBuffer c) count (tracking c) (onDelete c).

Definition Track (c : ConfigurationInt64) : ConfigurationInt64 :=
  mkConfig (maxSize c) (buckets c) (itemsToPrune c) (deleteBuffer c)
    (promoteBuffer c) (getsPerPromote c) true (onDelete c).

Definition OnDelete (c : ConfigurationInt64) : ConfigurationInt64 :=
  mkConfig (maxSize c) (buckets c) (itemsToPrune c) (deleteBuffer c)
    (promoteBuffer c) (getsPerPromote c) (tracking c) true.

(** ** The cache state *)

(** The fields of [CacheInt64] ([c_list] is the recency list, front first,
    and [c_listId] the identity of the [*list.List] it is held in; a channel
    is the queue of the messages sent and not yet received, oldest first),
    followed by the memory the cache points into ([c_items], [c_cells]), the
    worker's local counter [dropped] and the calls made to the [onDelete]
    callback, oldest first. *)
Record CacheInt64 : Type := mkCache {
  c_config : ConfigurationInt64;
  c_list : list ptr;
  c_listId : nat;
  c_size : Z;
  c_buckets : list (gmap Z ptr);
  c_bucketMask : Z;
  c_deletables : list ptr;
  c_promotables : list ptr;
  c_items : list ItemInt64;
  c_cells : list Z;
  c_dropped : Z;
  c_onDeleteCalls : list ptr
}.

Definition with_config (x : ConfigurationInt64) (c : CacheInt64) :=
  mkCache x (c_list c) (c_listId c) (c_size c) (c_buckets c)
    (c_bucketMask c) (c_deletables c) (c_promotables c) (c_items c)
    (c_cells c) (c_dropped c) (c_onDeleteCalls c).
Definition with_list (x : list ptr) (c : CacheInt64) :=
  mkCache (c_config c) x (c_listId c) (c_size c) (c_buckets c)
    (c_bucketMask c) (c_deletables c) (c_promotables c) (c_items c)
    (c_cells c) (c_dropped c) (c_onDeleteCalls c).
Definition with_listId (x : nat) (c : CacheInt64) :=
  mkCache (c_config c) (c_list c) x (c_size c) (c_buckets c)
    (c_bucketMask c) (c_deletables c) (c_promotables c) (c_items c)
    (c_cells c) (c_dropped c) (c_onDeleteCalls c).
Definition with_size (x : Z) (c : CacheInt64) :=
  mkCache (c_config c) (c_list c) (c_listId c) x (c_buckets c)
    (c_bucketMask c) (c_deletables c) (c_promotables c) (c_items c)
    (c_cells c) (c_dropped c) (c_onDeleteCalls c).
Definition with_buckets (x : list (gmap Z ptr)) (c : CacheInt64) :=
  mkCache (c_config c) (c_list c) (c_listId c) (c_size c) x
    (c_bucketMask c) (c_deletables c) (c_promotables c) (c_items c)
    (c_cells c) (c_dropped c) (c_onDeleteCalls c).
Definition with_deletables (x : list ptr) (c : CacheInt64) :=
  mkCache (c_config c) (c_list c) (c_listId c) (c_size c) (c_buckets c)
    (c_bucketMask c) x (c_promotables c) (c_items c)
    (c_cells c) (c_dropped c) (c_onDeleteCalls c).
Definition with_promotables (x : list ptr) (c : CacheInt64) :=
  mkCache (c_config c) (c_list c) (c_listId c) (c_size c) (c_buckets c)
    (c_bucketMask c) (c_deletables c) x (c_items c)
    (c_cells c) (c_dropped c) (c_onDeleteCalls c).
Definition with_items (x : list ItemInt64) (c : CacheInt64) :=
  mkCache (c_config c) (c_list c) (c_listId c) (c_size c) (c_buckets c)
    (c_bucketMask c) (c_deletables c) (c_promotables c) x
    (c_cells c) (c_dropped c) (c_onDeleteCalls c).
Definition with_cells (x : list Z) (c : CacheInt64) :=
  mkCache (c_config c) (c_list c) (c_listId c) (c_size c) (c_buckets c)
    (c_bucketMask c) (c_deletables c) (c_promotables c) (c_items c)
    x (c_dropped c) (c_onDeleteCalls c).
Definition with_dropped (x : Z) (c : CacheInt64) :=
  mkCache (c_config c) (c_list c) (c_listId c) (c_size c) (c_buckets c)
    (c_bucketMask c) (c_deletables c) (c_promotables c) (c_items c)
    (c_cells c) x (c_onDeleteCalls c).
Definition with_onDeleteCalls (x : list ptr) (c : CacheInt64) :=
  mkCache (c_config c) (c_list c) (c_listId c) (c_size c) (c_buckets c)
    (c_bucketMask c) (c_deletables c) (c_promotables c) (c_items c)
    (c_cells c) (c_dropped c) x.

(** *** Memory *)

(** The item at [p]; [None] for an address that was never allocated, which
    no pointer of the program is. *)
Definition load (p : ptr) (c : CacheInt64) : option ItemInt64 :=
  c_items c !! p.

(** In-place update of the item at [p]. *)
Definition modify (p : ptr) (f : ItemInt64 → ItemInt64) (c : CacheInt64)
  : CacheInt64 :=
  with_items (alter f p (c_items c)) c.

(** [&ItemInt64{...}]: a fresh address. *)
Definition alloc_item (i : ItemInt64) (c : CacheInt64) : ptr * CacheInt64 :=
  (length (c_items c), with_items (c_items c ++ [i]) c).

(** [&value] for an [int64] local: a fresh cell. *)
Definition alloc_cell (n : Z) (c : CacheInt64) : cell * CacheInt64 :=
  (length (c_cells c), with_cells (c_cells c ++ [n]) c).

(** *** container/list, on the recency list *)

(** [l.PushFront(item)] together with [item.element = ...]. *)
Definition list_PushFront (p : ptr) (c : CacheInt64) : CacheInt64 :=
  modify p (set_element (Some (mkElement (Some (c_listId c)))))
    (with_list (p :: c_list c) c).

(** [l.Remove(e)]: nothing happens unless [e.list == l]; the element keeps
    existing, with [e.list = nil], and the item keeps pointing to it. *)
Definition list_Remove (p : ptr) (c : CacheInt64) : CacheInt64 :=
  match load p c with
  | Some i =>
      match i_element i with
      | Some e =>
          if decide (e_list e = Some (c_listId c))
          then modify p (set_element (Some (mkElement None)))
                 (with_list (filter (λ q, q ≠ p) (c_list c)) c)
          else c
      | None => c
      end
  | None => c
  end.

(** [l.MoveToFront(e)]: nothing happens if [e.list != l] or [e] is the
    front already. *)
Definition list_MoveToFront (p : ptr) (c : CacheInt64) : CacheInt64 :=
  match load p c with
  | Some i =>
      match i_element i with
      | Some e =>
          if decide (e_list e = Some (c_listId c))
          then if decide (head (c_list c) = Some p) then c
               else with_list (p :: filter (λ q, q ≠ p) (c_list c)) c
          else c
      | None => c
      end
  | None => c
  end.

(** [l.Back()] and [e.Prev()], an element of the list being its position
    counted from the front. *)
Definition list_Back (c : CacheInt64) : option nat :=
  match length (c_list c) with
  | O => None
  | S n => Some n
  end.

Definition elem_Prev (idx : nat) : option nat :=
  match idx with
  | O => None
  | S n => Some n
  end.

(** ** Buckets *)

(** [c.bucket(key)]: the index of the shard, [None] where the slice index
    is out of range. *)
Definition bucket (key : Z) (c : CacheInt64) : option nat :=
  let i := Z.land key (c_bucketMask c) in
  if (0 <=? i) && (i <? Z.of_nat (length (c_buckets c)))
  then Some (Z.to_nat i) else None.

Definition bucket_itemCount (b : gmap Z ptr) : Z := Z.of_nat (size b).

(** [b.get(key)] of the bucket at index [bi]. *)
Definition bucket_get (bi : nat) (key : Z) (c : CacheInt64)
  : option (option ptr) :=
  b ← c_buckets c !! bi; Some (b !! key).

(** [b.set]: the new item and the displaced one. *)
Definition bucket_set (bi : nat) (now key : Z) (v : value) (duration : Z)
    (track : bool) (c : CacheInt64)
  : option (ptr * option ptr * CacheInt64) :=
  let expires := wrap64 (now + duration) in
  let '(item, c1) := alloc_item (newItemInt64 key v expires track) c in
  b ← c_buckets c1 !! bi;
  let existing := b !! key in
  Some (item, existing, with_buckets (<[bi := <[key := item]> b]> (c_buckets c1)) c1).

(** [b.delete(key)]. *)
Definition bucket_delete (bi : nat) (key : Z) (c : CacheInt64)
  : option (option ptr * CacheInt64) :=
  b ← c_buckets c !! bi;
  Some (b !! key, with_buckets (<[bi := delete key b]> (c_buckets c)) c).

Definition bucket_clear (bi : nat) (c : CacheInt64) : CacheInt64 :=
  with_buckets (<[bi := ∅]> (c_buckets c)) c.

(** The value of an item as an [*int64], if it is one. *)
Definition as_int64_ptr (v : value) : option cell :=
  match v with
  | VInt64Ptr p => Some p
  | _ => None
  end.

(** [b.getIncrVal]. *)
Definition bucket_getIncrVal (bi : nat) (now key : Z) (c : CacheInt64)
  : option (Z * option ptr) :=
  existing ← bucket_get bi key c;
  match existing with
  | Some p =>
      e ← load p c;
      if now <? i_expires e then
        match as_int64_ptr (i_value e) with
        | Some v => n ← c_cells c !! v; Some (n, Some p)
        | None => Some (0, None)
        end
      else Some (0, None)
  | None => Some (0, None)
  end.

(** [b.incrNow]: the result, the item to promote and the item that was hit. *)
Definition bucket_incrNow (bi : nat) (key n now duration : Z) (track : bool)
    (c : CacheInt64) : option (Z * option ptr * option ptr * CacheInt64) :=
  let tm := now in
  let expires := wrap64 (now + duration) in
  let '(pv, c0) := alloc_cell n c in
  let '(item, c1) := alloc_item (newItemInt64 key (VInt64Ptr pv) expires track) c0 in
  b ← c_buckets c1 !! bi;
  let store :=
    Some (n, Some item, None,
          with_buckets (<[bi := <[key := item]> b]> (c_buckets c1)) c1) in
  match b !! key with
  | Some p =>
      e ← load p c1;
      if tm <? i_expires e then
        match as_int64_ptr (i_value e) with
        | Some v =>
            old ← c_cells c1 !! v;
            let r := wrap64 (old + n) in
            Some (r, None, Some p, with_cells (<[v := r]> (c_cells c1)) c1)
        | None => store
        end
      else store
  | None => store
  end.

(** [b.incr] reads the clock and calls [incrNow]. *)
Definition bucket_incr (bi : nat) (now key n duration : Z) (track : bool)
    (c : CacheInt64) : option (Z * option ptr * option ptr * CacheInt64) :=
  bucket_incrNow bi key n now duration track c.

(** [b.incrNowPromote]: as [incrNow], and a hit stores the new deadline. *)
Definition bucket_incrNowPromote (bi : nat) (key n now duration : Z)
    (track : bool) (c : CacheInt64)
  : option (Z * option ptr * option ptr * CacheInt64) :=
  let tm := now in
  let expires := wrap64 (now + duration) in
  let '(pv, c0) := alloc_cell n c in
  let '(item, c1) := alloc_item (newItemInt64 key (VInt64Ptr pv) expires track) c0 in
  b ← c_buckets c1 !! bi;
  let store :=
    Some (n, Some item, None,
          with_buckets (<[bi := <[key := item]> b]> (c_buckets c1)) c1) in
  match b !! key with
  | Some p =>
      e ← load p c1;
      if tm <? i_expires e then
        match as_int64_ptr (i_value e) with
        | Some v =>
            old ← c_cells c1 !! v;
            let r := wrap64 (old + n) in
            Some (r, None, Some p,
                  modify p (set_expires expires)
                    (with_cells (<[v := r]> (c_cells c1)) c1))
        | None => store
        end
      else store
  | None => store
  end.

(** ** The worker's side: recency list, size and eviction *)

(** A call of the [onDelete] callback on the item at [p]. *)
Definition call_onDelete (p : ptr) (c : CacheInt64) : CacheInt64 :=
  if onDelete (c_config c)
  then with_onDeleteCalls (c_onDeleteCalls c ++ [p]) c
  else c.

Definition doDelete (item : ptr) (c : CacheInt64) : option CacheInt64 :=
  i ← load item c;
  match i_element i with
  | None => Some (modify item (set_promotions (-2)) c)
  | Some _ =>
      let c1 := with_size (wrap64 (c_size c - i_size i)) c in
      let c2 := call_onDelete item c1 in
      Some (list_Remove item c2)
  end.

Definition doPromote (item : ptr) (c : CacheInt64)
  : option (bool * CacheInt64) :=
  i ← load item c;
  if i_promotions i =? -2 then Some (false, c)
  else
    match i_element i with
    | Some _ =>
        let '(b, i') := shouldPromote (getsPerPromote (c_config c)) i in
        let c1 := modify item (λ _, i') c in
        if b
        then Some (false, modify item (set_promotions 0) (list_MoveToFront item c1))
        else Some (false, c1)
    | None =>
        let c1 := with_size (wrap64 (c_size c + i_size i)) c in
        Some (true, list_PushFront item c1)
    end.

(** The body of the [if] in the loop of [gc]: the eviction of the item at
    [item], whose fields are [i]. *)
Definition gc_evict (item : ptr) (i : ItemInt64) (c : CacheInt64)
  : option CacheInt64 :=
  bi ← bucket (i_key i) c;
  '(_, c1) ← bucket_delete bi (i_key i) c;
  let c2 := with_size (wrap64 (c_size c1 - i_size i)) c1 in
  let c3 := list_Remove item c2 in
  let c4 := call_onDelete item c3 in
  Some (modify item (set_promotions (-2)) c4).

(** The loop of [gc]: [n] iterations are left, [element] is the cursor. *)
Fixpoint gc_loop (n : nat) (element : option nat) (dropped : Z)
    (c : CacheInt64) : option (Z * CacheInt64) :=
  match n with
  | O => Some (dropped, c)
  | S n' =>
      match element with
      | None => Some (dropped, c)
      | Some idx =>
          let prev := elem_Prev idx in
          item ← c_list c !! idx;
          i ← load item c;
          if negb (tracking (c_config c)) || (i_refCount i =? 0) then
            c' ← gc_evict item i c;
            gc_loop n' prev (wrap64 (dropped + 1)) c'
          else gc_loop n' prev dropped c
      end
  end.

Definition gc (c : CacheInt64) : option (Z * CacheInt64) :=
  gc_loop (Z.to_nat (itemsToPrune (c_config c))) (list_Back c) 0 c.

(** Messages of the control channel. *)
Inductive control : Type :=
  | getDropped
  | setMaxSize (size : Z)
  | clear.

(** One turn of the worker's [select] loop.  Which ready channel the
    [select] takes is not determined by the program; each of the three
    cases is a function of its own.  A case whose channel is empty leaves
    the state as it is. *)
Definition worker_promote (c : CacheInt64) : option CacheInt64 :=
  match c_promotables c with
  | [] => Some c
  | item :: rest =>
      '(linked, c1) ← doPromote item (with_promotables rest c);
      if linked && (maxSize (c_config c1) <? c_size c1) then
        '(n, c2) ← gc c1;
        Some (with_dropped (wrap64 (c_dropped c2 + n)) c2)
      else Some c1
  end.

Definition worker_delete (c : CacheInt64) : option CacheInt64 :=
  match c_deletables c with
  | [] => Some c
  | item :: rest => doDelete item (with_deletables rest c)
  end.

(** The control case, with the reply to [getDropped]. *)
Definition worker_control (msg : control) (c : CacheInt64)
  : option (option Z * CacheInt64) :=
  match msg with
  | getDropped => Some (Some (c_dropped c), with_dropped 0 c)
  | setMaxSize size =>
      let c1 := with_config (MaxSize size (c_config c)) c in
      if maxSize (c_config c1) <? c_size c1 then
        '(n, c2) ← gc c1;
        Some (None, with_dropped (wrap64 (c_dropped c2 + n)) c2)
      else Some (None, c1)
  | clear =>
      let c1 := with_buckets (const ∅ <$> c_buckets c) c in
      Some (None, with_listId (S (c_listId c1)) (with_list [] (with_size 0 c1)))
  end.

(** ** The facade *)

(** [promote]: a send that does not block; the message is dropped when the
    buffer of the channel is full. *)
Definition promote (item : ptr) (c : CacheInt64) : CacheInt64 :=
  if Z.of_nat (length (c_promotables c)) <? promoteBuffer (c_config c)
  then with_promotables (c_promotables c ++ [item]) c
  else c.

(** [c.deletables <- item]: a send that blocks until the channel takes the
    message; the message is never dropped. *)
Definition send_deletable (item : ptr) (c : CacheInt64) : CacheInt64 :=
  with_deletables (c_deletables c ++ [item]) c.

Definition ItemCount (c : CacheInt64) : Z :=
  foldl (λ count b, count + bucket_itemCount b) 0 (c_buckets c).

(** [Get]; [now] is the clock read by [item.Expired()]. *)
Definition Get (now key : Z) (c : CacheInt64)
  : option (option ptr * CacheInt64) :=
  bi ← bucket key c;
  item ← bucket_get bi key c;
  match item with
  | None => Some (None, c)
  | Some p =>
      i ← load p c;
      if negb (Expired now i) then Some (Some p, promote p c)
      else Some (Some p, c)
  end.

Definition GetWithNowNoPromote (key now : Z) (c : CacheInt64)
  : option (option ptr * bool) :=
  bi ← bucket key c;
  item ← bucket_get bi key c;
  match item with
  | None => Some (None, true)
  | Some p =>
      i ← load p c;
      if now <? i_expires i then Some (Some p, false) else Some (Some p, true)
  end.

Definition GetItem (key : Z) (c : CacheInt64) : option (option ptr) :=
  bi ← bucket key c; bucket_get bi key c.

(** The internal [set]; [now] is the clock read by the bucket. *)
Definition set (now key : Z) (v : value) (duration : Z) (track : bool)
    (c : CacheInt64) : option (ptr * CacheInt64) :=
  bi ← bucket key c;
  '(item, existing, c1) ← bucket_set bi now key v duration track c;
  let c2 :=
    match existing with
    | Some old => send_deletable old c1
    | None => c1
    end in
  Some (item, promote item c2).

(** The public [Set] ([Set] is a reserved word here). *)
Definition Set_ (now key : Z) (v : value) (duration : Z) (c : CacheInt64)
  : option CacheInt64 :=
  '(_, c') ← set now key v duration false c; Some c'.

Definition TrackingSet (now key : Z) (v : value) (duration : Z)
    (c : CacheInt64) : option (ptr * CacheInt64) :=
  set now key v duration true c.

(** [TrackingGet]; [None] stands for [NilTracked]. *)
Definition TrackingGet (now key : Z) (c : CacheInt64)
  : option (option ptr * CacheInt64) :=
  '(item, c1) ← Get now key c;
  match item with
  | None => Some (None, c1)
  | Some p => Some (Some p, modify p track c1)
  end.

(** [item.Release()] on the item at [p]. *)
Definition ReleaseItem (p : ptr) (c : CacheInt64) : CacheInt64 :=
  modify p Release c.

(** [Replace]; the clock is read by [item.TTL()] and then by [Set]. *)
Definition Replace (nowTTL nowSet key : Z) (v : value) (c : CacheInt64)
  : option (bool * CacheInt64) :=
  bi ← bucket key c;
  item ← bucket_get bi key c;
  match item with
  | None => Some (false, c)
  | Some p =>
      i ← load p c;
      c' ← Set_ nowSet key v (TTL nowTTL i) c;
      Some (true, c')
  end.

Definition Delete (key : Z) (c : CacheInt64) : option (bool * CacheInt64) :=
  bi ← bucket key c;
  '(item, c1) ← bucket_delete bi key c;
  match item with
  | Some p => Some (true, send_deletable p c1)
  | None => Some (false, c1)
  end.

(** [Fetch].  The loader is a function of a state [L] of its own, so that
    calling it shows; it returns a value and an error, [None] for [nil].
    The clock is read three times: by [Get], by [Fetch]'s own call of
    [item.Expired()] and by [set]. *)
Definition Fetch {L E : Type} (nowGet nowCheck nowSet key duration : Z)
    (fetch : L → (value * option E) * L) (l : L) (c : CacheInt64)
  : option (option ptr * option E * L * CacheInt64) :=
  '(item, c1) ← Get nowGet key c;
  let miss :=
    let '(v, err, l') := fetch l in
    match err with
    | Some e => Some (None, Some e, l', c1)
    | None =>
        '(p, c2) ← set nowSet key v duration false c1;
        Some (Some p, None, l', c2)
    end in
  match item with
  | Some p =>
      i ← load p c1;
      if negb (Expired nowCheck i) then Some (Some p, None, l, c1) else miss
  | None => miss
  end.

Definition GetIncrVal (now key : Z) (c : CacheInt64) : option Z :=
  bi ← bucket key c;
  '(r, _) ← bucket_getIncrVal bi now key c;
  Some r.

Definition Incr (now key n duration : Z) (c : CacheInt64)
  : option (Z * CacheInt64) :=
  bi ← bucket key c;
  '(r, item, _, c1) ← bucket_incr bi now key n duration false c;
  match item with
  | Some p => Some (r, promote p c1)
  | None => Some (r, c1)
  end.

Definition IncrPromote (now key n duration : Z) (c : CacheInt64)
  : option (Z * CacheInt64) :=
  bi ← bucket key c;
  '(r, item, exi, c1) ← bucket_incr bi now key n duration false c;
  match item with
  | Some p => Some (r, promote p c1)
  | None =>
      match exi with
      | Some p => Some (r, promote p c1)
      | None => Some (r, c1)
      end
  end.

(** The calls that go through the control channel are served by the worker
    before they return. *)
Definition GetDropped (c : CacheInt64) : option (Z * CacheInt64) :=
  '(r, c') ← worker_control getDropped c;
  Some (default 0 r, c').

Definition SetMaxSize (size : Z) (c : CacheInt64) : option CacheInt64 :=
  '(_, c') ← worker_control (setMaxSize size) c; Some c'.

Definition Clear (c : CacheInt64) : option CacheInt64 :=
  '(_, c') ← worker_control clear c; Some c'.

(** ** Construction *)

Section Construction.

(** [NormalTo2N] is declared outside the files at hand; the constructor
    takes it as it is. *)
Variable NormalTo2N : Z → Z.

(** [NewCacheInt64]; [make] panics on a negative length. *)
Definition NewCacheInt64 (config : ConfigurationInt64) : option CacheInt64 :=
  let bks := NormalTo2N (buckets config) in
  if bks <? 0 then None
  else Some (mkCache config [] 0 0 (replicate (Z.to_nat bks) ∅)
               (wrap64 (bks - 1)) [] [] [] [] 0 []).

End Construction.

(** ** Notions used by the statements *)

(** [x] is a power of two. *)
Definition is_pow2 (x : Z) : Prop := ∃ k, 0 ≤ k ∧ x = 2 ^ k.

(** The deadline of the item stored under [key]. *)
Definition deadline_of (key : Z) (c : CacheInt64) : option Z :=
  item ← GetItem key c; p ← item; i ← load p c; Some (i_expires i).

(** ** States of the worked examples *)

(** Sixteen empty shards, nothing linked, nothing in flight. *)
Definition empty16 (cfg : ConfigurationInt64) : CacheInt64 :=
  mkCache cfg [] 0 0 (replicate 16 ∅) 15 [] [] [] [] 0 [].

(** One item under key 7, linked, with deadline 100. *)
Definition one_item : CacheInt64 :=
  mkCache ConfigureInt64 [0%nat] 0 1
    (<[7%nat := {[7 := 0%nat]}]> (replicate 16 ∅)) 15 [] []
    [mkItem 7 0 0 100 1 (VOther 0) (Some (mkElement (Some 0%nat)))] [] 0 [].

(** The state after [Set(7, v, -1s)] at time 0 on the empty cache. *)
Definition expired_entry : CacheInt64 :=
  default (empty16 ConfigureInt64)
    (Set_ 0 7 (VOther 0) (- 10 ^ 9) (empty16 ConfigureInt64)).

(** ** Runs of the cache *)

(** What can happen next: a caller runs [Set] or [Get] to its end, or the
    worker's [select] takes a message from the promote channel or from the
    delete channel. *)
Inductive event : Type :=
  | CallSet (now key : Z) (v : value) (duration : Z)
  | CallGet (now key : Z)
  | RecvPromote
  | RecvDelete.

Definition step (e : event) (c : CacheInt64) : option CacheInt64 :=
  match e with
  | CallSet now key v duration => Set_ now key v duration c
  | CallGet now key => '(_, c') ← Get now key c; Some c'
  | RecvPromote => worker_promote c
  | RecvDelete => worker_delete c
  end.

Fixpoint run (es : list event) (c : CacheInt64) : option CacheInt64 :=
  match es with
  | [] => Some c
  | e :: es' => c' ← step e c; run es' c'
  end.

(** The state a run ends in, the initial state if it panics. *)
Definition after (es : list event) (c : CacheInt64) : CacheInt64 :=
  default c (run es c).

(** The worker takes a promote message only when no delete notice is
    waiting. *)
Fixpoint deletes_first (es : list event) (c : CacheInt64) : Prop :=
  match es with
  | [] => True
  | e :: es' =>
      (e = RecvPromote → c_deletables c = [])
      ∧ match step e c with
        | Some c' => deletes_first es' c'
        | None => True
        end
  end.

(** The weight [Set] gives the entry lies between 1 and [hi]. *)
Definition weight_in (hi : Z) (e : event) : Prop :=
  match e with
  | CallSet _ _ v _ => 1 ≤ value_size v ≤ hi
  | _ => True
  end.

(** The weight of the item at [p], and the sum of the weights of the items
    of [l]. *)
Definition item_size (c : CacheInt64) (p : ptr) : Z :=
  default 0 (i_size <$> load p c).

Definition weight (c : CacheInt64) (l : list ptr) : Z :=
  foldr (λ p acc, item_size c p + acc) 0 l.

(** The total weight of the linked items, and the part of it held by items
    with a reference count above zero. *)
Definition list_weight (c : CacheInt64) : Z := weight c (c_list c).

Definition is_pinned (c : CacheInt64) (p : ptr) : bool :=
  match load p c with
  | Some i => 0 <? i_refCount i
  | None => false
  end.

Definition pinned_weight (c : CacheInt64) : Z :=
  weight c (filter (λ p, is_pinned c p = true) (c_list c)).

(** No shard maps a key to [p]. *)
Definition unmapped (c : CacheInt64) (p : ptr) : Prop :=
  ∀ bi b k, c_buckets c !! bi = Some b → b !! k ≠ Some p.

(** Where the element of the item at [p] stands: the item has none and is
    not linked; or its element belongs to the current list and the item is
    linked; or its element was removed, and then the item is in no shard
    and no delete notice for it is waiting. *)
Definition element_ok (c : CacheInt64) (p : ptr) (i : ItemInt64) : Prop :=
  match i_element i with
  | None => p ∉ c_list c
  | Some e =>
      (e_list e = Some (c_listId c) ∧ p ∈ c_list c)
      ∨ (e_list e = None ∧ (p ∉ c_list c) ∧ (p ∉ c_deletables c)
         ∧ unmapped c p)
  end.

(** The state of a cache that has served [Set] and [Get] only, has
    configuration [cfg], and gives every item a weight between 1 and
    [itemsToPrune]. *)
Record shape (cfg : ConfigurationInt64) (c : CacheInt64) : Prop := mkShape {
  shape_config : c_config c = cfg;
  shape_mask : 0 ≤ c_bucketMask c < Z.of_nat (length (c_buckets c));
  shape_map : ∀ bi b k p,
    c_buckets c !! bi = Some b → b !! k = Some p →
    bucket k c = Some bi ∧ ∃ i, load p c = Some i ∧ i_key i = k;
  shape_item : ∀ p i,
    load p c = Some i →
    i_refCount i = 0 ∧ 1 ≤ i_size i ≤ itemsToPrune cfg ∧ element_ok c p i;
  shape_list : NoDup (c_list c) ∧ ∀ p, p ∈ c_list c → is_Some (load p c);
  shape_deletables :
    NoDup (c_deletables c)
    ∧ ∀ p, p ∈ c_deletables c → is_Some (load p c) ∧ unmapped c p;
  shape_promotables : ∀ p, p ∈ c_promotables c → is_Some (load p c);
  shape_size : c_size c = list_weight c
}.

(** The recency list is well formed: no item is linked twice, and every
    linked item is allocated, has an element owned by the current list, and
    has a key whose shard exists. *)
Definition list_ok (c : CacheInt64) : Prop :=
  NoDup (c_list c)
  ∧ ∀ q, q ∈ c_list c →
      ∃ j, load q c = Some j
           ∧ i_element j = Some (mkElement (Some (c_listId c)))
           ∧ is_Some (bucket (i_key j) c).

(** Tracking on, room for one item, two linked items: the older one, under
    key 1, is held by a caller ([refCount] 1), the newer one, under key 2,
    is not. *)
Definition pinned_pair : CacheInt64 :=
  mkCache (Track (ItemsToPrune 10 (MaxSize 1 ConfigureInt64))) [1%nat; 0%nat]
    0 2
    (<[2%nat := {[2 := 1%nat]}]> (<[1%nat := {[1 := 0%nat]}]> (replicate 16 ∅)))
    15 [] []
    [mkItem 1 0 1 100 1 (VOther 0) (Some (mkElement (Some 0%nat)));
     mkItem 2 0 0 100 1 (VOther 1) (Some (mkElement (Some 0%nat)))]
    [] 0 [].


(** ** Notions used by the further properties *)

(** The sweep passes over the item at [p]: tracking is on and the item is
    held by a caller. *)
Definition gc_spares (c : CacheInt64) (p : ptr) : bool :=
  match load p c with
  | Some i => tracking (c_config c) && negb (i_refCount i =? 0)
  | None => false
  end.

(** The [n] least recently used items of the list [l], and the ones among
    them the sweep evicts, both front first. *)
Definition lru_window (n : nat) (l : list ptr) : list ptr :=
  drop (length l - n) l.

Definition gc_victims (c : CacheInt64) : list ptr :=
  filter (λ p, gc_spares c p = false)
    (lru_window (Z.to_nat (itemsToPrune (c_config c))) (c_list c)).

(** ** Deleting by predicate *)

(** [for key, item := range lookup]: the language does not fix the order
    in which a map is visited, so the order is a parameter of the model, a
    function that lists the entries of a map. *)
Definition range_order : Type := gmap Z ptr → list (Z * ptr).

(** The first loop of [deleteFunc], over the entries still to visit: every
    match is sent to the delete channel and appended to [items].  The
    predicate is a function of the key and of the fields of the item. *)
Fixpoint deleteFunc_collect (matches : Z → ItemInt64 → bool)
    (entries : list (Z * ptr)) (c : CacheInt64)
  : option (list ptr * CacheInt64) :=
  match entries with
  | [] => Some ([], c)
  | (key, item) :: rest =>
      i ← load item c;
      if matches key i then
        '(items, c') ← deleteFunc_collect matches rest (send_deletable item c);
        Some (item :: items, c')
      else deleteFunc_collect matches rest c
  end.

(** The second loop: [delete(lookup, item.key)] for each collected item. *)
Fixpoint deleteFunc_remove (items : list ptr) (b : gmap Z ptr)
    (c : CacheInt64) : option (gmap Z ptr) :=
  match items with
  | [] => Some b
  | item :: rest =>
      i ← load item c; deleteFunc_remove rest (delete (i_key i) b) c
  end.

(** [b.deleteFunc(matches, deletables)] of the bucket at index [bi]. *)
Definition bucket_deleteFunc (visit : range_order) (bi : nat)
    (matches : Z → ItemInt64 → bool) (c : CacheInt64)
  : option (Z * CacheInt64) :=
  b ← c_buckets c !! bi;
  '(items, c1) ← deleteFunc_collect matches (visit b) c;
  if (length items =? 0)%nat then Some (0, c1)
  else
    b' ← deleteFunc_remove items b c1;
    Some (Z.of_nat (length items),
          with_buckets (<[bi := b']> (c_buckets c1)) c1).

Definition bucket_deletePrefix (visit : range_order) (bi : nat) (prefix : Z)
    (c : CacheInt64) : option (Z * CacheInt64) :=
  bucket_deleteFunc visit bi (λ key _, Z.land key prefix =? prefix) c.

(** [DeleteFunc] and [DeletePrefix] go through the shards in index order;
    [visit bi] is the order in which the map of shard [bi] is visited. *)
Definition DeleteFunc (visit : nat → range_order)
    (matches : Z → ItemInt64 → bool) (c : CacheInt64)
  : option (Z * CacheInt64) :=
  foldl (λ acc bi,
           '(count, c1) ← acc;
           '(n, c2) ← bucket_deleteFunc (visit bi) bi matches c1;
           Some (wrap64 (count + n), c2))
    (Some (0, c)) (seq 0 (length (c_buckets c))).

Definition DeletePrefix (visit : nat → range_order) (prefix : Z)
    (c : CacheInt64) : option (Z * CacheInt64) :=
  foldl (λ acc bi,
           '(count, c1) ← acc;
           '(n, c2) ← bucket_deletePrefix (visit bi) bi prefix c1;
           Some (wrap64 (count + n), c2))
    (Some (0, c)) (seq 0 (length (c_buckets c))).

(** Every entry of every shard maps its key to an allocated item that
    carries the same key. *)
Definition keys_agree (c : CacheInt64) : Prop :=
  ∀ bi b k p,
    c_buckets c !! bi = Some b → b !! k = Some p →
    ∃ i, load p c = Some i ∧ i_key i = k.

(** The entry of [key] matches the predicate. *)
Definition entry_matches (matches : Z → ItemInt64 → bool) (c : CacheInt64)
    (key : Z) (p : ptr) : bool :=
  match load p c with
  | Some i => matches key i
  | None => false
  end.

(** Max size 2, one item pruned per sweep: the state after [Set(1, v)] and
    [Set(2, w)], each followed by the worker's turn. *)
Definition two_entries : CacheInt64 :=
  after [CallSet 0 1 (VOther 0) 100; RecvPromote;
         CallSet 1 2 (VOther 1) 100; RecvPromote]
    (empty16 (ItemsToPrune 1 (MaxSize 2 ConfigureInt64))).

(** ** Every call and every turn *)

(** What can happen to a cache: a call of the facade run to its end (the
    loader of [Fetch] is given by what it returns, a value and whether it
    failed; [Release] is called on an item the caller holds), or a turn of
    the worker on one of its two channels. *)
Inductive op : Type :=
  | OpSet (now key : Z) (v : value) (duration : Z)
  | OpTrackingSet (now key : Z) (v : value) (duration : Z)
  | OpGet (now key : Z)
  | OpTrackingGet (now key : Z)
  | OpRelease (item : ptr)
  | OpReplace (nowTTL nowSet key : Z) (v : value)
  | OpDelete (key : Z)
  | OpFetch (nowGet nowCheck nowSet key duration : Z) (v : value)
      (failed : bool)
  | OpIncr (now key n duration : Z)
  | OpIncrPromote (now key n duration : Z)
  | OpDeleteFunc (visit : nat → range_order)
      (matches : Z → ItemInt64 → bool)
  | OpDeletePrefix (visit : nat → range_order) (prefix : Z)
  | OpSetMaxSize (size : Z)
  | OpGetDropped
  | OpClear
  | TurnPromote
  | TurnDelete.

Definition exec (o : op) (c : CacheInt64) : option CacheInt64 :=
  match o with
  | OpSet now key v d => Set_ now key v d c
  | OpTrackingSet now key v d =>
      '(_, c') ← TrackingSet now key v d c; Some c'
  | OpGet now key => '(_, c') ← Get now key c; Some c'
  | OpTrackingGet now key => '(_, c') ← TrackingGet now key c; Some c'
  | OpRelease item => Some (ReleaseItem item c)
  | OpReplace nowTTL nowSet key v =>
      '(_, c') ← Replace nowTTL nowSet key v c; Some c'
  | OpDelete key => '(_, c') ← Delete key c; Some c'
  | OpFetch nowGet nowCheck nowSet key d v failed =>
      '(_, c') ← Fetch nowGet nowCheck nowSet key d
                   (λ l : unit, (v, if failed then Some tt else None, l)) tt c;
      Some c'
  | OpIncr now key n d => '(_, c') ← Incr now key n d c; Some c'
  | OpIncrPromote now key n d => '(_, c') ← IncrPromote now key n d c; Some c'
  | OpDeleteFunc visit matches => '(_, c') ← DeleteFunc visit matches c; Some c'
  | OpDeletePrefix visit prefix => '(_, c') ← DeletePrefix visit prefix c; Some c'
  | OpSetMaxSize size => SetMaxSize size c
  | OpGetDropped => '(_, c') ← GetDropped c; Some c'
  | OpClear => Clear c
  | TurnPromote => worker_promote c
  | TurnDelete => worker_delete c
  end.

Fixpoint execs (os : list op) (c : CacheInt64) : option CacheInt64 :=
  match os with
  | [] => Some c
  | o :: os' => c' ← exec o c; execs os' c'
  end.

(** A value a caller may pass: an [*int64] points to an allocated cell. *)
Definition value_ok (c : CacheInt64) (v : value) : Prop :=
  match v with
  | VInt64Ptr p => is_Some (c_cells c !! p)
  | _ => True
  end.

(** What is asked of the arguments of a call: values are as above, the
    order of a visit lists the entries of the map, and a bulk deletion
    meets fewer than 2^63 entries. *)
Definition op_ok (c : CacheInt64) (o : op) : Prop :=
  match o with
  | OpSet _ _ v _ | OpTrackingSet _ _ v _ | OpReplace _ _ _ v
  | OpFetch _ _ _ _ _ v _ => value_ok c v
  | OpDeleteFunc visit _ | OpDeletePrefix visit _ =>
      (∀ bi b, visit bi b ≡ₚ map_to_list b) ∧ ItemCount c ≤ max_int64
  | _ => True
  end.

Fixpoint ops_ok (os : list op) (c : CacheInt64) : Prop :=
  match os with
  | [] => True
  | o :: os' =>
      op_ok c o
      ∧ match exec o c with
        | Some c' => ops_ok os' c'
        | None => True
        end
  end.

(** The state of a cache in use: the mask selects an existing shard; every
    entry maps its key to an item carrying that key; no item is linked
    twice and every linked item has an element owned by the current list;
    an element owned by the current list is linked, and no element is owned
    by a list yet to come; the items on the channels are allocated, and so
    are the counters that items point to; the promote channel holds no
    more messages than its buffer has room for; the size is an [int64]. *)
Record sound (c : CacheInt64) : Prop := mkSound {
  sound_mask : 0 ≤ c_bucketMask c < Z.of_nat (length (c_buckets c));
  sound_map : keys_agree c;
  sound_list :
    NoDup (c_list c)
    ∧ ∀ q, q ∈ c_list c →
        ∃ j, load q c = Some j
             ∧ i_element j = Some (mkElement (Some (c_listId c)));
  sound_owner : ∀ p i e id,
    load p c = Some i → i_element i = Some e → e_list e = Some id →
    (id ≤ c_listId c)%nat ∧ (id = c_listId c → p ∈ c_list c);
  sound_deletables : ∀ p, p ∈ c_deletables c → is_Some (load p c);
  sound_promotables : ∀ p, p ∈ c_promotables c → is_Some (load p c);
  sound_room :
    Z.of_nat (length (c_promotables c)) ≤ Z.max 0 (promoteBuffer (c_config c));
  sound_cells : ∀ p i v,
    load p c = Some i → i_value i = VInt64Ptr v → is_Some (c_cells c !! v);
  sound_size : min_int64 ≤ c_size c ≤ max_int64
}.

(** The item at [p] is out of the recency list for good: it was marked as
    deleted before it got an element, or its element is not owned by the
    current list. *)
Definition gone (c : CacheInt64) (p : ptr) : Prop :=
  ∃ i, load p c = Some i
       ∧ ((i_element i = None ∧ i_promotions i = -2)
          ∨ ∃ e, i_element i = Some e ∧ e_list e ≠ Some (c_listId c)).

(** The invariant, together with a set [G] of items that are out of the
    list for good. *)
Definition sound_gone (G : ptr → Prop) (c : CacheInt64) : Prop :=
  sound c ∧ ∀ p, G p → gone c p.

(** ** Stopping the worker *)

(** [Stop] closes the promote channel and waits for the worker to return.
    A closed channel still hands out the messages it holds, so the worker
    goes on taking promote messages and delete notices, in an order left
    to its [select] ([choose] says which channel is taken when both hold a
    message), until the promote channel is empty; it then drains the delete
    channel and returns.  Each turn takes one message and sends none, so
    [n] turns are enough when [n] messages are waiting.  The model keeps
    the state of the cache; that the channels are closed at the end, so
    that later calls panic, is not part of it. *)
Fixpoint stop_loop (choose : CacheInt64 → bool) (n : nat) (c : CacheInt64)
  : option CacheInt64 :=
  match n with
  | O => Some c
  | S n' =>
      match c_promotables c, c_deletables c with
      | [], [] => Some c
      | [], _ :: _ => c' ← worker_delete c; stop_loop choose n' c'
      | _ :: _, [] => c' ← worker_promote c; stop_loop choose n' c'
      | _ :: _, _ :: _ =>
          c' ← (if choose c then worker_promote c else worker_delete c);
          stop_loop choose n' c'
      end
  end.

Definition Stop (choose : CacheInt64 → bool) (c : CacheInt64)
  : option CacheInt64 :=
  stop_loop choose (length (c_promotables c) + length (c_deletables c)) c.


(** * Properties *)

(** ** The bucket count option *)

(** [x & -x] keeps the lowest set bit of [x]; it is [x] exactly when [x]
    has a single bit set. *)
Lemma land_odd_opp m : Z.land (2 * m + 1) (- (2 * m + 1)) = 1.
Proof.
  replace (- (2 * m + 1)) with (2 * Z.lnot m + 1) by (unfold Z.lnot; lia).
  apply Z.bits_inj'. intros n Hn. rewrite Z.land_spec.
  destruct (decide (n = 0)) as [->|Hne].
  - rewrite !Z.testbit_odd_0. reflexivity.
  - replace n with (Z.succ (n - 1)) by lia.
    rewrite !Z.testbit_odd_succ by lia.
    rewrite Z.lnot_spec by lia.
    rewrite andb_negb_r.
    change 1 with (2 * 0 + 1). rewrite Z.testbit_odd_succ by lia.
    symmetry. apply Z.bits_0.
Qed.

Lemma land_even_opp m : Z.land (2 * m) (- (2 * m)) = 2 * Z.land m (- m).
Proof.
  replace (- (2 * m)) with (2 * - m) by lia.
  rewrite !(Z.mul_comm 2).
  change 2 with (2 ^ 1).
  rewrite <- !Z.shiftl_mul_pow2 by lia.
  symmetry. apply Z.shiftl_land.
Qed.

Lemma pow2_odd k m : 0 ≤ k → 2 * m + 1 = 2 ^ k → m = 0.
Proof.
  intros Hk H. destruct (decide (k = 0)) as [->|Hne]; [simpl in H; lia|].
  replace k with (Z.succ (k - 1)) in H by lia.
  rewrite Z.pow_succ_r in H by lia. lia.
Qed.

Lemma land_opp_pow2 p :
  Z.land (Z.pos p) (- Z.pos p) = Z.pos p ↔ is_pow2 (Z.pos p).
Proof.
  induction p as [p IH|p IH|].
  - rewrite Pos2Z.inj_xI, land_odd_opp. split.
    + lia.
    + intros (k & Hk & H). apply pow2_odd in H; lia.
  - rewrite Pos2Z.inj_xO, land_even_opp. split.
    + intros H. assert (H' : Z.land (Z.pos p) (- Z.pos p) = Z.pos p) by lia.
      apply IH in H' as (k & Hk & ->). exists (Z.succ k). split; [lia|].
      rewrite Z.pow_succ_r; lia.
    + intros (k & Hk & H).
      destruct (decide (k = 0)) as [->|Hne]; [simpl in H; lia|].
      replace k with (Z.succ (k - 1)) in H by lia.
      rewrite Z.pow_succ_r in H by lia.
      assert (Hp : is_pow2 (Z.pos p)) by (exists (k - 1); split; lia).
      apply IH in Hp. lia.
  - split; [|reflexivity]. intros _. exists 0. split; [lia|reflexivity].
Qed.

Lemma uint32_not count : 0 ≤ count < 2 ^ 32 →
  Z.lxor count (2 ^ 32 - 1) = 2 ^ 32 - 1 - count.
Proof.
  intros H.
  assert (E : 2 ^ 32 - 1 - count = Z.lnot count mod 2 ^ 32).
  { apply Z.mod_unique with (q := -1); unfold Z.lnot; lia. }
  rewrite E. apply Z.bits_inj'. intros n Hn.
  rewrite Z.lxor_spec.
  change (2 ^ 32 - 1) with (Z.ones 32).
  destruct (decide (n < 32)) as [Hlt|Hge].
  - rewrite Z.mod_pow2_bits_low, Z.ones_spec_low, Z.lnot_spec by lia.
    apply xorb_true_r.
  - rewrite Z.mod_pow2_bits_high, Z.ones_spec_high by lia.
    rewrite <- (Z.mod_small count (2 ^ 32)) by lia.
    rewrite Z.mod_pow2_bits_high by lia. reflexivity.
Qed.

Lemma uint32_lowbit count : 0 < count < 2 ^ 32 →
  Z.land count (wrapU32 (Z.lxor count (2 ^ 32 - 1) + 1)) = Z.land count (- count).
Proof.
  intros H. rewrite uint32_not by lia. unfold wrapU32.
  replace (2 ^ 32 - 1 - count + 1) with (2 ^ 32 - count) by lia.
  rewrite Z.mod_small by lia.
  assert (E : 2 ^ 32 - count = (- count) mod 2 ^ 32).
  { apply Z.mod_unique with (q := -1); lia. }
  rewrite E. apply Z.bits_inj'. intros n Hn. rewrite !Z.land_spec.
  destruct (decide (n < 32)) as [Hlt|Hge].
  - rewrite Z.mod_pow2_bits_low by lia. reflexivity.
  - rewrite <- (Z.mod_small count (2 ^ 32)) at 1 3 by lia.
    rewrite Z.mod_pow2_bits_high by lia. reflexivity.
Qed.

Lemma Buckets_test count :
  0 ≤ count < 2 ^ 32 →
  (count =? 0)
  || negb (Z.land count (wrapU32 (Z.lxor count (2 ^ 32 - 1) + 1)) =? count)
  = false ↔ is_pow2 count.
Proof.
  intros H. rewrite orb_false_iff, negb_false_iff, Z.eqb_neq, Z.eqb_eq.
  destruct (decide (count = 0)) as [->|Hne].
  - split; [tauto|]. intros (k & Hk & E).
    pose proof (Z.pow_pos_nonneg 2 k). lia.
  - rewrite uint32_lowbit by lia.
    destruct count as [|p|p]; [lia| |lia].
    change (- Z.pos p) with (Z.neg p) in *.
    pose proof (land_opp_pow2 p) as L. simpl in L. tauto.
Qed.

(** C9: for every [count] of type [uint32] given to [Buckets], a count
    that is zero or not a power of two is replaced by the default 16
    without any error, a power of two is kept as it is; the other options
    are left alone. *)
Theorem Buckets_normalizes_to_default :
  ∀ (count : Z) (cfg : ConfigurationInt64),
    0 ≤ count < 2 ^ 32 →
    (count = 0 ∨ ¬ is_pow2 count → buckets (Buckets count cfg) = 16)
    ∧ (is_pow2 count → buckets (Buckets count cfg) = count)
    ∧ Buckets count cfg
      = mkConfig (maxSize cfg) (buckets (Buckets count cfg))
          (itemsToPrune cfg) (deleteBuffer cfg) (promoteBuffer cfg)
          (getsPerPromote cfg) (tracking cfg) (onDelete cfg).
Proof.
  intros count cfg H. pose proof (Buckets_test count H) as T.
  unfold Buckets. cbn [buckets].
  destruct ((count =? 0) || negb (_ =? count)) eqn:E.
  - split; [reflexivity|]. split; [|reflexivity].
    intros P. apply T in P. discriminate.
  - split; [|split; [reflexivity|reflexivity]].
    intros [->|N]; [discriminate|]. exfalso. apply N, T. reflexivity.
Qed.

Lemma Buckets_normalizes_to_default_witness :
  buckets (Buckets 0 ConfigureInt64) = 16
  ∧ buckets (Buckets 8 ConfigureInt64) = 8.
Proof.
  split.
  - apply (Buckets_normalizes_to_default 0 ConfigureInt64); [lia|].
    left. reflexivity.
  - apply (Buckets_normalizes_to_default 8 ConfigureInt64); [lia|].
    exists 3. split; [lia|reflexivity].
Defined.

(** ** The facade: [set], [Get], [Fetch] and the increment family *)

Lemma bucket_Some key c bi :
  bucket key c = Some bi → (bi < length (c_buckets c))%nat.
Proof.
  unfold bucket. case_match; [|discriminate]. intros [= <-].
  apply andb_prop in H as [H1 H2]. lia.
Qed.

Lemma bucket_lookup key c bi :
  bucket key c = Some bi → ∃ b, c_buckets c !! bi = Some b.
Proof.
  intros H%bucket_Some. apply lookup_lt_is_Some_2 in H as [b Hb]. eauto.
Qed.

Lemma set_spec c now key v d track bi b :
    bucket key c = Some bi →
    c_buckets c !! bi = Some b →
    let item := length (c_items c) in
    set now key v d track c = Some (item, 
      promote item 
        (match b !! key with Some old => send_deletable old | None => id end
          (with_buckets (<[bi := <[key := item]> b]> (c_buckets c))
             (with_items (c_items c ++ [newItemInt64 key v (wrap64 (now + d)) track]) c)))).
Proof.
  intros Hb Hl item. unfold set, bucket_set. rewrite Hb. simpl.
  rewrite Hl. simpl. destruct (b !! key); reflexivity.
Qed.

Lemma load_promote p q c : load p (promote q c) = load p c.
Proof. unfold promote. case_match; reflexivity. Qed.

Lemma buckets_promote q c : c_buckets (promote q c) = c_buckets c.
Proof. unfold promote. case_match; reflexivity. Qed.

Lemma bucketMask_promote q c : c_bucketMask (promote q c) = c_bucketMask c.
Proof. unfold promote. case_match; reflexivity. Qed.

Lemma deletables_promote q c : c_deletables (promote q c) = c_deletables c.
Proof. unfold promote. case_match; reflexivity. Qed.

Lemma items_promote q c : c_items (promote q c) = c_items c.
Proof. unfold promote. case_match; reflexivity. Qed.

Lemma bucket_ext key c c' :
  c_bucketMask c' = c_bucketMask c →
  length (c_buckets c') = length (c_buckets c) →
  bucket key c' = bucket key c.
Proof. intros E1 E2. unfold bucket. rewrite E1, E2. reflexivity. Qed.

(** What [set] leaves in the shard and in the item store. *)
Lemma set_post c now key v d track bi b :
  bucket key c = Some bi →
  c_buckets c !! bi = Some b →
  let item := length (c_items c) in
  ∃ c',
    set now key v d track c = Some (item, c')
    ∧ load item c = None
    ∧ load item c' = Some (newItemInt64 key v (wrap64 (now + d)) track)
    ∧ c_buckets c' = <[bi := <[key := item]> b]> (c_buckets c)
    ∧ GetItem key c' = Some (Some item).
Proof.
  intros Hb Hl item.
  pose proof (set_spec c now key v d track bi b Hb Hl) as S. cbv zeta in S.
  fold item in S. eexists. split; [exact S|].
  split. { unfold load, item. apply lookup_ge_None_2. lia. }
  split.
  { rewrite load_promote. destruct (b !! key); unfold load, item; simpl;
      apply list_lookup_middle; reflexivity. }
  split. { rewrite buckets_promote. destruct (b !! key); reflexivity. }
  unfold GetItem, bucket_get.
  erewrite bucket_ext; [rewrite Hb| |].
  - simpl. rewrite buckets_promote.
    destruct (b !! key); simpl;
      rewrite list_lookup_insert_eq by eauto using bucket_Some;
      simpl; rewrite lookup_insert_eq; reflexivity.
  - rewrite bucketMask_promote. destruct (b !! key); reflexivity.
  - rewrite buckets_promote. destruct (b !! key); simpl; apply length_insert.
Qed.

(** C7: for every key whose shard exists, [set] replaces whatever the
    shard held under the key by a fresh item; when an item was displaced,
    exactly one message, for that item, is added to the delete channel, and
    none otherwise; the promote message for the new item is sent (a send
    that does not block: it is queued when the buffer has room and dropped
    when it is full); the new item is the one stored and the one [set]
    returns.  The public [Set] does the same with tracking off. *)
Theorem set_replaces_and_notifies :
  ∀ (c : CacheInt64) (now key : Z) (v : value) (d : Z) (track : bool)
    (bi : nat) (b : gmap Z ptr),
    bucket key c = Some bi →
    c_buckets c !! bi = Some b →
    let item := length (c_items c) in
    ∃ c',
      set now key v d track c = Some (item, c')
      ∧ (track = false → Set_ now key v d c = Some c')
      ∧ load item c = None
      ∧ load item c' = Some (newItemInt64 key v (wrap64 (now + d)) track)
      ∧ c_buckets c' = <[bi := <[key := item]> b]> (c_buckets c)
      ∧ GetItem key c' = Some (Some item)
      ∧ c_deletables c'
        = c_deletables c ++ match b !! key with Some old => [old] | None => [] end
      ∧ c_promotables c'
        = if Z.of_nat (length (c_promotables c)) <? promoteBuffer (c_config c)
          then c_promotables c ++ [item] else c_promotables c.
Proof.
  intros c now key v d track bi b Hb Hl item.
  destruct (set_post c now key v d track bi b Hb Hl)
    as (c' & S & Hfresh & Hload & Hbk & Hget).
  fold item in S, Hfresh, Hload, Hbk, Hget.
  exists c'. split; [exact S|].
  split. { intros ->. unfold Set_. rewrite S. reflexivity. }
  split; [exact Hfresh|]. split; [exact Hload|]. split; [exact Hbk|].
  split; [exact Hget|].
  pose proof (set_spec c now key v d track bi b Hb Hl) as S'. cbv zeta in S'.
  fold item in S'. rewrite S in S'. injection S' as ->.
  split.
  { rewrite deletables_promote. destruct (b !! key); simpl; [reflexivity|].
    rewrite app_nil_r. reflexivity. }
  unfold promote. destruct (b !! key); simpl; case_match; reflexivity.
Qed.

Lemma wrap64_id z : min_int64 ≤ z ≤ max_int64 → wrap64 z = z.
Proof.
  unfold min_int64, max_int64, wrap64. intros H.
  rewrite Z.mod_small by lia. lia.
Qed.

Lemma Set_inv now key v d c c1 :
  Set_ now key v d c = Some c1 →
  ∃ bi b, bucket key c = Some bi ∧ c_buckets c !! bi = Some b
          ∧ set now key v d false c = Some (length (c_items c), c1).
Proof.
  unfold Set_. intros H.
  destruct (bucket key c) as [bi|] eqn:Hb.
  2:{ unfold set in H. rewrite Hb in H. discriminate. }
  destruct (bucket_lookup _ _ _ Hb) as [b Hl].
  exists bi, b. split; [done|]. split; [done|].
  pose proof (set_spec c now key v d false bi b Hb Hl) as S. cbv zeta in S.
  rewrite S in H |- *. simpl in H. congruence.
Qed.

Lemma Get_found now key c p i :
  GetItem key c = Some (Some p) → load p c = Some i →
  Get now key c = Some (Some p, if Expired now i then c else promote p c).
Proof.
  unfold GetItem, Get. intros H L.
  destruct (bucket key c) as [bi|]; [|discriminate]. simpl in *.
  rewrite H. simpl. rewrite L. simpl. destruct (Expired now i); reflexivity.
Qed.

(** C8: [Get] returns the stored item whether it is expired or not; an
    item set with a ttl of -1s is returned by a later [Get], its [Expired]
    is true and its [TTL] is negative; and [Get] sends a promote message
    only when the item is found and not expired. *)
Theorem Get_returns_expired_entries :
  (∀ (c : CacheInt64) (now key : Z) (p : ptr) (i : ItemInt64),
     GetItem key c = Some (Some p) → load p c = Some i →
     Get now key c = Some (Some p, if Expired now i then c else promote p c))
  ∧ (∀ (c c1 : CacheInt64) (t0 t1 key : Z) (v : value),
       0 ≤ t0 ≤ t1 → t1 ≤ max_int64 - 10 ^ 9 →
       Set_ t0 key v (- 10 ^ 9) c = Some c1 →
       ∃ p i, Get t1 key c1 = Some (Some p, c1)
              ∧ load p c1 = Some i ∧ i_key i = key ∧ i_value i = v
              ∧ Expired t1 i = true ∧ TTL t1 i < 0)
  ∧ (∀ (c c' : CacheInt64) (now key : Z) (r : option ptr),
       Get now key c = Some (r, c') →
       c_promotables c' ≠ c_promotables c →
       ∃ p i, r = Some p ∧ GetItem key c = Some (Some p)
              ∧ load p c = Some i ∧ Expired now i = false).
Proof.
  split; [intros; by apply Get_found|]. split.
  - intros c c1 t0 t1 key v Ht0 Ht1 HS.
    destruct (Set_inv _ _ _ _ _ _ HS) as (bi & b & Hb & Hl & Hset).
    destruct (set_post c t0 key v (- 10 ^ 9) false bi b Hb Hl)
      as (c' & Hset' & _ & Hload & _ & Hget).
    cbv zeta in *. rewrite Hset in Hset'. injection Hset' as <-.
    eexists _, _. split; [|split; [exact Hload|]].
    + rewrite (Get_found t1 key c1 _ _ Hget Hload).
      unfold Expired, newItemInt64. cbn [i_expires].
      rewrite wrap64_id by (unfold min_int64, max_int64 in *; lia).
      destruct (Z.ltb_spec (t0 + - 10 ^ 9) t1); [reflexivity|lia].
    + cbn. unfold Expired, TTL. cbn.
      rewrite (wrap64_id (t0 + _)) by (unfold min_int64, max_int64 in *; lia).
      rewrite wrap64_id by (unfold min_int64, max_int64 in *; lia).
      repeat split; [|lia].
      destruct (Z.ltb_spec (t0 + - 10 ^ 9) t1); [reflexivity|lia].
  - intros c c' now key r HG Hne. unfold Get, GetItem in *.
    destruct (bucket key c) as [bi|]; [|discriminate]. simpl in *.
    destruct (bucket_get bi key c) as [[p|]|]; simpl in *; try discriminate.
    + destruct (load p c) as [i|] eqn:L; simpl in *; [|discriminate].
      destruct (Expired now i) eqn:E; simpl in HG; injection HG as <- <-.
      * congruence.
      * eauto 10.
    + injection HG as <- <-. congruence.
Qed.

Lemma load_app_l p c i x :
  load p c = Some i → load p (with_items (c_items c ++ [x]) c) = Some i.
Proof. unfold load. simpl. intros H. rewrite lookup_app_l_Some with (x := i); done. Qed.

Lemma incrNow_store c now key n d track bi b :
  c_buckets c !! bi = Some b →
  match b !! key with
  | None => True
  | Some old => ∃ i, load old c = Some i
                     ∧ (i_expires i ≤ now ∨ as_int64_ptr (i_value i) = None)
  end →
  let item := length (c_items c) in
  let pv := length (c_cells c) in
  bucket_incrNow bi key n now d track c
  = Some (n, Some item, None,
          with_buckets (<[bi := <[key := item]> b]> (c_buckets c))
            (with_items (c_items c ++ [newItemInt64 key (VInt64Ptr pv) (wrap64 (now + d)) track])
               (with_cells (c_cells c ++ [n]) c))).
Proof.
  intros Hl H item pv. unfold bucket_incrNow. simpl. rewrite Hl. simpl.
  destruct (b !! key) as [old|]; [|reflexivity].
  destruct H as (i & L & H). unfold load in *. simpl.
  rewrite lookup_app_l_Some with (x := i) by done. simpl.
  destruct H as [H|H].
  - destruct (Z.ltb_spec now (i_expires i)); [lia|reflexivity].
  - rewrite H. destruct (now <? i_expires i); reflexivity.
Qed.

(** C10: when the item stored under the key is expired or does not hold
    an [*int64], [Incr] and [IncrPromote] put a fresh item holding the
    delta in its place in the shard map; the displaced item is left as it
    was and no message for it reaches the delete channel; the only message
    sent is the promote message of the new item. *)
Theorem Incr_displaces_without_delete_notice :
  ∀ (c : CacheInt64) (now key n d : Z) (bi : nat) (b : gmap Z ptr)
    (old : ptr) (i : ItemInt64),
    bucket key c = Some bi →
    c_buckets c !! bi = Some b →
    b !! key = Some old →
    load old c = Some i →
    Expired now i = true ∨ as_int64_ptr (i_value i) = None →
    let item := length (c_items c) in
    let pv := length (c_cells c) in
    ∃ c',
      Incr now key n d c = Some (n, c')
      ∧ IncrPromote now key n d c = Some (n, c')
      ∧ c_buckets c' = <[bi := <[key := item]> b]> (c_buckets c)
      ∧ GetItem key c' = Some (Some item)
      ∧ item ≠ old
      ∧ load item c'
        = Some (newItemInt64 key (VInt64Ptr pv) (wrap64 (now + d)) false)
      ∧ c_cells c' !! pv = Some n
      ∧ load old c' = Some i
      ∧ c_deletables c' = c_deletables c
      ∧ c_promotables c'
        = if Z.of_nat (length (c_promotables c)) <? promoteBuffer (c_config c)
          then c_promotables c ++ [item] else c_promotables c.
Proof.
  intros c now key n d bi b old i Hb Hl Hk L H item pv.
  assert (S : bucket_incrNow bi key n now d false c
              = Some (n, Some item, None,
                      with_buckets (<[bi := <[key := item]> b]> (c_buckets c))
                        (with_items (c_items c ++ [newItemInt64 key (VInt64Ptr pv) (wrap64 (now + d)) false])
                           (with_cells (c_cells c ++ [n]) c)))).
  { apply incrNow_store; [done|]. rewrite Hk. exists i. split; [done|].
    destruct H as [H|H]; [left|by right].
    unfold Expired in H. apply Z.ltb_lt in H. lia. }
  eexists. unfold Incr, IncrPromote, bucket_incr. rewrite Hb. simpl.
  rewrite S. simpl.
  split; [reflexivity|]. split; [reflexivity|].
  split. { rewrite buckets_promote. reflexivity. }
  split.
  { unfold GetItem, bucket_get. erewrite bucket_ext; [rewrite Hb| |].
    - simpl. rewrite buckets_promote. simpl.
      rewrite list_lookup_insert_eq by eauto using bucket_Some.
      simpl. rewrite lookup_insert_eq. reflexivity.
    - rewrite bucketMask_promote. reflexivity.
    - rewrite buckets_promote. simpl. apply length_insert. }
  split. { unfold item. apply lookup_lt_Some in L. lia. }
  split. { rewrite load_promote. unfold load, item. simpl. apply list_lookup_middle. reflexivity. }
  split. { unfold promote. case_match; simpl; apply list_lookup_middle; reflexivity. }
  split. { rewrite load_promote. unfold load in *. simpl. rewrite lookup_app_l_Some with (x := i); done. }
  split. { rewrite deletables_promote. reflexivity. }
  unfold promote. simpl. case_match; reflexivity.
Qed.

Lemma Get_inv now key c r c1 :
  Get now key c = Some (r, c1) →
  (∃ bi, bucket key c = Some bi ∧ GetItem key c = Some r)
  ∧ c_buckets c1 = c_buckets c ∧ c_items c1 = c_items c
  ∧ c_bucketMask c1 = c_bucketMask c ∧ c_deletables c1 = c_deletables c.
Proof.
  unfold Get, GetItem. intros H.
  destruct (bucket key c) as [bi|]; [|discriminate]. simpl in *.
  destruct (bucket_get bi key c) as [[p|]|]; simpl in *; try discriminate.
  - destruct (load p c) as [i|]; simpl in *; [|discriminate].
    destruct (Expired now i); simpl in H; injection H as <- <-;
      rewrite ?buckets_promote, ?items_promote, ?bucketMask_promote,
        ?deletables_promote; eauto 10.
  - injection H as <- <-. eauto 10.
Qed.

(** C6: [Fetch] returns a found, unexpired item and leaves the loader
    alone (the loader's state is the one given); on a miss or on an expired
    item it calls the loader once; an error of the loader is returned as it
    is and the shard maps and the item store are what they were before the
    call; a value of the loader is [set] under the key and the new item is
    returned. *)
Theorem Fetch_loader_contract :
  ∀ (L E : Type) (c c1 : CacheInt64) (nowGet nowCheck nowSet key d : Z)
    (fetch : L → value * option E * L) (l : L) (item : option ptr),
    Get nowGet key c = Some (item, c1) →
    (∀ p i, item = Some p → load p c1 = Some i → Expired nowCheck i = false →
       Fetch nowGet nowCheck nowSet key d fetch l c = Some (Some p, None, l, c1))
    ∧ (item = None
       ∨ (∃ p i, item = Some p ∧ load p c1 = Some i ∧ Expired nowCheck i = true) →
       ∀ v err l', fetch l = (v, err, l') →
         match err with
         | Some e =>
             Fetch nowGet nowCheck nowSet key d fetch l c = Some (None, Some e, l', c1)
             ∧ c_buckets c1 = c_buckets c
             ∧ c_items c1 = c_items c
             ∧ GetItem key c1 = GetItem key c
         | None =>
             ∃ p c2,
               set nowSet key v d false c1 = Some (p, c2)
               ∧ Fetch nowGet nowCheck nowSet key d fetch l c = Some (Some p, None, l', c2)
               ∧ GetItem key c2 = Some (Some p)
               ∧ load p c1 = None
               ∧ load p c2 = Some (newItemInt64 key v (wrap64 (nowSet + d)) false)
         end).
Proof.
  intros L E c c1 nowGet nowCheck nowSet key d fetch l item HG.
  destruct (Get_inv _ _ _ _ _ HG) as ((bi & Hb & HI) & EB & EI & EM & ED).
  split.
  - intros p i -> Hl Hx. unfold Fetch. rewrite HG. simpl. rewrite Hl. simpl.
    rewrite Hx. reflexivity.
  - intros Hmiss v err l' Hf.
    assert (F : Fetch nowGet nowCheck nowSet key d fetch l c
                = match err with
                  | Some e => Some (None, Some e, l', c1)
                  | None => '(p, c2) ← set nowSet key v d false c1;
                            Some (Some p, None, l', c2)
                  end).
    { unfold Fetch. rewrite HG. simpl. rewrite Hf.
      destruct Hmiss as [->|(p & i & -> & Hl & Hx)]; [reflexivity|].
      rewrite Hl. simpl. rewrite Hx. reflexivity. }
    destruct err as [e|].
    + split; [exact F|]. split; [exact EB|]. split; [exact EI|].
      unfold GetItem, bucket_get. rewrite EB.
      erewrite bucket_ext; [reflexivity|done|by rewrite EB].
    + assert (Hb1 : bucket key c1 = Some bi).
      { erewrite bucket_ext; [exact Hb|done|by rewrite EB]. }
      destruct (bucket_lookup _ _ _ Hb1) as [b Hl1].
      destruct (set_post c1 nowSet key v d false bi b Hb1 Hl1)
        as (c2 & Hset & Hfresh & Hload & _ & Hget).
      cbv zeta in *. eexists _, c2. split; [exact Hset|].
      rewrite F, Hset. simpl. done.
Qed.

Lemma set_replaces_and_notifies_witness :
  ∃ c', set 5 7 (VOther 1) 10 false one_item = Some (1%nat, c')
        ∧ GetItem 7 c' = Some (Some 1%nat)
        ∧ c_deletables c' = [0%nat]
        ∧ c_promotables c' = [1%nat].
Proof.
  destruct (set_replaces_and_notifies one_item 5 7 (VOther 1) 10 false
              7%nat {[7 := 0%nat]})
    as (c' & H1 & _ & _ & _ & _ & H2 & H3 & H4);
    [reflexivity|reflexivity|].
  exists c'. split; [exact H1|]. split; [exact H2|].
  split; [exact H3|exact H4].
Defined.

Lemma Get_returns_expired_entries_witness :
  ∃ p i, Get 5 7 expired_entry = Some (Some p, expired_entry)
         ∧ load p expired_entry = Some i ∧ i_key i = 7
         ∧ i_value i = VOther 0
         ∧ Expired 5 i = true ∧ TTL 5 i < 0.
Proof.
  apply (proj1 (proj2 Get_returns_expired_entries)
           (empty16 ConfigureInt64) expired_entry 0 5 7 (VOther 0)).
  - lia.
  - unfold max_int64. lia.
  - vm_compute. reflexivity.
Defined.

Lemma Incr_displaces_without_delete_notice_witness :
  ∃ c', Incr 50 7 5 10 one_item = Some (5, c')
        ∧ IncrPromote 50 7 5 10 one_item = Some (5, c')
        ∧ GetItem 7 c' = Some (Some 1%nat)
        ∧ c_deletables c' = []
        ∧ c_promotables c' = [1%nat].
Proof.
  destruct (Incr_displaces_without_delete_notice one_item 50 7 5 10
              7%nat {[7 := 0%nat]} 0%nat
              (mkItem 7 0 0 100 1 (VOther 0) (Some (mkElement (Some 0%nat)))))
    as (c' & H1 & H2 & _ & H3 & _ & _ & _ & _ & H4 & H5);
    [reflexivity|reflexivity|reflexivity|reflexivity|right; reflexivity|].
  exists c'. split; [exact H1|]. split; [exact H2|]. split; [exact H3|].
  split; [exact H4|exact H5].
Defined.

Lemma Fetch_loader_contract_witness :
  Fetch 50 51 52 7 10 (λ n : nat, (VOther 9, @None nat, S n)) 0%nat one_item
  = Some (Some 0%nat, None, 0%nat, promote 0%nat one_item)
  ∧ Fetch 200 201 202 7 10 (λ n : nat, (VOther 9, Some 4%nat, S n)) 0%nat one_item
    = Some (None, Some 4%nat, 1%nat, one_item).
Proof.
  split.
  - apply (proj1 (Fetch_loader_contract nat nat one_item (promote 0%nat one_item)
                    50 51 52 7 10 (λ n : nat, (VOther 9, @None nat, S n)) 0%nat
                    (Some 0%nat) eq_refl)
             0%nat
             (mkItem 7 0 0 100 1 (VOther 0) (Some (mkElement (Some 0%nat)))));
      reflexivity.
  - apply (proj2 (Fetch_loader_contract nat nat one_item one_item
                    200 201 202 7 10 (λ n : nat, (VOther 9, Some 4%nat, S n))
                    0%nat (Some 0%nat) eq_refl)
             (or_intror
                (ex_intro _ 0%nat
                   (ex_intro _
                      (mkItem 7 0 0 100 1 (VOther 0) (Some (mkElement (Some 0%nat))))
                      (conj eq_refl (conj eq_refl eq_refl)))))
             (VOther 9) (Some 4%nat) 1%nat eq_refl).
Defined.

(** ** The increment family on a missing key and on a live counter *)

Lemma Incr_on_missing_key c now key n d bi b :
  bucket key c = Some bi →
  c_buckets c !! bi = Some b →
  b !! key = None →
  let item := length (c_items c) in
  let pv := length (c_cells c) in
  ∃ c',
    Incr now key n d c = Some (n, c')
    ∧ IncrPromote now key n d c = Some (n, c')
    ∧ GetItem key c' = Some (Some item)
    ∧ load item c'
      = Some (newItemInt64 key (VInt64Ptr pv) (wrap64 (now + d)) false)
    ∧ c_cells c' !! pv = Some n.
Proof.
  intros Hb Hl Hk item pv.
  pose proof (incrNow_store c now key n d false bi b Hl) as S.
  rewrite Hk in S. specialize (S I). cbv zeta in S. fold item pv in S.
  eexists. unfold Incr, IncrPromote, bucket_incr. rewrite Hb. simpl.
  rewrite S. simpl.
  split; [reflexivity|]. split; [reflexivity|]. split.
  { unfold GetItem, bucket_get. erewrite bucket_ext; [rewrite Hb| |].
    - simpl. rewrite buckets_promote. simpl.
      rewrite list_lookup_insert_eq by eauto using bucket_Some.
      simpl. rewrite lookup_insert_eq. reflexivity.
    - rewrite bucketMask_promote. reflexivity.
    - rewrite buckets_promote. simpl. apply length_insert. }
  split.
  { rewrite load_promote. unfold load, item. simpl.
    apply list_lookup_middle. reflexivity. }
  unfold promote. case_match; simpl; apply list_lookup_middle; reflexivity.
Qed.

Lemma incrNow_hit c now key n d track bi b p i v old :
  c_buckets c !! bi = Some b →
  b !! key = Some p →
  load p c = Some i →
  now < i_expires i →
  i_value i = VInt64Ptr v →
  c_cells c !! v = Some old →
  bucket_incrNow bi key n now d track c
  = Some (wrap64 (old + n), None, Some p,
          with_cells (<[v := wrap64 (old + n)]> (c_cells c ++ [n]))
            (with_items
               (c_items c ++ [newItemInt64 key (VInt64Ptr (length (c_cells c)))
                                (wrap64 (now + d)) track]) c)).
Proof.
  intros Hl Hk L Hx Hv Hc. unfold bucket_incrNow. simpl. rewrite Hl. simpl.
  rewrite Hk. unfold load in *. simpl.
  rewrite lookup_app_l_Some with (x := i) by done. simpl.
  destruct (Z.ltb_spec now (i_expires i)); [|lia]. rewrite Hv. simpl.
  rewrite lookup_app_l_Some with (x := old) by done. reflexivity.
Qed.

(** A second [Incr] on a live counter adds to the stored integer and
    leaves the item, its deadline included, as it was; so does
    [IncrPromote], which only sends one more promote message. *)
Lemma Incr_on_live_counter c now key n d bi b p i v old :
  bucket key c = Some bi →
  c_buckets c !! bi = Some b →
  b !! key = Some p →
  load p c = Some i →
  now < i_expires i →
  i_value i = VInt64Ptr v →
  c_cells c !! v = Some old →
  ∃ c',
    Incr now key n d c = Some (wrap64 (old + n), c')
    ∧ IncrPromote now key n d c = Some (wrap64 (old + n), promote p c')
    ∧ c_cells c' !! v = Some (wrap64 (old + n))
    ∧ load p c' = Some i
    ∧ load p (promote p c') = Some i
    ∧ GetItem key c' = Some (Some p).
Proof.
  intros Hb Hl Hk L Hx Hv Hc.
  pose proof (incrNow_hit c now key n d false bi b p i v old Hl Hk L Hx Hv Hc) as S.
  eexists. unfold Incr, IncrPromote, bucket_incr. rewrite Hb. simpl.
  rewrite S. simpl.
  split; [reflexivity|]. split; [reflexivity|]. split.
  { apply lookup_lt_Some in Hc as Hlt. simpl.
    rewrite list_lookup_insert_eq; [reflexivity|]. rewrite length_app. lia. }
  assert (L' : load p (with_cells (<[v := wrap64 (old + n)]> (c_cells c ++ [n]))
                         (with_items (c_items c ++ [newItemInt64 key (VInt64Ptr (length (c_cells c))) (wrap64 (now + d)) false]) c))
               = Some i).
  { unfold load in *. simpl. rewrite lookup_app_l_Some with (x := i); done. }
  split; [exact L'|]. split; [rewrite load_promote; exact L'|].
  unfold GetItem, bucket_get. erewrite bucket_ext; [rewrite Hb|done|done].
  simpl. rewrite Hl. simpl. rewrite Hk. reflexivity.
Qed.

(** The bucket's [incrNowPromote], which no caller uses, does store the
    new deadline on a hit. *)
Lemma incrNowPromote_renews c now key n d track bi b p i v old :
  c_buckets c !! bi = Some b →
  b !! key = Some p →
  load p c = Some i →
  now < i_expires i →
  i_value i = VInt64Ptr v →
  c_cells c !! v = Some old →
  ∃ c',
    bucket_incrNowPromote bi key n now d track c
    = Some (wrap64 (old + n), None, Some p, c')
    ∧ load p c' = Some (set_expires (wrap64 (now + d)) i).
Proof.
  intros Hl Hk L Hx Hv Hc. eexists. unfold bucket_incrNowPromote. simpl.
  rewrite Hl. simpl. rewrite Hk. unfold load in *. simpl.
  rewrite lookup_app_l_Some with (x := i) by done. simpl.
  destruct (Z.ltb_spec now (i_expires i)); [|lia]. rewrite Hv. simpl.
  rewrite lookup_app_l_Some with (x := old) by done. simpl.
  split; [reflexivity|]. unfold modify. simpl.
  rewrite list_lookup_alter. rewrite lookup_app_l_Some with (x := i) by done.
  rewrite decide_True by reflexivity. reflexivity.
Qed.

(** C2: on the empty cache [Incr(7, 5, ttl 100)] at time 0 returns 5 and
    stores an item with deadline 100; a second [Incr(7, 3, ttl 100)] at
    time 50 returns 8 and the deadline is still 100.  [IncrPromote(7, 3,
    ttl 100)] at time 50 returns 8 as well, but the deadline stays 100
    where the renewing variant is meant to move it to 150; the bucket's
    [incrNowPromote], run on the same state, does move it to 150. *)
Theorem IncrPromote_keeps_the_old_deadline :
  ('(r1, c1) ← Incr 0 7 5 100 (empty16 ConfigureInt64);
   d1 ← deadline_of 7 c1;
   '(r2, c2) ← Incr 50 7 3 100 c1;
   d2 ← deadline_of 7 c2;
   '(r3, c3) ← IncrPromote 50 7 3 100 c1;
   d3 ← deadline_of 7 c3;
   '(_, _, _, c4) ← bucket_incrNowPromote 7 7 3 50 100 false c1;
   d4 ← deadline_of 7 c4;
   Some (r1, d1, r2, d2, r3, d3, d4))
  = Some (5, 100, 8, 100, 8, 100, 150).
Proof. vm_compute. reflexivity. Qed.

(** ** The recency list and the promotion counter *)

Lemma load_modify_eq p f c i :
  load p c = Some i → load p (modify p f c) = Some (f i).
Proof.
  unfold load, modify. simpl. intros H. rewrite list_lookup_alter, H.
  rewrite decide_True by reflexivity. reflexivity.
Qed.

Lemma load_modify_ne p q f c : p ≠ q → load p (modify q f c) = load p c.
Proof.
  unfold load, modify. simpl. intros H. rewrite list_lookup_alter.
  rewrite decide_False by done. reflexivity.
Qed.

Lemma filter_ne_notin (p : ptr) (l : list ptr) :
  p ∉ l → filter (λ q, q ≠ p) l = l.
Proof.
  induction l as [|x l IH]; [reflexivity|].
  intros H. apply not_elem_of_cons in H as [H1 H2].
  rewrite filter_cons_True by done. rewrite IH by done. reflexivity.
Qed.



Lemma doPromote_linked_at c p i :
  load p c = Some i →
  i_promotions i ≠ -2 →
  i_element i = Some (mkElement (Some (c_listId c))) →
  wrap32 (i_promotions i + 1) = getsPerPromote (c_config c) →
  doPromote p c
  = Some (false,
          modify p (set_promotions 0)
            ((if decide (head (c_list c) = Some p) then id
              else with_list (p :: filter (λ q, q ≠ p) (c_list c)))
               (modify p (λ _, set_promotions (wrap32 (i_promotions i + 1)) i) c))).
Proof.
  intros L H2 He Hn. unfold doPromote. rewrite L. simpl.
  destruct (Z.eqb_spec (i_promotions i) (-2)); [done|]. rewrite He.
  unfold shouldPromote.
  destruct (Z.eqb_spec (wrap32 (i_promotions i + 1)) (getsPerPromote (c_config c)));
    [|done].
  unfold list_MoveToFront. erewrite load_modify_eq by done. simpl. rewrite He.
  simpl. rewrite decide_True by done.
  destruct (decide (head (c_list c) = Some p)); reflexivity.
Qed.



(** ** The sweep *)

Lemma load_list_Remove_ne p q c : p ≠ q → load p (list_Remove q c) = load p c.
Proof.
  intros H. unfold list_Remove. repeat case_match; try reflexivity.
  rewrite load_modify_ne by done. reflexivity.
Qed.

Lemma load_call_onDelete p q c : load p (call_onDelete q c) = load p c.
Proof. unfold call_onDelete. case_match; reflexivity. Qed.

Lemma list_call_onDelete q c : c_list (call_onDelete q c) = c_list c.
Proof. unfold call_onDelete. case_match; reflexivity. Qed.

Lemma config_call_onDelete q c : c_config (call_onDelete q c) = c_config c.
Proof. unfold call_onDelete. case_match; reflexivity. Qed.

Lemma config_list_Remove q c : c_config (list_Remove q c) = c_config c.
Proof. unfold list_Remove. repeat case_match; reflexivity. Qed.

Lemma buckets_call_onDelete q c : c_buckets (call_onDelete q c) = c_buckets c.
Proof. unfold call_onDelete. case_match; reflexivity. Qed.

Lemma buckets_list_Remove q c : c_buckets (list_Remove q c) = c_buckets c.
Proof. unfold list_Remove. repeat case_match; reflexivity. Qed.

Lemma bucketMask_call_onDelete q c :
  c_bucketMask (call_onDelete q c) = c_bucketMask c.
Proof. unfold call_onDelete. case_match; reflexivity. Qed.

Lemma bucketMask_list_Remove q c :
  c_bucketMask (list_Remove q c) = c_bucketMask c.
Proof. unfold list_Remove. repeat case_match; reflexivity. Qed.

Lemma listId_call_onDelete q c : c_listId (call_onDelete q c) = c_listId c.
Proof. unfold call_onDelete. case_match; reflexivity. Qed.

Lemma listId_list_Remove q c : c_listId (list_Remove q c) = c_listId c.
Proof. unfold list_Remove. repeat case_match; reflexivity. Qed.

Lemma calls_list_Remove q c :
  c_onDeleteCalls (list_Remove q c) = c_onDeleteCalls c.
Proof. unfold list_Remove. repeat case_match; reflexivity. Qed.

Lemma size_list_Remove q c : c_size (list_Remove q c) = c_size c.
Proof. unfold list_Remove. repeat case_match; reflexivity. Qed.

Lemma size_call_onDelete q c : c_size (call_onDelete q c) = c_size c.
Proof. unfold call_onDelete. case_match; reflexivity. Qed.

Lemma calls_call_onDelete q c :
  c_onDeleteCalls (call_onDelete q c)
  = c_onDeleteCalls c ++ if onDelete (c_config c) then [q] else [].
Proof.
  unfold call_onDelete. case_match; simpl; [reflexivity|].
  rewrite app_nil_r. reflexivity.
Qed.

(** What [Remove] does to the list: either nothing or it takes [q] out. *)
Lemma list_list_Remove q c :
  c_list (list_Remove q c) = c_list c
  ∨ c_list (list_Remove q c) = filter (λ x, x ≠ q) (c_list c).
Proof. unfold list_Remove. repeat case_match; auto. Qed.

Lemma list_list_Remove_owned q c j :
  load q c = Some j →
  i_element j = Some (mkElement (Some (c_listId c))) →
  c_list (list_Remove q c) = filter (λ x, x ≠ q) (c_list c)
  ∧ load q (list_Remove q c) = Some (set_element (Some (mkElement None)) j).
Proof.
  intros L E. unfold list_Remove. rewrite L, E. simpl.
  rewrite decide_True by done. split; [reflexivity|].
  exact (load_modify_eq q _ (with_list _ c) j L).
Qed.

Lemma load_list_Remove_eq q c j :
  load q c = Some j →
  load q (list_Remove q c) = Some j
  ∨ load q (list_Remove q c) = Some (set_element (Some (mkElement None)) j).
Proof.
  intros L. unfold list_Remove. rewrite L.
  destruct (i_element j) as [e|]; [|by left].
  destruct (decide (e_list e = Some (c_listId c))); [|by left].
  right. exact (load_modify_eq q _ (with_list _ c) j L).
Qed.

(** The state an eviction leaves, field by field. *)
Lemma gc_evict_inv q j c c' :
  load q c = Some j →
  gc_evict q j c = Some c' →
  ∃ bi b,
    bucket (i_key j) c = Some bi ∧ c_buckets c !! bi = Some b
    ∧ c_buckets c' = <[bi := delete (i_key j) b]> (c_buckets c)
    ∧ c_config c' = c_config c
    ∧ c_bucketMask c' = c_bucketMask c
    ∧ c_listId c' = c_listId c
    ∧ c_size c' = wrap64 (c_size c - i_size j)
    ∧ c_onDeleteCalls c'
      = c_onDeleteCalls c ++ (if onDelete (c_config c) then [q] else [])
    ∧ (c_list c' = c_list c ∨ c_list c' = filter (λ x, x ≠ q) (c_list c))
    ∧ (∀ p, p ≠ q → load p c' = load p c)
    ∧ (load q c' = Some (set_promotions (-2) j)
       ∨ load q c'
         = Some (set_promotions (-2) (set_element (Some (mkElement None)) j)))
    ∧ c_deletables c' = c_deletables c
    ∧ c_promotables c' = c_promotables c
    ∧ c_dropped c' = c_dropped c.
Proof.
  unfold gc_evict, bucket_delete. intros L H.
  destruct (bucket (i_key j) c) as [bi|] eqn:Hb; [|discriminate]. simpl in H.
  destruct (c_buckets c !! bi) as [b|] eqn:Hl; [|discriminate]. simpl in H.
  injection H as <-. exists bi, b. simpl.
  rewrite buckets_call_onDelete, buckets_list_Remove,
    config_call_onDelete, config_list_Remove,
    bucketMask_call_onDelete, bucketMask_list_Remove,
    listId_call_onDelete, listId_list_Remove,
    size_call_onDelete, size_list_Remove,
    calls_call_onDelete, calls_list_Remove, config_list_Remove,
    list_call_onDelete. simpl.
  repeat (split; [done|]). split.
  { apply (list_list_Remove q (with_size _ (with_buckets _ c))). }
  split.
  { intros p Hp. rewrite load_modify_ne by done.
    rewrite load_call_onDelete, load_list_Remove_ne by done. reflexivity. }
  split.
  { destruct (load_list_Remove_eq q
                (with_size (wrap64 (c_size c - i_size j))
                   (with_buckets (<[bi:=delete (i_key j) b]> (c_buckets c)) c))
                j L) as [E|E]; [left|right];
      (erewrite load_modify_eq; [reflexivity|]);
      rewrite load_call_onDelete; exact E. }
  unfold call_onDelete, list_Remove. repeat case_match; done.
Qed.

Lemma GetItem_after_evict q j c c' k :
  load q c = Some j →
  gc_evict q j c = Some c' → k ≠ i_key j → GetItem k c' = GetItem k c.
Proof.
  intros L H Hk.
  destruct (gc_evict_inv _ _ _ _ L H) as (bi & b & Hb & Hl & EB & _ & EM & _).
  unfold GetItem, bucket_get.
  assert (Hbk : bucket k c' = bucket k c)
    by (apply bucket_ext; [done|rewrite EB; apply length_insert]).
  rewrite Hbk.
  destruct (bucket k c) as [bk|]; [simpl|reflexivity].
  rewrite EB. destruct (decide (bk = bi)) as [->|Hne].
  - rewrite list_lookup_insert_eq by (eapply lookup_lt_Some; done).
    rewrite Hl. simpl. rewrite lookup_delete_ne by done. reflexivity.
  - rewrite list_lookup_insert_ne by done. reflexivity.
Qed.

(** A sweep with tracking on leaves a pinned item alone. *)
Lemma gc_loop_pinned p i :
  i_refCount i ≠ 0 →
  ∀ n cur d c d' c',
    tracking (c_config c) = true →
    load p c = Some i →
    gc_loop n cur d c = Some (d', c') →
    load p c' = Some i
    ∧ (p ∈ c_list c → p ∈ c_list c')
    ∧ (p ∉ c_onDeleteCalls c → p ∉ c_onDeleteCalls c')
    ∧ ((∀ q j, q ∈ c_list c → load q c = Some j → i_key j = i_key i →
               i_refCount j ≠ 0) →
       GetItem (i_key i) c' = GetItem (i_key i) c).
Proof.
  intros Hr. induction n as [|n IH]; intros cur d c d' c' Ht L H.
  { simpl in H. injection H as <- <-. done. }
  simpl in H. destruct cur as [idx|]; [|injection H as <- <-; done].
  destruct (c_list c !! idx) as [q|] eqn:Hq; [|discriminate]. simpl in H.
  destruct (load q c) as [j|] eqn:Lq; [|discriminate]. simpl in H.
  rewrite Ht in H. simpl in H.
  destruct (Z.eqb_spec (i_refCount j) 0) as [Hz|Hz]; [|by eapply IH].
  destruct (gc_evict q j c) as [c1|] eqn:He; [|discriminate]. simpl in H.
  assert (Hne : p ≠ q) by (intros ->; congruence).
  destruct (gc_evict_inv _ _ _ _ Lq He)
    as (bi & b & Hb & Hl & EB & EC & EM & EI & ES & EO & EL & EF & EQ & _).
  assert (L1 : load p c1 = Some i) by (rewrite EF; done).
  assert (T1 : tracking (c_config c1) = true) by (rewrite EC; done).
  destruct (IH _ _ _ _ _ T1 L1 H) as (R1 & R2 & R3 & R4).
  split; [exact R1|]. split; [|split].
  - intros Hin. apply R2. destruct EL as [->| ->]; [done|].
    apply list_elem_of_filter. done.
  - intros Hn. apply R3. rewrite EO. intros [?|Hx]%elem_of_app; [done|].
    destruct (onDelete (c_config c)).
    + apply list_elem_of_singleton in Hx. done.
    + by apply elem_of_nil in Hx.
  - intros Hk.
    assert (Hkq : i_key i ≠ i_key j).
    { intros E. apply (Hk q j); [by eapply list_elem_of_lookup_2|done|done|done]. }
    rewrite R4; [eapply GetItem_after_evict; done|].
    intros x jx Hx Lx Ex.
    assert (Hxin : x ∈ c_list c).
    { destruct EL as [E|E]; rewrite E in Hx; [done|].
      apply list_elem_of_filter in Hx. tauto. }
    destruct (decide (x = q)) as [->|Hxq].
    + exfalso. apply Hkq. rewrite <- Ex.
      destruct EQ as [E|E]; rewrite E in Lx; injection Lx as <-; reflexivity.
    + rewrite EF in Lx by done. eapply Hk; done.
Qed.

Lemma filter_ne_delete (l : list nat) idx q :
  NoDup l → l !! idx = Some q → filter (λ x, x ≠ q) l = delete idx l.
Proof.
  revert idx. induction l as [|x l IH]; intros idx ND H; [done|].
  apply NoDup_cons in ND as [Hx ND]. destruct idx as [|idx]; simpl in *.
  - injection H as ->. rewrite filter_cons_False by (intros ?; done).
    apply filter_ne_notin. done.
  - assert (x ≠ q).
    { intros ->. apply Hx. eapply list_elem_of_lookup_2. done. }
    rewrite filter_cons_True by done. f_equal. by apply IH.
Qed.

Lemma GetItem_evicted_key q j c c' :
  load q c = Some j →
  gc_evict q j c = Some c' → GetItem (i_key j) c' = Some None.
Proof.
  intros L H.
  destruct (gc_evict_inv _ _ _ _ L H) as (bi & b & Hb & Hl & EB & _ & EM & _).
  unfold GetItem, bucket_get.
  assert (Hbk : bucket (i_key j) c' = bucket (i_key j) c)
    by (apply bucket_ext; [done|rewrite EB; apply length_insert]).
  rewrite Hbk, Hb. simpl. rewrite EB.
  rewrite list_lookup_insert_eq by (eapply lookup_lt_Some; done).
  simpl. rewrite lookup_delete_eq. reflexivity.
Qed.

(** The eviction of the item at position [idx] of a well-formed list. *)
Lemma gc_evict_ok c idx q j :
  list_ok c →
  c_list c !! idx = Some q →
  load q c = Some j →
  ∃ c',
    gc_evict q j c = Some c'
    ∧ c_list c' = delete idx (c_list c)
    ∧ list_ok c'
    ∧ load q c'
      = Some (set_promotions (-2) (set_element (Some (mkElement None)) j)).
Proof.
  intros [ND OK] Hq L.
  assert (Hin : q ∈ c_list c) by (eapply list_elem_of_lookup_2; done).
  destruct (OK q Hin) as (j' & L' & He & [bi Hb]).
  rewrite L in L'. injection L' as <-.
  destruct (bucket_lookup _ _ _ Hb) as [b Hl].
  assert (Hsome : ∃ c', gc_evict q j c = Some c').
  { unfold gc_evict, bucket_delete. rewrite Hb. simpl. rewrite Hl. simpl. eauto. }
  destruct Hsome as [c' H]. exists c'. split; [exact H|].
  destruct (gc_evict_inv _ _ _ _ L H)
    as (bi' & b' & Hb' & Hl' & EB & EC & EM & EI & ES & EO & EL & EF & EQ & _).
  assert (Hlist : c_list c' = filter (λ x, x ≠ q) (c_list c)
                  ∧ load q c' = Some (set_promotions (-2) (set_element (Some (mkElement None)) j))).
  { unfold gc_evict, bucket_delete in H. rewrite Hb in H. simpl in H.
    rewrite Hl in H. simpl in H. injection H as <-.
    pose proof (list_list_Remove_owned q
                  (with_size (wrap64 (c_size c - i_size j))
                     (with_buckets (<[bi:=delete (i_key j) b]> (c_buckets c)) c))
                  j L He) as [E1 E2].
    split.
    - simpl. rewrite list_call_onDelete. exact E1.
    - erewrite load_modify_eq; [reflexivity|].
      rewrite load_call_onDelete. exact E2. }
  destruct Hlist as [Hlist Hload].
  split; [rewrite Hlist; by apply filter_ne_delete|].
  split; [|exact Hload].
  split; [rewrite Hlist; by apply NoDup_filter|].
  intros x Hx. rewrite Hlist in Hx. apply list_elem_of_filter in Hx as [Hxq Hx].
  destruct (OK x Hx) as (jx & Lx & Hex & Hbx).
  exists jx. rewrite EF by done. rewrite EI. split; [done|]. split; [done|].
  rewrite (bucket_ext (i_key jx) c c'); [done|done|].
  rewrite EB. apply length_insert.
Qed.

(** What a sweep never undoes. *)
Lemma gc_loop_mono n :
  ∀ cur d c d' c',
    gc_loop n cur d c = Some (d', c') →
    c_config c' = c_config c
    ∧ (∀ x, x ∈ c_list c' → x ∈ c_list c)
    ∧ (∀ p, p ∉ c_list c → load p c' = load p c)
    ∧ (∀ k, GetItem k c = Some None → GetItem k c' = Some None)
    ∧ (∀ p, p ∈ c_onDeleteCalls c → p ∈ c_onDeleteCalls c').
Proof.
  induction n as [|n IH]; intros cur d c d' c' H.
  { simpl in H. injection H as <- <-. done. }
  simpl in H. destruct cur as [idx|]; [|injection H as <- <-; done].
  destruct (c_list c !! idx) as [q|] eqn:Hq; [|discriminate]. simpl in H.
  destruct (load q c) as [j|] eqn:Lq; [|discriminate]. simpl in H.
  destruct (negb (tracking (c_config c)) || (i_refCount j =? 0));
    [|by eapply IH].
  destruct (gc_evict q j c) as [c1|] eqn:He; [|discriminate]. simpl in H.
  destruct (gc_evict_inv _ _ _ _ Lq He)
    as (bi & b & Hb & Hl & EB & EC & EM & EI & ES & EO & EL & EF & EQ & _).
  destruct (IH _ _ _ _ _ H) as (R0 & R1 & R2 & R3 & R4).
  assert (Hsub : ∀ x, x ∈ c_list c1 → x ∈ c_list c).
  { intros x Hx. destruct EL as [E|E]; rewrite E in Hx; [done|].
    apply list_elem_of_filter in Hx. tauto. }
  split; [congruence|]. split; [auto|]. split; [|split].
  - intros p Hp. rewrite R2 by auto. apply EF. intros ->. apply Hp.
    eapply list_elem_of_lookup_2. done.
  - intros k Hk. apply R3. destruct (decide (k = i_key j)) as [->|Hne].
    + eapply GetItem_evicted_key; done.
    + erewrite GetItem_after_evict; done.
  - intros p Hp. apply R4. rewrite EO. apply elem_of_app. by left.
Qed.

Lemma gc_loop_total n :
  ∀ cur d c,
    list_ok c →
    (∀ idx, cur = Some idx → (idx < length (c_list c))%nat) →
    ∃ d' c', gc_loop n cur d c = Some (d', c').
Proof.
  induction n as [|n IH]; intros cur d c OK Hcur; [simpl; eauto|].
  simpl. destruct cur as [idx|]; [|eauto].
  specialize (Hcur idx eq_refl).
  destruct (lookup_lt_is_Some_2 _ _ Hcur) as [q Hq]. rewrite Hq. simpl.
  destruct (proj2 OK q) as (j & L & _); [by eapply list_elem_of_lookup_2|].
  rewrite L. simpl.
  destruct (negb (tracking (c_config c)) || (i_refCount j =? 0)).
  - destruct (gc_evict_ok c idx q j OK Hq L) as (c1 & He & El & OK1 & _).
    rewrite He. simpl. apply IH; [done|].
    intros i' Hi'. rewrite El, length_delete by eauto.
    destruct idx; simpl in Hi'; [done|]. injection Hi' as <-. lia.
  - apply IH; [done|]. intros i' Hi'.
    destruct idx; simpl in Hi'; [done|]. injection Hi' as <-. lia.
Qed.

(** A sweep evicts an evictable item that lies between the cursor and the
    end of its budget. *)
Lemma gc_loop_reaches p i idx0 :
  ∀ n idx d c,
    list_ok c →
    c_list c !! idx0 = Some p →
    load p c = Some i →
    (negb (tracking (c_config c)) || (i_refCount i =? 0)) = true →
    (idx0 ≤ idx < length (c_list c))%nat →
    (idx - idx0 < n)%nat →
    ∃ d' c',
      gc_loop n (Some idx) d c = Some (d', c')
      ∧ (p ∉ c_list c')
      ∧ load p c'
        = Some (set_promotions (-2) (set_element (Some (mkElement None)) i))
      ∧ GetItem (i_key i) c' = Some None
      ∧ (onDelete (c_config c) = true → p ∈ c_onDeleteCalls c').
Proof.
  induction n as [|n IH]; intros idx d c OK Hp L Hev Hidx Hn; [lia|].
  destruct (decide (idx = idx0)) as [->|Hne].
  - simpl. rewrite Hp. simpl. rewrite L. simpl. rewrite Hev.
    destruct (gc_evict_ok c idx0 p i OK Hp L) as (c1 & He & El & OK1 & L1).
    rewrite He. simpl.
    destruct (gc_loop_total n (elem_Prev idx0) (wrap64 (d + 1)) c1 OK1)
      as (d' & c' & H).
    { intros i' Hi'. rewrite El, length_delete by eauto.
      destruct idx0; simpl in Hi'; [done|]. injection Hi' as <-. lia. }
    exists d', c'. split; [exact H|].
    destruct (gc_loop_mono _ _ _ _ _ _ H) as (R0 & R1 & R2 & R3 & R4).
    destruct (gc_evict_inv _ _ _ _ L He)
      as (bi & b & Hb & Hl & EB & EC & EM & EI & ES & EO & EL & EF & EQ & _).
    assert (Hnot : p ∉ c_list c1).
    { rewrite El. rewrite <- (filter_ne_delete _ _ p (proj1 OK) Hp).
      rewrite list_elem_of_filter. tauto. }
    split; [auto|]. split; [rewrite R2; done|]. split.
    + apply R3. eapply GetItem_evicted_key; done.
    + intros Hod. apply R4. rewrite EO, Hod. apply elem_of_app. right.
      apply list_elem_of_here.
  - assert (Hlt : (idx < length (c_list c))%nat) by lia.
    destruct (lookup_lt_is_Some_2 _ _ Hlt) as [q Hq].
    destruct (proj2 OK q) as (j & Lq & _); [by eapply list_elem_of_lookup_2|].
    destruct idx as [|idx]; [lia|].
    simpl. rewrite Hq. simpl. rewrite Lq. simpl.
    destruct (negb (tracking (c_config c)) || (i_refCount j =? 0)).
    + destruct (gc_evict_ok c (S idx) q j OK Hq Lq) as (c1 & He & El & OK1 & L1).
      rewrite He. simpl.
      destruct (gc_evict_inv _ _ _ _ Lq He)
        as (bi & b & Hb & Hl & EB & EC & EM & EI & ES & EO & EL & EF & EQ & _).
      assert (Hpq : p ≠ q).
      { intros ->. apply Hne. eapply NoDup_lookup; [exact (proj1 OK)|done|done]. }
      assert (H1 : c_list c1 !! idx0 = Some p).
      { rewrite El. rewrite list_lookup_delete_lt by lia. done. }
      assert (H2 : load p c1 = Some i) by (rewrite EF; done).
      assert (H3 : (negb (tracking (c_config c1)) || (i_refCount i =? 0)) = true)
        by (rewrite EC; done).
      assert (H4 : (idx0 ≤ idx < length (c_list c1))%nat).
      { rewrite El, length_delete by eauto. lia. }
      destruct (IH idx (wrap64 (d + 1)) c1 OK1 H1 H2 H3 H4) as (d' & c' & H & R);
        [lia|].
      exists d', c'. rewrite EC in R. done.
    + destruct (IH idx d c OK Hp L Hev) as (d' & c' & H & R); [lia|lia|].
      exists d', c'. done.
Qed.

Lemma list_ok_modify p f c :
  (∀ j, i_element (f j) = i_element j ∧ i_key (f j) = i_key j) →
  list_ok c → list_ok (modify p f c).
Proof.
  intros Hf [ND OK]. split; [exact ND|]. intros q Hq.
  destruct (OK q Hq) as (j & L & He & Hb).
  destruct (decide (q = p)) as [->|Hne].
  - exists (f j). rewrite (load_modify_eq p f c j L).
    destruct (Hf j) as [-> ->]. done.
  - exists j. rewrite load_modify_ne by done. done.
Qed.

(** C5: with tracking on, a sweep leaves alone every item whose reference
    count is above zero: the item is stored as before (not marked removed,
    still pointing to its element), it keeps its place in the recency list,
    the [onDelete] callback is not called on it, and the shard keeps its
    key unless an unpinned linked item under the same key is evicted.  A
    sweep of a well-formed list always returns.  Once such an item, held
    once, is released, a sweep whose budget reaches its position evicts it:
    it is unlinked, marked removed, taken out of its shard and passed to
    the callback. *)
Theorem tracked_items_survive_the_sweep :
  (∀ (c c' : CacheInt64) (p : ptr) (i : ItemInt64) (n : Z),
     tracking (c_config c) = true →
     load p c = Some i →
     0 < i_refCount i →
     gc c = Some (n, c') →
     load p c' = Some i
     ∧ (p ∈ c_list c → p ∈ c_list c')
     ∧ (p ∉ c_onDeleteCalls c → p ∉ c_onDeleteCalls c')
     ∧ ((∀ q j, q ∈ c_list c → load q c = Some j → i_key j = i_key i →
                i_refCount j ≠ 0) →
        GetItem (i_key i) c' = GetItem (i_key i) c))
  ∧ (∀ c : CacheInt64, list_ok c → ∃ n c', gc c = Some (n, c'))
  ∧ (∀ (c : CacheInt64) (p : ptr) (i : ItemInt64) (idx : nat),
       tracking (c_config c) = true →
       list_ok c →
       c_list c !! idx = Some p →
       load p c = Some i →
       i_refCount i = 1 →
       (length (c_list c) - idx ≤ Z.to_nat (itemsToPrune (c_config c)))%nat →
       ∃ n c',
         gc (ReleaseItem p c) = Some (n, c')
         ∧ (p ∉ c_list c')
         ∧ i_promotions <$> load p c' = Some (-2)
         ∧ GetItem (i_key i) c' = Some None
         ∧ (onDelete (c_config c) = true → p ∈ c_onDeleteCalls c')).
Proof.
  split; [|split].
  - intros c c' p i n Ht L Hr H. unfold gc in H.
    eapply (gc_loop_pinned p i); [lia|exact Ht|exact L|exact H].
  - intros c OK. unfold gc. apply gc_loop_total; [done|].
    unfold list_Back. intros idx. destruct (length (c_list c)); [done|].
    intros [= <-]. lia.
  - intros c p i idx Ht OK Hp L Hr Hreach.
    set (c1 := ReleaseItem p c).
    assert (OK1 : list_ok c1) by (apply list_ok_modify; [done|exact OK]).
    assert (L1 : load p c1 = Some (Release i)) by (by apply load_modify_eq).
    pose proof (lookup_lt_Some _ _ _ Hp) as Hlt.
    destruct (gc_loop_reaches p (Release i) idx
                (Z.to_nat (itemsToPrune (c_config c1)))
                (length (c_list c) - 1) 0 c1 OK1 Hp L1)
      as (d' & c' & H & R1 & R2 & R3 & R4).
    + unfold Release. simpl. rewrite Hr. apply orb_true_r.
    + simpl. lia.
    + simpl. lia.
    + exists d', c'. split.
      * unfold gc, list_Back. simpl.
        destruct (length (c_list c)) as [|m] eqn:E; [lia|].
        replace (S m - 1)%nat with m in H by lia. exact H.
      * rewrite R2. done.
Qed.

Lemma tracked_items_survive_the_sweep_witness :
  (∃ d c', gc pinned_pair = Some (d, c')
           ∧ load 0%nat c' = load 0%nat pinned_pair
           ∧ 0%nat ∈ c_list c')
  ∧ (∃ d c', gc (ReleaseItem 0%nat pinned_pair) = Some (d, c')
             ∧ 0%nat ∉ c_list c').
Proof.
  assert (OK : list_ok pinned_pair).
  { split.
    - apply NoDup_cons. split; [|apply NoDup_singleton].
      intros H%list_elem_of_singleton. discriminate.
    - intros q Hq. apply elem_of_cons in Hq as [->|Hq].
      + eexists. split; [reflexivity|]. split; [reflexivity|]. eexists. reflexivity.
      + apply list_elem_of_singleton in Hq as ->.
        eexists. split; [reflexivity|]. split; [reflexivity|]. eexists. reflexivity. }
  split.
  - destruct (proj1 (proj2 tracked_items_survive_the_sweep) pinned_pair OK)
      as (d & c' & H).
    exists d, c'. split; [exact H|].
    destruct (proj1 tracked_items_survive_the_sweep pinned_pair c' 0%nat
                (mkItem 1 0 1 100 1 (VOther 0) (Some (mkElement (Some 0%nat))))
                d eq_refl eq_refl eq_refl H) as (R1 & R2 & _).
    split; [exact R1|]. apply R2. apply list_elem_of_further, list_elem_of_here.
  - destruct (proj2 (proj2 tracked_items_survive_the_sweep) pinned_pair 0%nat
                (mkItem 1 0 1 100 1 (VOther 0) (Some (mkElement (Some 0%nat))))
                1%nat eq_refl OK eq_refl eq_refl eq_refl)
      as (d & c' & H & R & _).
    + simpl. lia.
    + exists d, c'. split; [exact H|exact R].
Defined.

(** ** The capacity bound *)

(** *** Weights *)

Lemma weight_ext c c' l :
  (∀ p, p ∈ l → item_size c' p = item_size c p) → weight c' l = weight c l.
Proof.
  induction l as [|x l IH]; intros H; [reflexivity|]. simpl.
  rewrite H by apply list_elem_of_here. rewrite IH; [reflexivity|].
  intros p Hp. apply H. by apply list_elem_of_further.
Qed.

Lemma weight_app c l1 l2 : weight c (l1 ++ l2) = weight c l1 + weight c l2.
Proof. induction l1 as [|x l IH]; simpl; lia. Qed.

Lemma weight_filter c l q :
  NoDup l → q ∈ l →
  weight c (filter (λ x, x ≠ q) l) = weight c l - item_size c q.
Proof.
  induction l as [|x l IH]; intros ND Hq; [by apply elem_of_nil in Hq|].
  apply NoDup_cons in ND as [Hx ND].
  destruct (decide (x = q)) as [->|Hne].
  - rewrite filter_cons_False by (intros ?; done).
    rewrite filter_ne_notin by done. simpl. lia.
  - rewrite filter_cons_True by done. simpl.
    apply elem_of_cons in Hq as [->|Hq]; [done|]. rewrite IH by done. lia.
Qed.

Lemma weight_ge_length c l :
  (∀ p, p ∈ l → 1 ≤ item_size c p) → Z.of_nat (length l) ≤ weight c l.
Proof.
  induction l as [|x l IH]; intros H; [simpl; lia|].
  simpl weight. rewrite length_cons.
  pose proof (H x (list_elem_of_here _ _)).
  assert (Z.of_nat (length l) ≤ weight c l).
  { apply IH. intros p Hp. apply H. by apply list_elem_of_further. }
  lia.
Qed.

Lemma weight_Permutation c l l' : l ≡ₚ l' → weight c l = weight c l'.
Proof. induction 1; simpl; lia. Qed.

Lemma move_to_front_Permutation (l : list nat) p :
  NoDup l → p ∈ l → p :: filter (λ x, x ≠ p) l ≡ₚ l.
Proof.
  induction l as [|x l IH]; intros ND Hp; [by apply elem_of_nil in Hp|].
  apply NoDup_cons in ND as [Hx ND].
  destruct (decide (x = p)) as [->|Hne].
  - rewrite filter_cons_False by (intros ?; done).
    rewrite filter_ne_notin by done. reflexivity.
  - rewrite filter_cons_True by done.
    apply elem_of_cons in Hp as [->|Hp]; [done|].
    rewrite Permutation_swap. constructor. by apply IH.
Qed.

Lemma item_size_load c c' p :
  load p c' = load p c → item_size c' p = item_size c p.
Proof. unfold item_size. intros ->. reflexivity. Qed.

Lemma item_size_Some c p i : load p c = Some i → item_size c p = i_size i.
Proof. unfold item_size. intros ->. reflexivity. Qed.

(** *** The shard index is always in range *)

Lemma land_le_r a b : 0 ≤ b → Z.land a b ≤ b.
Proof.
  intros Hb.
  assert (D : Z.land (Z.ldiff b a) (Z.land b a) = 0).
  { apply Z.bits_inj'. intros n Hn.
    rewrite Z.land_spec, Z.ldiff_spec, Z.land_spec, Z.bits_0.
    destruct (Z.testbit b n), (Z.testbit a n); reflexivity. }
  pose proof (Z.lor_ldiff_and b a) as E.
  rewrite <- Z.lxor_lor, <- Z.add_nocarry_lxor in E by exact D.
  assert (0 ≤ Z.ldiff b a) by (apply Z.ldiff_nonneg; lia).
  rewrite (Z.land_comm a b). lia.
Qed.

Lemma bucket_in_range c key :
  0 ≤ c_bucketMask c < Z.of_nat (length (c_buckets c)) →
  ∃ bi, bucket key c = Some bi.
Proof.
  intros H. unfold bucket.
  assert (0 ≤ Z.land key (c_bucketMask c)) by (apply Z.land_nonneg; lia).
  assert (Z.land key (c_bucketMask c) ≤ c_bucketMask c).
  { apply land_le_r. lia. }
  destruct (Z.leb_spec 0 (Z.land key (c_bucketMask c))); [|lia].
  destruct (Z.ltb_spec (Z.land key (c_bucketMask c)) (Z.of_nat (length (c_buckets c))));
    [|lia].
  simpl. eauto.
Qed.

(** *** Steps that keep the shape *)

(** A state that differs in its channels only. *)
Lemma shape_frame cfg c c' :
  shape cfg c →
  c_config c' = c_config c →
  c_bucketMask c' = c_bucketMask c →
  c_buckets c' = c_buckets c →
  c_listId c' = c_listId c →
  c_list c' = c_list c →
  c_items c' = c_items c →
  c_size c' = c_size c →
  NoDup (c_deletables c') →
  (∀ p, p ∈ c_deletables c' → p ∈ c_deletables c) →
  (∀ p, p ∈ c_promotables c' → is_Some (load p c)) →
  shape cfg c'.
Proof.
  intros [S1 S2 S3 S4 S5 S6 S7 S8] E1 E2 E3 E4 E5 E6 E7 ND Hd Hp.
  assert (EL : ∀ p, load p c' = load p c) by (intros p; unfold load; by rewrite E6).
  assert (EU : ∀ p, unmapped c p → unmapped c' p).
  { intros p U bi b k. rewrite E3. apply U. }
  split.
  - congruence.
  - rewrite E2, E3. exact S2.
  - intros bi b k p. rewrite E3, EL.
    rewrite (bucket_ext k c c') by (rewrite ?E3; done). apply S3.
  - intros p i. rewrite EL. intros L. destruct (S4 p i L) as (R1 & R2 & R3).
    split; [done|]. split; [done|]. unfold element_ok in *.
    rewrite E4, E5. destruct (i_element i); [|done].
    destruct R3 as [R3|(R3 & R4 & R5 & R6)]; [by left|right].
    split; [done|]. split; [done|]. split; [|by apply EU].
    intros Hin. apply R5. by apply Hd.
  - rewrite E5. destruct S5 as [S5 S5']. split; [done|].
    intros p Hin. rewrite EL. by apply S5'.
  - split; [done|]. intros p Hin. rewrite EL.
    destruct (proj2 S6 p (Hd p Hin)) as [R1 R2]. split; [done|by apply EU].
  - intros p Hin. rewrite EL. by apply Hp.
  - rewrite E7, S8. unfold list_weight. rewrite E5. apply weight_ext.
    intros p _. by apply item_size_load.
Qed.

Lemma shape_promote cfg c p :
  shape cfg c → is_Some (load p c) → shape cfg (promote p c).
Proof.
  intros S L. unfold promote. case_match; [|done].
  apply (shape_frame cfg c _ S); simpl; try reflexivity.
  - apply (shape_deletables cfg c S).
  - done.
  - intros q [Hq|Hq]%elem_of_app; [by apply (shape_promotables cfg c S)|].
    apply list_elem_of_singleton in Hq as ->. done.
Qed.

(** An update of the item at [p] that keeps its key, reference count,
    weight and element. *)
Lemma shape_modify cfg c p f :
  shape cfg c →
  (∀ i, load p c = Some i →
        i_key (f i) = i_key i ∧ i_refCount (f i) = i_refCount i
        ∧ i_size (f i) = i_size i ∧ i_element (f i) = i_element i) →
  shape cfg (modify p f c).
Proof.
  intros [S1 S2 S3 S4 S5 S6 S7 S8] Hf.
  assert (EL : ∀ q, is_Some (load q c) → is_Some (load q (modify p f c))).
  { intros q [i L]. destruct (decide (q = p)) as [->|Hne].
    - rewrite (load_modify_eq p f c i L). eauto.
    - rewrite load_modify_ne by done. eauto. }
  assert (EI : ∀ q i', load q (modify p f c) = Some i' →
             ∃ i, load q c = Some i ∧ i_key i' = i_key i
                  ∧ i_refCount i' = i_refCount i ∧ i_size i' = i_size i
                  ∧ i_element i' = i_element i).
  { intros q i' L'. destruct (decide (q = p)) as [->|Hne].
    - destruct (load p c) as [i|] eqn:L.
      + rewrite (load_modify_eq p f c i L) in L'. injection L' as <-.
        exists i. split; [done|]. by apply Hf.
      + unfold load, modify in *. simpl in L'.
        rewrite list_lookup_alter, L in L'. by case_decide.
    - rewrite load_modify_ne in L' by done. eauto 10. }
  split; simpl; try done.
  - intros bi b k q Hb Hk. destruct (S3 bi b k q Hb Hk) as (R1 & i & L & R2).
    split; [exact R1|]. destruct (decide (q = p)) as [->|Hne].
    + exists (f i). rewrite (load_modify_eq p f c i L).
      split; [done|]. destruct (Hf i L) as (-> & _). done.
    + exists i. rewrite load_modify_ne by done. done.
  - intros q i' L'. destruct (EI q i' L') as (i & L & E1 & E2 & E3 & E4).
    destruct (S4 q i L) as (R1 & R2 & R3).
    split; [congruence|]. split; [lia|].
    unfold element_ok in *. rewrite E4. exact R3.
  - destruct S5 as [S5 S5']. split; [done|]. intros q Hq. apply EL. by apply S5'.
  - destruct S6 as [S6 S6']. split; [done|]. intros q Hq.
    destruct (S6' q Hq) as [R1 R2]. split; [by apply EL|done].
  - intros q Hq. apply EL. by apply S7.
  - rewrite S8. unfold list_weight. simpl. symmetry. apply weight_ext.
    intros q Hq. unfold item_size.
    destruct (decide (q = p)) as [->|Hne].
    + destruct (proj2 S5 p Hq) as [i L].
      rewrite (load_modify_eq p f c i L), L. simpl.
      destruct (Hf i L) as (_ & _ & -> & _). done.
    + rewrite load_modify_ne by done. done.
Qed.

(** A reordering of the recency list. *)
Lemma shape_permute cfg c l' :
  shape cfg c → l' ≡ₚ c_list c → shape cfg (with_list l' c).
Proof.
  intros [S1 S2 S3 S4 S5 S6 S7 S8] P.
  assert (EM : ∀ p, p ∈ l' ↔ p ∈ c_list c) by (intros p; by rewrite P).
  split; simpl; try done.
  - intros p i L. destruct (S4 p i L) as (R1 & R2 & R3).
    split; [done|]. split; [done|]. unfold element_ok in *. simpl.
    destruct (i_element i); rewrite EM; done.
  - destruct S5 as [S5 S5']. split; [by rewrite P|].
    intros p Hp. apply S5'. by apply EM.
  - rewrite S8. unfold list_weight. simpl.
    rewrite (weight_Permutation _ _ _ P).
    apply weight_ext. intros p _. done.
Qed.

(** The item at [p] leaves the recency list: it is taken out of the list,
    its element is marked removed, its weight is taken off the size; the
    shards may lose entries, and lose every entry that points to [p]. *)
Lemma shape_unlink cfg c c' p i :
  shape cfg c →
  load p c = Some i →
  i_element i = Some (mkElement (Some (c_listId c))) →
  c_config c' = c_config c →
  c_bucketMask c' = c_bucketMask c →
  c_listId c' = c_listId c →
  length (c_buckets c') = length (c_buckets c) →
  (∀ bi b' k x, c_buckets c' !! bi = Some b' → b' !! k = Some x →
                ∃ b, c_buckets c !! bi = Some b ∧ b !! k = Some x) →
  unmapped c' p →
  c_list c' = filter (λ x, x ≠ p) (c_list c) →
  (∀ q, q ≠ p → load q c' = load q c) →
  (∃ i', load p c' = Some i' ∧ i_key i' = i_key i
         ∧ i_refCount i' = i_refCount i ∧ i_size i' = i_size i
         ∧ i_element i' = Some (mkElement None)) →
  c_size c' = c_size c - i_size i →
  NoDup (c_deletables c') →
  (∀ q, q ∈ c_deletables c' → q ∈ c_deletables c) →
  p ∉ c_deletables c' →
  (∀ q, q ∈ c_promotables c' → q ∈ c_promotables c) →
  shape cfg c'.
Proof.
  intros [S1 S2 S3 S4 S5 S6 S7 S8] L He E1 E2 E3 E4 Hsub Hun EL EF
    (i' & L' & K1 & K2 & K3 & K4) ES ND Hd Hpd Hp.
  assert (Hin : p ∈ c_list c).
  { destruct (S4 p i L) as (_ & _ & R). unfold element_ok in R. rewrite He in R.
    destruct R as [[_ R]|[R _]]; [done|discriminate]. }
  assert (ELS : ∀ q, is_Some (load q c) → is_Some (load q c')).
  { intros q Hq. destruct (decide (q = p)) as [->|Hne]; [eauto|].
    rewrite EF by done. done. }
  assert (EU : ∀ q, unmapped c q → unmapped c' q).
  { intros q U bi b' k Hb Hk. destruct (Hsub bi b' k q Hb Hk) as (b & Hb' & Hk').
    by eapply U. }
  split.
  - congruence.
  - rewrite E2, E4. exact S2.
  - intros bi b' k x Hb Hk. destruct (Hsub bi b' k x Hb Hk) as (b & Hb' & Hk').
    destruct (S3 bi b k x Hb' Hk') as (R1 & ix & Lx & R2).
    rewrite (bucket_ext k c c') by done. split; [done|].
    assert (x ≠ p) by (intros ->; by eapply Hun).
    exists ix. rewrite EF by done. done.
  - intros q iq Lq. destruct (decide (q = p)) as [->|Hne].
    + rewrite L' in Lq. injection Lq as <-.
      destruct (S4 p i L) as (R1 & R2 & _).
      split; [congruence|]. split; [lia|]. unfold element_ok. rewrite K4.
      right. split; [done|]. split; [|done]. rewrite EL.
      rewrite list_elem_of_filter. tauto.
    + rewrite EF in Lq by done. destruct (S4 q iq Lq) as (R1 & R2 & R3).
      split; [done|]. split; [done|]. unfold element_ok in *.
      rewrite EL, E3. destruct (i_element iq).
      * destruct R3 as [[R3 R4]|(R3 & R4 & R5 & R6)]; [left|right].
        -- split; [done|]. apply list_elem_of_filter. done.
        -- split; [done|]. split; [rewrite list_elem_of_filter; tauto|].
           split; [|by apply EU]. intros Hx. apply R5. by apply Hd.
      * rewrite list_elem_of_filter. tauto.
  - destruct S5 as [S5 S5']. rewrite EL. split; [by apply NoDup_filter|].
    intros q Hq. apply list_elem_of_filter in Hq as [Hq1 Hq2].
    apply ELS. by apply S5'.
  - split; [done|]. intros q Hq. destruct (proj2 S6 q (Hd q Hq)) as [R1 R2].
    split; [by apply ELS|by apply EU].
  - intros q Hq. apply ELS. apply S7. by apply Hp.
  - rewrite ES, S8. unfold list_weight. rewrite EL.
    rewrite (weight_ext c c').
    + rewrite weight_filter by (apply S5 || done).
      rewrite (item_size_Some c p i L). done.
    + intros q Hq. apply list_elem_of_filter in Hq as [Hq1 Hq2].
      apply item_size_load. by apply EF.
Qed.

(** The item at [p], which has no element yet, enters the recency list at
    the front. *)
Lemma shape_link cfg c p i :
  shape cfg c →
  load p c = Some i →
  i_element i = None →
  shape cfg
    (list_PushFront p (with_size (c_size c + i_size i) c)).
Proof.
  intros [S1 S2 S3 S4 S5 S6 S7 S8] L He.
  assert (Hnot : p ∉ c_list c).
  { destruct (S4 p i L) as (_ & _ & R). unfold element_ok in R.
    by rewrite He in R. }
  set (f := set_element (Some (mkElement (Some (c_listId c))))).
  set (c' := list_PushFront p (with_size (c_size c + i_size i) c)).
  assert (L' : load p c' = Some (f i)).
  { exact (load_modify_eq p f (with_list _ (with_size _ c)) i L). }
  assert (EF : ∀ q, q ≠ p → load q c' = load q c).
  { intros q Hq. unfold c', list_PushFront. by rewrite load_modify_ne. }
  assert (ELS : ∀ q, is_Some (load q c) → is_Some (load q c')).
  { intros q Hq. destruct (decide (q = p)) as [->|Hne]; [eauto|].
    rewrite EF by done. done. }
  split.
  - done.
  - exact S2.
  - intros bi b k x Hb Hk. destruct (S3 bi b k x Hb Hk) as (R1 & ix & Lx & R2).
    split; [exact R1|]. destruct (decide (x = p)) as [->|Hne].
    + exists (f i). split; [done|]. rewrite L in Lx. injection Lx as <-. done.
    + exists ix. rewrite EF by done. done.
  - intros q iq Lq. destruct (decide (q = p)) as [->|Hne].
    + rewrite L' in Lq. injection Lq as <-.
      destruct (S4 p i L) as (R1 & R2 & _).
      split; [done|]. split; [done|]. unfold element_ok. simpl.
      left. split; [done|]. apply list_elem_of_here.
    + rewrite EF in Lq by done. destruct (S4 q iq Lq) as (R1 & R2 & R3).
      split; [done|]. split; [done|]. unfold element_ok in *. simpl.
      destruct (i_element iq).
      * destruct R3 as [[R3 R4]|(R3 & R4 & R5 & R6)]; [left|right].
        -- split; [done|]. by apply list_elem_of_further.
        -- split; [done|]. split; [|done].
           intros [?|?]%elem_of_cons; done.
      * intros [?|?]%elem_of_cons; done.
  - destruct S5 as [S5 S5']. simpl. split; [by apply NoDup_cons|].
    intros q [->|Hq]%elem_of_cons; [eauto|]. apply ELS. by apply S5'.
  - destruct S6 as [S6 S6']. split; [done|]. intros q Hq.
    destruct (S6' q Hq) as [R1 R2]. split; [by apply ELS|done].
  - intros q Hq. apply ELS. by apply S7.
  - simpl. unfold list_weight. simpl. rewrite S8.
    rewrite (item_size_Some c' p (f i) L'). simpl.
    rewrite (weight_ext c c'); [unfold list_weight; lia|].
    intros q Hq. apply item_size_load. apply EF. intros ->. done.
Qed.

(** A shard stores a fresh, unlinked item under [key]; the item it
    displaces, if any, gets its delete notice. *)
Lemma shape_store cfg c key new bi b :
  shape cfg c →
  bucket key c = Some bi →
  c_buckets c !! bi = Some b →
  i_key new = key → i_refCount new = 0 → i_element new = None →
  1 ≤ i_size new ≤ itemsToPrune cfg →
  shape cfg
    (with_deletables
       (c_deletables c ++ match b !! key with Some old => [old] | None => [] end)
       (with_buckets (<[bi := <[key := length (c_items c)]> b]> (c_buckets c))
          (with_items (c_items c ++ [new]) c))).
Proof.
  intros [S1 S2 S3 S4 S5 S6 S7 S8] Hb Hl Hk Hr He Hs.
  set (item := length (c_items c)).
  set (olds := match b !! key with Some old => [old] | None => [] end).
  set (c' := with_deletables _ _).
  assert (F1 : ∀ q iq, load q c = Some iq → load q c' = Some iq).
  { intros q iq L. unfold load in *. simpl. by apply lookup_app_l_Some. }
  assert (F2 : load item c' = Some new).
  { unfold load. simpl. by apply list_lookup_middle. }
  assert (F4 : load item c = None).
  { unfold load. apply lookup_ge_None_2. done. }
  assert (F3 : ∀ q iq, load q c' = Some iq →
                 (q = item ∧ iq = new) ∨ (q ≠ item ∧ load q c = Some iq)).
  { intros q iq L. destruct (decide (q = item)) as [->|Hne].
    - left. rewrite F2 in L. by injection L as <-.
    - right. split; [done|]. unfold load in *. simpl in L.
      apply lookup_app_Some in L as [L|[Hge L]]; [done|].
      fold item in Hge, L. destruct (q - item)%nat as [|m] eqn:E; [lia|].
      simpl in L. by rewrite lookup_nil in L. }
  assert (F5 : ∀ q, is_Some (load q c) → is_Some (load q c')).
  { intros q [iq L]. rewrite (F1 q iq L). eauto. }
  assert (Hlen : (bi < length (c_buckets c))%nat) by (by eapply lookup_lt_Some).
  assert (EB : ∀ k, bucket k c' = bucket k c).
  { intros k. apply bucket_ext; simpl; [done|]. apply length_insert. }
  assert (Hmap : ∀ bi' b' k x,
             c_buckets c' !! bi' = Some b' → b' !! k = Some x →
             (bi' = bi ∧ k = key ∧ x = item)
             ∨ (x ≠ item ∧ (bi', k) ≠ (bi, key)
                ∧ ∃ b0, c_buckets c !! bi' = Some b0 ∧ b0 !! k = Some x)).
  { intros bi' b' k x Hb' Hk'. simpl in Hb'.
    assert (Hx : ∀ b0, c_buckets c !! bi' = Some b0 → b0 !! k = Some x → x ≠ item).
    { intros b0 H1 H2 ->. destruct (S3 _ _ _ _ H1 H2) as (_ & ix & Lx & _).
      congruence. }
    destruct (decide (bi' = bi)) as [->|Hne].
    - rewrite list_lookup_insert_eq in Hb' by done. injection Hb' as <-.
      destruct (decide (k = key)) as [->|Hnk].
      + rewrite lookup_insert_eq in Hk'. injection Hk' as <-. by left.
      + rewrite lookup_insert_ne in Hk' by done. right.
        split; [by eapply Hx|]. split; [congruence|eauto].
    - rewrite list_lookup_insert_ne in Hb' by done. right.
      split; [by eapply Hx|]. split; [congruence|eauto]. }
  assert (Hold : ∀ old, old ∈ olds →
             b !! key = Some old ∧ old ≠ item ∧ is_Some (load old c)).
  { intros old Ho. unfold olds in Ho. destruct (b !! key) as [o|] eqn:E.
    - apply list_elem_of_singleton in Ho as ->.
      destruct (S3 _ _ _ _ Hl E) as (_ & io & Lo & _).
      split; [done|]. split; [congruence|eauto].
    - by apply elem_of_nil in Ho. }
  assert (EU : ∀ q, q ≠ item → unmapped c q → unmapped c' q).
  { intros q Hq U bi' b' k Hb' Hk'.
    destruct (Hmap _ _ _ _ Hb' Hk') as [(_ & _ & ->)|(_ & _ & b0 & H1 & H2)];
      [done|]. by eapply U. }
  assert (Uold : ∀ old, old ∈ olds → unmapped c' old).
  { intros old Ho. destruct (Hold old Ho) as (E & Hne & _).
    intros bi' b' k Hb' Hk'.
    destruct (Hmap _ _ _ _ Hb' Hk') as [(_ & _ & ->)|(_ & Hloc & b0 & H1 & H2)];
      [done|].
    destruct (S3 _ _ _ _ H1 H2) as (B1 & i1 & L1 & K1).
    destruct (S3 _ _ _ _ Hl E) as (B2 & i2 & L2 & K2).
    apply Hloc. assert (Ek : k = key) by congruence. rewrite Ek in B1 |- *.
    assert (bi' = bi) by congruence. by subst bi'. }
  split.
  - done.
  - simpl. rewrite length_insert. exact S2.
  - intros bi' b' k x Hb' Hk'. rewrite EB.
    destruct (Hmap _ _ _ _ Hb' Hk') as [(-> & -> & ->)|(_ & _ & b0 & H1 & H2)].
    + split; [done|]. exists new. done.
    + destruct (S3 _ _ _ _ H1 H2) as (R1 & ix & Lx & R2).
      split; [done|]. exists ix. split; [by apply F1|done].
  - intros q iq Lq. destruct (F3 q iq Lq) as [[-> ->]|[Hne L]].
    + split; [done|]. split; [done|]. unfold element_ok. rewrite He. simpl.
      intros Hin. destruct (proj2 S5 _ Hin) as [? ?]. congruence.
    + destruct (S4 q iq L) as (R1 & R2 & R3).
      split; [done|]. split; [done|]. unfold element_ok in *. simpl.
      destruct (i_element iq); [|done].
      destruct R3 as [R3|(R3 & R4 & R5 & R6)]; [by left|right].
      split; [done|]. split; [done|]. split; [|by apply EU].
      intros [Hin|Hin]%elem_of_app; [done|].
      destruct (Hold q Hin) as (E & _ & _). by eapply R6.
  - destruct S5 as [S5 S5']. split; [done|]. intros q Hq. apply F5. by apply S5'.
  - destruct S6 as [S6 S6']. simpl. split.
    + apply NoDup_app. split; [done|]. split.
      * intros q Hq Ho. destruct (Hold q Ho) as (E & _ & _).
        destruct (S6' q Hq) as [_ U]. by eapply U.
      * unfold olds. destruct (b !! key); [apply NoDup_singleton|apply NoDup_nil_2].
    + intros q [Hq|Hq]%elem_of_app.
      * destruct (S6' q Hq) as [R1 R2]. split; [by apply F5|].
        apply EU; [|done]. intros ->. destruct R1 as [? ?]. congruence.
      * destruct (Hold q Hq) as (_ & _ & R). split; [by apply F5|by apply Uold].
  - intros q Hq. apply F5. by apply S7.
  - simpl. rewrite S8. unfold list_weight. simpl. symmetry. apply weight_ext.
    intros q Hq. destruct (proj2 S5 q Hq) as [iq L].
    unfold item_size. rewrite (F1 q iq L), L. done.
Qed.

Lemma shape_Set cfg c now key v d :
  shape cfg c →
  1 ≤ value_size v ≤ itemsToPrune cfg →
  ∃ c', Set_ now key v d c = Some c' ∧ shape cfg c'
        ∧ c_size c' = c_size c ∧ c_list c' = c_list c.
Proof.
  intros S Hv.
  destruct (bucket_in_range c key (shape_mask cfg c S)) as [bi Hb].
  destruct (bucket_lookup _ _ _ Hb) as [b Hl].
  pose proof (set_spec c now key v d false bi b Hb Hl) as E. cbv zeta in E.
  unfold Set_. rewrite E. simpl. eexists. split; [reflexivity|].
  pose proof (shape_store cfg c key (newItemInt64 key v (wrap64 (now + d)) false)
                bi b S Hb Hl eq_refl eq_refl eq_refl Hv) as S'.
  set (c1 := with_buckets _ _) in *.
  assert (S2 : shape cfg
                 (match b !! key with Some old => send_deletable old | None => id end c1)).
  { destruct (b !! key) as [old|]; [exact S'|].
    apply (shape_frame cfg _ c1 S'); simpl; try reflexivity.
    - apply (shape_deletables cfg c S).
    - intros p Hp. apply elem_of_app. by left.
    - intros p Hp. by apply (shape_promotables _ _ S'). }
  split; [|split].
  - apply shape_promote; [exact S2|].
    destruct (b !! key); unfold load; simpl;
      rewrite list_lookup_middle by done; eauto.
  - unfold promote. destruct (b !! key); case_match; reflexivity.
  - unfold promote. destruct (b !! key); case_match; reflexivity.
Qed.

Lemma shape_Get cfg c now key :
  shape cfg c →
  ∃ r c', Get now key c = Some (r, c') ∧ shape cfg c'
          ∧ c_size c' = c_size c ∧ c_list c' = c_list c.
Proof.
  intros S.
  destruct (bucket_in_range c key (shape_mask cfg c S)) as [bi Hb].
  destruct (bucket_lookup _ _ _ Hb) as [b Hl].
  unfold Get, bucket_get. rewrite Hb. simpl. rewrite Hl. simpl.
  destruct (b !! key) as [p|] eqn:Hk; [|eauto 10].
  destruct (shape_map cfg c S _ _ _ _ Hl Hk) as (_ & i & L & _).
  rewrite L. simpl. destruct (Expired now i); simpl; [eauto 10|].
  eexists _, _. split; [reflexivity|]. split; [apply shape_promote; eauto|].
  unfold promote. case_match; done.
Qed.

(** *** The worker keeps the shape *)

Lemma shape_weight_nonneg cfg c l :
  shape cfg c → (∀ p, p ∈ l → is_Some (load p c)) → 0 ≤ weight c l.
Proof.
  intros S H. pose proof (weight_ge_length c l) as W.
  assert (Z.of_nat (length l) ≤ weight c l); [|lia].
  apply W. intros p Hp. destruct (H p Hp) as [i L].
  rewrite (item_size_Some c p i L).
  destruct (shape_item cfg c S p i L) as (_ & ? & _). lia.
Qed.

Lemma shape_size_nonneg cfg c : shape cfg c → 0 ≤ c_size c.
Proof.
  intros S. rewrite (shape_size cfg c S).
  apply (shape_weight_nonneg cfg c _ S). apply (shape_list cfg c S).
Qed.

(** A linked item weighs no more than the whole list. *)
Lemma shape_member_weight cfg c p i :
  shape cfg c → load p c = Some i → p ∈ c_list c → i_size i ≤ c_size c.
Proof.
  intros S L Hin. rewrite (shape_size cfg c S). unfold list_weight.
  pose proof (weight_filter c (c_list c) p (proj1 (shape_list cfg c S)) Hin) as W.
  rewrite (item_size_Some c p i L) in W.
  assert (0 ≤ weight c (filter (λ x, x ≠ p) (c_list c))); [|lia].
  apply (shape_weight_nonneg cfg c _ S). intros q Hq.
  apply list_elem_of_filter in Hq as [_ Hq]. by apply (shape_list cfg c S).
Qed.

(** An item of a well-shaped state that is linked owns its element. *)
Lemma shape_linked cfg c p i :
  shape cfg c → load p c = Some i → p ∈ c_list c →
  i_element i = Some (mkElement (Some (c_listId c))).
Proof.
  intros S L Hin. destruct (shape_item cfg c S p i L) as (_ & _ & R).
  unfold element_ok in R. destruct (i_element i) as [[o]|]; [|done].
  simpl in R. destruct R as [[-> _]|(_ & R & _)]; done.
Qed.

Lemma shape_list_ok cfg c : shape cfg c → list_ok c.
Proof.
  intros S. split; [apply (shape_list cfg c S)|]. intros q Hq.
  destruct (proj2 (shape_list cfg c S) q Hq) as [j L]. exists j.
  split; [done|]. split; [by eapply shape_linked|].
  destruct (bucket_in_range c (i_key j) (shape_mask cfg c S)) as [bi Hb]. eauto.
Qed.

Lemma shape_worker_delete cfg c :
  shape cfg c → c_size c ≤ max_int64 →
  ∃ c', worker_delete c = Some c' ∧ shape cfg c' ∧ c_size c' ≤ c_size c.
Proof.
  intros S Hmax. unfold worker_delete.
  destruct (c_deletables c) as [|p rest] eqn:Ed; [eexists; split; [done|]; split; [done|lia]|].
  pose proof (shape_deletables cfg c S) as [ND HD]. rewrite Ed in ND, HD.
  apply NoDup_cons in ND as [Hp ND].
  destruct (HD p (list_elem_of_here _ _)) as [[i L] U].
  set (c0 := with_deletables rest c).
  assert (S0 : shape cfg c0).
  { apply (shape_frame cfg c c0 S); simpl; try reflexivity; [done| |].
    - intros q Hq. rewrite Ed. by apply list_elem_of_further.
    - apply (shape_promotables cfg c S). }
  unfold doDelete. change (load p c0) with (load p c). rewrite L. simpl.
  destruct (i_element i) as [e|] eqn:He.
  - assert (Hown : i_element i = Some (mkElement (Some (c_listId c))) ∧ p ∈ c_list c).
    { destruct (shape_item cfg c S p i L) as (_ & _ & R). unfold element_ok in R.
      rewrite He in R. destruct R as [[R1 R2]|(_ & _ & R & _)].
      - destruct e. simpl in R1. by subst.
      - exfalso. apply R. rewrite Ed. apply list_elem_of_here. }
    destruct Hown as [Hown Hin].
    pose proof (shape_member_weight cfg c p i S L Hin) as Hw.
    destruct (shape_item cfg c S p i L) as (_ & Hsz & _).
    set (Y := call_onDelete p (with_size (wrap64 (c_size c0 - i_size i)) c0)).
    assert (LY : load p Y = Some i) by (unfold Y; by rewrite load_call_onDelete).
    assert (IY : c_listId Y = c_listId c) by (unfold Y; by rewrite listId_call_onDelete).
    destruct (list_list_Remove_owned p Y i LY) as [EL EP]; [by rewrite IY|].
    exists (list_Remove p Y). split; [reflexivity|].
    assert (ES : c_size (list_Remove p Y) = c_size c - i_size i).
    { rewrite size_list_Remove. unfold Y. rewrite size_call_onDelete. simpl.
      apply wrap64_id. unfold min_int64, max_int64 in *. lia. }
    split; [|rewrite ES; lia].
    apply (shape_unlink cfg c0 (list_Remove p Y) p i S0 L Hown).
    + rewrite config_list_Remove. unfold Y. by rewrite config_call_onDelete.
    + rewrite bucketMask_list_Remove. unfold Y. by rewrite bucketMask_call_onDelete.
    + by rewrite listId_list_Remove.
    + rewrite buckets_list_Remove. unfold Y. by rewrite buckets_call_onDelete.
    + intros bi b' k x. rewrite buckets_list_Remove. unfold Y.
      rewrite buckets_call_onDelete. simpl. eauto.
    + intros bi b' k. rewrite buckets_list_Remove. unfold Y.
      rewrite buckets_call_onDelete. simpl. apply U.
    + rewrite EL. unfold Y. by rewrite list_call_onDelete.
    + intros q Hq. rewrite load_list_Remove_ne by done. unfold Y.
      by rewrite load_call_onDelete.
    + eexists. split; [exact EP|]. done.
    + exact ES.
    + unfold list_Remove, Y, call_onDelete. repeat case_match; done.
    + intros q. unfold list_Remove, Y, call_onDelete. repeat case_match; done.
    + unfold list_Remove, Y, call_onDelete. repeat case_match; done.
    + intros q. unfold list_Remove, Y, call_onDelete. repeat case_match; done.
  - eexists. split; [reflexivity|]. split; [|simpl; lia].
    apply shape_modify; [exact S0|]. intros. done.
Qed.

Lemma delete_last_take {A} (l : list A) n :
  length l = S n → delete n l = take n l.
Proof.
  revert n. induction l as [|x l IH]; intros n H; [done|].
  destruct n as [|n]; simpl in *.
  - destruct l; [done|discriminate].
  - f_equal. apply IH. lia.
Qed.

(** The eviction of the last item of the list of a well-shaped state with
    no delete notice waiting. *)
Lemma shape_gc_evict cfg c n q j :
  shape cfg c →
  c_deletables c = [] →
  c_size c ≤ max_int64 →
  length (c_list c) = S n →
  c_list c !! n = Some q →
  load q c = Some j →
  ∃ c',
    gc_evict q j c = Some c'
    ∧ shape cfg c'
    ∧ c_list c' = take n (c_list c)
    ∧ c_deletables c' = []
    ∧ c_promotables c' = c_promotables c
    ∧ c_size c' ≤ c_size c
    ∧ (∀ x, item_size c' x = item_size c x).
Proof.
  intros S Ed Hmax Hlen Hq L.
  pose proof (shape_list_ok cfg c S) as OK.
  assert (Hin : q ∈ c_list c) by (by eapply list_elem_of_lookup_2).
  destruct (gc_evict_ok c n q j OK Hq L) as (c' & He & El & OK' & L').
  destruct (gc_evict_inv _ _ _ _ L He)
    as (bi & b & Hb & Hl & EB & EC & EM & EI & ES & EO & _ & EF & _ & ED & EP & _).
  pose proof (shape_member_weight cfg c q j S L Hin) as Hw.
  destruct (shape_item cfg c S q j L) as (_ & Hsz & _).
  assert (ES' : c_size c' = c_size c - i_size j).
  { rewrite ES. apply wrap64_id. unfold min_int64, max_int64 in *. lia. }
  assert (Hsub : ∀ bi' b' k x,
             c_buckets c' !! bi' = Some b' → b' !! k = Some x →
             ∃ b0, c_buckets c !! bi' = Some b0 ∧ b0 !! k = Some x).
  { intros bi' b' k x Hb' Hk'. rewrite EB in Hb'.
    destruct (decide (bi' = bi)) as [->|Hne].
    - rewrite list_lookup_insert_eq in Hb' by (by eapply lookup_lt_Some).
      injection Hb' as <-. apply lookup_delete_Some in Hk' as [_ Hk'].
      eauto.
    - rewrite list_lookup_insert_ne in Hb' by done. eauto. }
  exists c'. split; [exact He|]. split.
  { apply (shape_unlink cfg c c' q j S L); try done.
    - by eapply shape_linked.
    - rewrite EB. apply length_insert.
    - intros bi' b' k Hb' Hk'.
      destruct (Hsub _ _ _ _ Hb' Hk') as (b0 & H1 & H2).
      destruct (shape_map cfg c S _ _ _ _ H1 H2) as (B1 & i1 & L1 & K1).
      assert (i1 = j) by congruence. subst i1. subst k.
      assert (bi' = bi) by congruence. subst bi'.
      rewrite EB in Hb'.
      rewrite list_lookup_insert_eq in Hb' by (by eapply lookup_lt_Some).
      injection Hb' as <-. by rewrite lookup_delete_eq in Hk'.
    - rewrite El. symmetry. apply filter_ne_delete; [apply OK|done].
    - eexists. split; [exact L'|]. done.
    - rewrite ED, Ed. apply NoDup_nil_2.
    - intros x. rewrite ED. done.
    - rewrite ED, Ed. apply not_elem_of_nil.
    - intros x. rewrite EP. done. }
  split; [rewrite El; by apply delete_last_take|].
  split; [congruence|]. split; [done|]. split; [lia|].
  intros x. unfold item_size. destruct (decide (x = q)) as [->|Hne].
  - rewrite L', L. done.
  - rewrite EF by done. done.
Qed.

(** A sweep of a well-shaped state in which nothing is pinned takes the
    last [n] items off the list. *)
Lemma shape_gc_loop cfg n :
  ∀ c d,
    shape cfg c →
    c_deletables c = [] →
    c_size c ≤ max_int64 →
    ∃ d' c',
      gc_loop n (list_Back c) d c = Some (d', c')
      ∧ shape cfg c'
      ∧ c_list c' = take (length (c_list c) - n) (c_list c)
      ∧ c_deletables c' = []
      ∧ c_promotables c' = c_promotables c
      ∧ (∀ x, item_size c' x = item_size c x).
Proof.
  induction n as [|n IH]; intros c d S Ed Hmax.
  { simpl. exists d, c. rewrite Nat.sub_0_r, firstn_all. done. }
  unfold list_Back. destruct (length (c_list c)) as [|m] eqn:Hlen.
  { simpl. exists d, c. apply length_zero_iff_nil in Hlen.
    rewrite Hlen. done. }
  simpl gc_loop.
  destruct (lookup_lt_is_Some_2 (c_list c) m) as [q Hq]; [lia|].
  rewrite Hq. simpl.
  destruct (proj2 (shape_list cfg c S) q) as [j L];
    [by eapply list_elem_of_lookup_2|].
  rewrite L. simpl.
  destruct (shape_item cfg c S q j L) as (Hr & _ & _). rewrite Hr.
  rewrite orb_true_r.
  destruct (shape_gc_evict cfg c m q j S Ed Hmax Hlen Hq L)
    as (c1 & He & S1 & El & Ed1 & Ep1 & Hs1 & Hi1).
  rewrite He. simpl.
  assert (Hlen1 : length (c_list c1) = m).
  { rewrite El, length_take. lia. }
  assert (Hcur : elem_Prev m = list_Back c1).
  { unfold list_Back. rewrite Hlen1. reflexivity. }
  rewrite Hcur.
  destruct (IH c1 (wrap64 (d + 1)) S1 Ed1) as (d' & c' & H & S' & El' & Ed' & Ep' & Hi');
    [lia|].
  exists d', c'. split; [exact H|]. split; [exact S'|]. split.
  { rewrite El', Hlen1, El, take_take. f_equal. lia. }
  split; [done|]. split; [congruence|]. intros x. rewrite Hi'. apply Hi1.
Qed.

Lemma weight_take_drop c l n :
  weight c l = weight c (take n l) + weight c (drop n l).
Proof. rewrite <- weight_app, take_drop. reflexivity. Qed.

Lemma shape_MoveToFront cfg c p :
  shape cfg c →
  shape cfg (list_MoveToFront p c)
  ∧ c_size (list_MoveToFront p c) = c_size c.
Proof.
  intros S. unfold list_MoveToFront.
  destruct (load p c) as [i|] eqn:L; [|done].
  destruct (i_element i) as [e|] eqn:He; [|done].
  destruct (decide (e_list e = Some (c_listId c))) as [Ho|]; [|done].
  destruct (decide (head (c_list c) = Some p)); [done|].
  split; [|done]. apply shape_permute; [done|].
  apply move_to_front_Permutation; [apply (shape_list cfg c S)|].
  destruct (shape_item cfg c S p i L) as (_ & _ & R). unfold element_ok in R.
  rewrite He in R. destruct R as [[_ R]|[R _]]; [done|congruence].
Qed.

Lemma shape_worker_promote cfg c :
  shape cfg c →
  c_deletables c = [] →
  0 ≤ maxSize cfg →
  maxSize cfg + itemsToPrune cfg ≤ max_int64 →
  c_size c ≤ maxSize cfg →
  ∃ c', worker_promote c = Some c' ∧ shape cfg c' ∧ c_size c' ≤ maxSize cfg.
Proof.
  intros S Ed Hmax Hsum Hsz. unfold worker_promote.
  destruct (c_promotables c) as [|p rest] eqn:Ep; [eauto|].
  destruct (shape_promotables cfg c S p) as [i L];
    [rewrite Ep; apply list_elem_of_here|].
  set (c0 := with_promotables rest c).
  assert (S0 : shape cfg c0).
  { apply (shape_frame cfg c c0 S); simpl; try reflexivity.
    - apply (shape_deletables cfg c S).
    - done.
    - intros q Hq. apply (shape_promotables cfg c S). rewrite Ep.
      by apply list_elem_of_further. }
  assert (L0 : load p c0 = Some i) by exact L.
  pose proof (shape_size_nonneg cfg c S) as H0.
  destruct (shape_item cfg c S p i L) as (_ & Hw & _).
  unfold doPromote. rewrite L0. simpl.
  destruct (i_promotions i =? -2); simpl; [eauto|].
  destruct (i_element i) as [e|] eqn:He.
  - unfold shouldPromote. simpl.
    set (i' := set_promotions (wrap32 (i_promotions i + 1)) i).
    set (c1 := modify p (λ _, i') c0).
    assert (S1 : shape cfg c1).
    { apply shape_modify; [exact S0|]. intros i0 Li0.
      rewrite L0 in Li0. injection Li0 as <-. done. }
    destruct (wrap32 (i_promotions i + 1) =? _); simpl.
    + destruct (shape_MoveToFront cfg c1 p S1) as [S2 E2].
      eexists. split; [reflexivity|]. split.
      * apply shape_modify; [exact S2|]. intros. done.
      * simpl. rewrite E2. exact Hsz.
    + eexists. split; [reflexivity|]. split; [exact S1|exact Hsz].
  - rewrite (wrap64_id (c_size c + i_size i))
      by (unfold min_int64, max_int64 in *; lia).
    set (c2 := list_PushFront p (with_size (c_size c + i_size i) c0)).
    assert (S2 : shape cfg c2) by (exact (shape_link cfg c0 p i S0 L0 He)).
    assert (Es2 : c_size c2 = c_size c + i_size i) by reflexivity.
    assert (Ec2 : c_config c2 = cfg) by (apply (shape_config cfg c2 S2)).
    change (∃ c',
              (if true && (maxSize (c_config c2) <? c_size c2)
               then '(n, c3) ← gc c2;
                    Some (with_dropped (wrap64 (c_dropped c3 + n)) c3)
               else Some c2) = Some c'
              ∧ shape cfg c' ∧ c_size c' ≤ maxSize cfg).
    rewrite Ec2, andb_true_l.
    destruct (Z.ltb_spec (maxSize cfg) (c_size c2)) as [Hgt|Hle].
    2:{ eexists. split; [reflexivity|]. done. }
    unfold gc. rewrite Ec2.
    destruct (shape_gc_loop cfg (Z.to_nat (itemsToPrune cfg)) c2 0 S2)
      as (d' & c3 & H & S3 & El & Ed3 & Ep3 & Hi3);
      [exact Ed|unfold max_int64 in *; lia|].
    rewrite H. simpl. eexists. split; [reflexivity|]. split.
    { apply (shape_frame cfg c3 _ S3); simpl; try reflexivity.
      - apply (shape_deletables cfg c3 S3).
      - done.
      - apply (shape_promotables cfg c3 S3). }
    simpl. rewrite (shape_size cfg c3 S3). unfold list_weight. rewrite El.
    rewrite (weight_ext c2 c3) by (intros; apply Hi3).
    set (l2 := c_list c2). set (P := Z.to_nat (itemsToPrune cfg)).
    destruct (decide (length l2 ≤ P)%nat) as [Hsmall|Hbig].
    { replace (length l2 - P)%nat with 0%nat by lia. simpl. lia. }
    pose proof (weight_take_drop c2 l2 (length l2 - P)) as W.
    assert (Wd : Z.of_nat (length (drop (length l2 - P) l2))
                 ≤ weight c2 (drop (length l2 - P) l2)).
    { apply weight_ge_length. intros x Hx.
      assert (Hx2 : x ∈ l2).
      { apply list_elem_of_lookup in Hx as [k Hk]. rewrite lookup_drop in Hk.
        by eapply list_elem_of_lookup_2. }
      destruct (proj2 (shape_list cfg c2 S2) x Hx2) as [ix Lx].
      rewrite (item_size_Some c2 x ix Lx).
      destruct (shape_item cfg c2 S2 x ix Lx) as (_ & ? & _). lia. }
    rewrite length_drop in Wd.
    assert (Wl : weight c2 l2 = c_size c2) by (symmetry; apply (shape_size cfg c2 S2)).
    assert (Z.of_nat P = itemsToPrune cfg) by (unfold P; lia).
    lia.
Qed.

Lemma shape_NewCacheInt64 (NormalTo2N : Z → Z) cfg c0 :
  NewCacheInt64 NormalTo2N cfg = Some c0 →
  1 ≤ NormalTo2N (buckets cfg) ≤ max_int64 →
  shape cfg c0 ∧ c_size c0 = 0.
Proof.
  unfold NewCacheInt64. intros H Hb.
  destruct (Z.ltb_spec (NormalTo2N (buckets cfg)) 0); [lia|].
  injection H as <-. split; [|done]. split; simpl.
  - done.
  - rewrite wrap64_id by (unfold min_int64, max_int64 in *; lia).
    rewrite length_replicate. lia.
  - intros bi b k p Hl. apply lookup_replicate in Hl as [-> _].
    by rewrite lookup_empty.
  - intros p i. unfold load. simpl. by rewrite lookup_nil.
  - split; [apply NoDup_nil_2|]. intros p Hp. by apply elem_of_nil in Hp.
  - split; [apply NoDup_nil_2|]. intros p Hp. by apply elem_of_nil in Hp.
  - intros p Hp. by apply elem_of_nil in Hp.
  - done.
Qed.

(** Along a run that serves delete notices first, every step returns and
    keeps the shape and the bound. *)
Lemma run_keeps_the_bound cfg :
  0 ≤ maxSize cfg →
  0 ≤ itemsToPrune cfg →
  maxSize cfg + itemsToPrune cfg ≤ max_int64 →
  ∀ es c,
    shape cfg c →
    c_size c ≤ maxSize cfg →
    Forall (weight_in (itemsToPrune cfg)) es →
    deletes_first es c →
    ∃ c', run es c = Some c' ∧ shape cfg c' ∧ c_size c' ≤ maxSize cfg.
Proof.
  intros Hmax Hprune Hsum. induction es as [|e es IH]; intros c S Hsz Hw Hdf;
    [simpl; eauto|].
  apply Forall_cons in Hw as [Hwe Hw]. destruct Hdf as [Hfirst Hdf].
  assert (Hstep : ∃ c1, step e c = Some c1 ∧ shape cfg c1
                        ∧ c_size c1 ≤ maxSize cfg).
  { destruct e as [now key v d|now key| |]; simpl.
    - destruct (shape_Set cfg c now key v d S Hwe) as (c1 & E & S1 & Es & _).
      exists c1. rewrite Es. done.
    - destruct (shape_Get cfg c now key S) as (r & c1 & E & S1 & Es & _).
      exists c1. rewrite E, Es. done.
    - apply shape_worker_promote; auto.
    - destruct (shape_worker_delete cfg c S) as (c1 & E & S1 & Es);
        [unfold max_int64 in *; lia|].
      exists c1. split; [done|]. split; [done|lia]. }
  destruct Hstep as (c1 & E & S1 & Hs1). rewrite E in Hdf.
  destruct (IH c1 S1 Hs1 Hw Hdf) as (c' & R & S' & Hs').
  exists c'. simpl. rewrite E. simpl. done.
Qed.

(** C3 (as amended): take a cache built by [NewCacheInt64] with at least
    one shard, a max size that is not negative, and [maxSize +
    itemsToPrune] within [int64].  For every sequence of [Set] and [Get]
    calls whose entries weigh between 1 and [itemsToPrune], interleaved in
    any way with turns of the worker in which a promote message is taken
    only when no delete notice is waiting, every step returns, and in the
    state reached the sum of the weights of the linked entries is the
    worker's running size and is at most the configured max size. *)
Theorem capacity_bound_when_deletes_go_first :
  ∀ (NormalTo2N : Z → Z) (cfg : ConfigurationInt64) (c0 : CacheInt64)
    (es : list event),
    NewCacheInt64 NormalTo2N cfg = Some c0 →
    1 ≤ NormalTo2N (buckets cfg) ≤ max_int64 →
    0 ≤ maxSize cfg →
    0 ≤ itemsToPrune cfg →
    maxSize cfg + itemsToPrune cfg ≤ max_int64 →
    Forall (weight_in (itemsToPrune cfg)) es →
    deletes_first es c0 →
    ∃ c, run es c0 = Some c
         ∧ c_config c = cfg
         ∧ list_weight c = c_size c
         ∧ list_weight c ≤ maxSize cfg.
Proof.
  intros N cfg c0 es Hnew Hb Hmax Hprune Hsum Hw Hdf.
  destruct (shape_NewCacheInt64 N cfg c0 Hnew Hb) as [S0 Hs0].
  destruct (run_keeps_the_bound cfg Hmax Hprune Hsum es c0 S0) as (c & R & S & Hs);
    [lia|done|done|].
  exists c. split; [exact R|]. split; [apply (shape_config cfg c S)|].
  rewrite <- (shape_size cfg c S). done.
Qed.

Lemma capacity_bound_when_deletes_go_first_witness :
  ∃ c, run [CallSet 0 1 (VOther 0) 100; RecvPromote;
            CallSet 1 2 (VSized 1 0) 100; RecvPromote;
            CallSet 2 1 (VOther 2) 100; RecvDelete; RecvPromote;
            CallGet 3 2; RecvPromote]
           (empty16 (ItemsToPrune 1 (MaxSize 2 ConfigureInt64))) = Some c
       ∧ list_weight c ≤ 2.
Proof.
  destruct (capacity_bound_when_deletes_go_first (λ n, n)
              (ItemsToPrune 1 (MaxSize 2 ConfigureInt64))
              (empty16 (ItemsToPrune 1 (MaxSize 2 ConfigureInt64)))
              [CallSet 0 1 (VOther 0) 100; RecvPromote;
               CallSet 1 2 (VSized 1 0) 100; RecvPromote;
               CallSet 2 1 (VOther 2) 100; RecvDelete; RecvPromote;
               CallGet 3 2; RecvPromote])
    as (c & R & _ & _ & H).
  - reflexivity.
  - unfold max_int64. simpl. lia.
  - simpl. lia.
  - simpl. lia.
  - unfold max_int64. simpl. lia.
  - repeat constructor; simpl; lia.
  - vm_compute. repeat split; intros; try reflexivity; discriminate.
  - exists c. split; [exact R|exact H].
Defined.

(** C3 (as stated) fails: with max size 2 and [itemsToPrune] 1, after
    [Set(1, v)] with a plain value and [Set(2, w)] with a value of weight 5,
    each followed by the worker's turn, no message is waiting, nothing is
    pinned, and the linked entries weigh 5. *)
Lemma heavy_entry_exceeds_the_capacity :
  ∃ c0 c,
    NewCacheInt64 (λ n, n) (ItemsToPrune 1 (MaxSize 2 ConfigureInt64)) = Some c0
    ∧ run [CallSet 0 1 (VOther 0) 100; RecvPromote;
           CallSet 1 2 (VSized 5 0) 100; RecvPromote] c0 = Some c
    ∧ c_promotables c = [] ∧ c_deletables c = []
    ∧ maxSize (c_config c) = 2
    ∧ list_weight c = 5
    ∧ pinned_weight c = 0.
Proof.
  exists (empty16 (ItemsToPrune 1 (MaxSize 2 ConfigureInt64))).
  exists (after [CallSet 0 1 (VOther 0) 100; RecvPromote;
                 CallSet 1 2 (VSized 5 0) 100; RecvPromote]
            (empty16 (ItemsToPrune 1 (MaxSize 2 ConfigureInt64)))).
  split; [reflexivity|]. vm_compute. repeat split; reflexivity.
Qed.

(** The order of the worker's turns matters for the bound: when the
    promote message of a replacing item is served before the delete notice
    of the item it replaced, the sweep may evict the replaced item first,
    and the notice then takes its weight off the size a second time.  With
    max size 1 and [itemsToPrune] 1, unit weights only, two items end up
    linked while the running size is 1. *)
Lemma late_delete_notice_breaks_the_size :
  ∃ c0 c,
    NewCacheInt64 (λ n, n) (ItemsToPrune 1 (MaxSize 1 ConfigureInt64)) = Some c0
    ∧ run [CallSet 0 1 (VOther 0) 100; CallSet 1 1 (VOther 1) 100;
           CallSet 2 2 (VOther 2) 100;
           RecvPromote; RecvPromote; RecvDelete; RecvPromote] c0 = Some c
    ∧ c_promotables c = [] ∧ c_deletables c = []
    ∧ c_size c = 1
    ∧ list_weight c = 2
    ∧ ItemCount c = 1.
Proof.
  exists (empty16 (ItemsToPrune 1 (MaxSize 1 ConfigureInt64))).
  exists (after [CallSet 0 1 (VOther 0) 100; CallSet 1 1 (VOther 1) 100;
                 CallSet 2 2 (VOther 2) 100;
                 RecvPromote; RecvPromote; RecvDelete; RecvPromote]
            (empty16 (ItemsToPrune 1 (MaxSize 1 ConfigureInt64)))).
  split; [reflexivity|]. vm_compute. repeat split; reflexivity.
Qed.

(** ** Three entries in a cache with room for two *)

Lemma GetItem_ext k c c' :
  c_buckets c' = c_buckets c → c_bucketMask c' = c_bucketMask c →
  GetItem k c' = GetItem k c.
Proof.
  intros E1 E2. unfold GetItem, bucket_get, bucket. rewrite E1, E2. done.
Qed.

Lemma ItemCount_ext c c' : c_buckets c' = c_buckets c → ItemCount c' = ItemCount c.
Proof. unfold ItemCount. intros ->. done. Qed.

Lemma count_acc (l : list (gmap Z nat)) a :
  foldl (λ count b, count + bucket_itemCount b) a l
  = a + foldl (λ count b, count + bucket_itemCount b) 0 l.
Proof.
  revert a. induction l as [|b l IH]; intros a; simpl; [lia|].
  rewrite (IH (a + _)), (IH (0 + _)). lia.
Qed.

Lemma count_insert (l : list (gmap Z nat)) bi b b' :
  l !! bi = Some b →
  foldl (λ count b, count + bucket_itemCount b) 0 (<[bi := b']> l)
  = foldl (λ count b, count + bucket_itemCount b) 0 l
    - bucket_itemCount b + bucket_itemCount b'.
Proof.
  intros H. rewrite insert_take_drop by (by eapply lookup_lt_Some).
  rewrite <- (take_drop_middle l bi b H) at 3.
  rewrite !foldl_app. simpl.
  rewrite (count_acc (drop _ _) (_ + bucket_itemCount b')),
    (count_acc (drop _ _) (_ + bucket_itemCount b)). lia.
Qed.

Lemma GetItem_inv k c r :
  GetItem k c = Some r →
  ∃ bi b, bucket k c = Some bi ∧ c_buckets c !! bi = Some b ∧ b !! k = r.
Proof.
  unfold GetItem, bucket_get. intros H.
  destruct (bucket k c) as [bi|] eqn:Hb; [|discriminate]. simpl in H.
  destruct (c_buckets c !! bi) as [b|] eqn:Hl; [|discriminate]. simpl in H.
  injection H as <-. by exists bi, b.
Qed.

Lemma GetItem_intro k c bi b :
  bucket k c = Some bi → c_buckets c !! bi = Some b → GetItem k c = Some (b !! k).
Proof. intros H1 H2. unfold GetItem, bucket_get. rewrite H1. simpl. by rewrite H2. Qed.

(** The shards after an insertion under [key] in shard [bi]. *)
Lemma buckets_after_insert c c' key bi b p :
  bucket key c = Some bi →
  c_buckets c !! bi = Some b →
  b !! key = None →
  c_buckets c' = <[bi := <[key := p]> b]> (c_buckets c) →
  c_bucketMask c' = c_bucketMask c →
  ItemCount c' = ItemCount c + 1
  ∧ GetItem key c' = Some (Some p)
  ∧ ∀ k, k ≠ key → GetItem k c' = GetItem k c.
Proof.
  intros Hb Hl Hk EB EM.
  assert (Hlen : length (c_buckets c') = length (c_buckets c))
    by (rewrite EB; apply length_insert).
  assert (Hbk : ∀ k, bucket k c' = bucket k c) by (intros k; by apply bucket_ext).
  pose proof (bucket_Some _ _ _ Hb) as Hlt.
  split; [|split].
  - unfold ItemCount. rewrite EB, (count_insert _ _ _ _ Hl).
    unfold bucket_itemCount. rewrite map_size_insert_None by done. lia.
  - rewrite (GetItem_intro key c' bi (<[key := p]> b)).
    + by rewrite lookup_insert_eq.
    + by rewrite Hbk.
    + rewrite EB. by apply list_lookup_insert_eq.
  - intros k Hne. unfold GetItem, bucket_get. rewrite Hbk.
    destruct (bucket k c) as [bk|]; [simpl|done]. rewrite EB.
    destruct (decide (bk = bi)) as [->|Hnb].
    + rewrite list_lookup_insert_eq by done. rewrite Hl. simpl.
      by rewrite lookup_insert_ne.
    + by rewrite list_lookup_insert_ne.
Qed.

(** The shards after the deletion of a key that is there. *)
Lemma buckets_after_delete c c' key bi b p :
  bucket key c = Some bi →
  c_buckets c !! bi = Some b →
  b !! key = Some p →
  c_buckets c' = <[bi := delete key b]> (c_buckets c) →
  c_bucketMask c' = c_bucketMask c →
  ItemCount c' = ItemCount c - 1
  ∧ GetItem key c' = Some None
  ∧ ∀ k, k ≠ key → GetItem k c' = GetItem k c.
Proof.
  intros Hb Hl Hk EB EM.
  assert (Hlen : length (c_buckets c') = length (c_buckets c))
    by (rewrite EB; apply length_insert).
  assert (Hbk : ∀ k, bucket k c' = bucket k c) by (intros k; by apply bucket_ext).
  pose proof (bucket_Some _ _ _ Hb) as Hlt.
  split; [|split].
  - unfold ItemCount. rewrite EB, (count_insert _ _ _ _ Hl).
    unfold bucket_itemCount. rewrite map_size_delete_Some by eauto.
    assert (size b ≠ 0%nat).
    { intros E. apply map_size_empty_iff in E. subst b. by rewrite lookup_empty in Hk. }
    lia.
  - rewrite (GetItem_intro key c' bi (delete key b)).
    + by rewrite lookup_delete_eq.
    + by rewrite Hbk.
    + rewrite EB. by apply list_lookup_insert_eq.
  - intros k Hne. unfold GetItem, bucket_get. rewrite Hbk.
    destruct (bucket k c) as [bk|]; [simpl|done]. rewrite EB.
    destruct (decide (bk = bi)) as [->|Hnb].
    + rewrite list_lookup_insert_eq by done. rewrite Hl. simpl.
      by rewrite lookup_delete_ne.
    + by rewrite list_lookup_insert_ne.
Qed.

Lemma count_replicate_empty n :
  foldl (λ count b, count + bucket_itemCount b) 0 (replicate n (∅ : gmap Z nat)) = 0.
Proof.
  induction n as [|n IH]; [done|]. simpl. rewrite count_acc, IH. done.
Qed.

Lemma Set_absent_explicit cfg l lid sz B m dl pr it ce dr ca now key v d :
  GetItem key (mkCache cfg l lid sz B m dl pr it ce dr ca) = Some None →
  Z.of_nat (length pr) < promoteBuffer cfg →
  ∃ B',
    Set_ now key v d (mkCache cfg l lid sz B m dl pr it ce dr ca)
    = Some (mkCache cfg l lid sz B' m dl (pr ++ [length it])
              (it ++ [newItemInt64 key v (wrap64 (now + d)) false]) ce dr ca)
    ∧ ItemCount (mkCache cfg l lid sz B' m dl (pr ++ [length it])
                   (it ++ [newItemInt64 key v (wrap64 (now + d)) false]) ce dr ca)
      = ItemCount (mkCache cfg l lid sz B m dl pr it ce dr ca) + 1
    ∧ ∀ c', c_buckets c' = B' → c_bucketMask c' = m →
        GetItem key c' = Some (Some (length it))
        ∧ ∀ k, k ≠ key →
            GetItem k c' = GetItem k (mkCache cfg l lid sz B m dl pr it ce dr ca).
Proof.
  intros HG Hroom. set (c := mkCache cfg l lid sz B m dl pr it ce dr ca) in *.
  destruct (GetItem_inv _ _ _ HG) as (bi & b & Hb & Hl & Hk).
  exists (<[bi := <[key := length it]> b]> B).
  pose proof (set_spec c now key v d false bi b Hb Hl) as E. cbv zeta in E.
  split.
  - unfold Set_. rewrite E. simpl. rewrite Hk. unfold promote. simpl.
    destruct (Z.ltb_spec (Z.of_nat (length pr)) (promoteBuffer cfg)); [done|lia].
  - split.
    + apply (buckets_after_insert c _ key bi b (length it)); done.
    + intros c' EB EM.
      destruct (buckets_after_insert c c' key bi b (length it)) as (_ & R2 & R3);
        done.
Qed.

Lemma gc_evict_explicit cfg l lid sz B m dl pr it ce dr ca q j x :
  GetItem (i_key j) (mkCache cfg l lid sz B m dl pr it ce dr ca) = Some (Some x) →
  ∃ B',
    gc_evict q j (mkCache cfg l lid sz B m dl pr it ce dr ca)
    = Some (modify q (set_promotions (-2))
              (call_onDelete q
                 (list_Remove q
                    (mkCache cfg l lid (wrap64 (sz - i_size j)) B' m dl pr it
                       ce dr ca))))
    ∧ ∀ c', c_buckets c' = B' → c_bucketMask c' = m →
        ItemCount c' = ItemCount (mkCache cfg l lid sz B m dl pr it ce dr ca) - 1
        ∧ GetItem (i_key j) c' = Some None
        ∧ ∀ k, k ≠ i_key j →
            GetItem k c' = GetItem k (mkCache cfg l lid sz B m dl pr it ce dr ca).
Proof.
  intros HG. set (c := mkCache cfg l lid sz B m dl pr it ce dr ca) in *.
  destruct (GetItem_inv _ _ _ HG) as (bi & b & Hb & Hl & Hk).
  exists (<[bi := delete (i_key j) b]> B). split.
  - unfold gc_evict, bucket_delete. rewrite Hb. simpl.
    unfold c in Hl. simpl in Hl. rewrite Hl. done.
  - intros c' EB EM. by apply (buckets_after_delete c c' (i_key j) bi b x).
Qed.

Lemma gc_loop_None n d c : gc_loop n None d c = Some (d, c).
Proof. destruct n; done. Qed.

Lemma GetItem_new (N : Z → Z) cfg c0 k :
  NewCacheInt64 N cfg = Some c0 →
  1 ≤ N (buckets cfg) ≤ max_int64 →
  c0 = mkCache cfg [] 0 0 (c_buckets c0) (c_bucketMask c0) [] [] [] [] 0 []
  ∧ GetItem k c0 = Some None ∧ ItemCount c0 = 0.
Proof.
  unfold NewCacheInt64. intros H Hb.
  destruct (Z.ltb_spec (N (buckets cfg)) 0); [lia|]. injection H as <-.
  split; [done|]. split.
  - assert (M : 0 ≤ wrap64 (N (buckets cfg) - 1)
                < Z.of_nat (length (replicate (Z.to_nat (N (buckets cfg))) (∅ : gmap Z nat)))).
    { rewrite wrap64_id by (unfold min_int64, max_int64 in *; lia).
      rewrite length_replicate. lia. }
    destruct (bucket_in_range
                (mkCache cfg [] 0 0 (replicate (Z.to_nat (N (buckets cfg))) ∅)
                   (wrap64 (N (buckets cfg) - 1)) [] [] [] [] 0 []) k M) as [bi Hbi].
    rewrite (GetItem_intro _ _ bi ∅ Hbi); [by rewrite lookup_empty|].
    simpl. apply lookup_replicate_2. apply bucket_Some in Hbi. simpl in Hbi.
    by rewrite length_replicate in Hbi.
  - unfold ItemCount. simpl. apply count_replicate_empty.
Qed.

Lemma run_step e es c c1 : step e c = Some c1 → run (e :: es) c = run es c1.
Proof. intros H. simpl. by rewrite H. Qed.

(** Three [Set]s on distinct keys of an empty cache and the worker's three
    turns, up to the sweep that linking the third entry starts. *)
Lemma three_entries_linked bk P db pb g tr od A B C tA tB tC dA dB dC
    vA vB vC B0 m :
  let cfg := mkConfig 2 bk P db pb g tr od in
  let c0 := mkCache cfg [] 0 0 B0 m [] [] [] [] 0 [] in
  let iA := mkItem A 0 0 (wrap64 (tA + dA)) 1 vA (Some (mkElement (Some 0%nat))) in
  let iB := mkItem B 0 0 (wrap64 (tB + dB)) 1 vB (Some (mkElement (Some 0%nat))) in
  let iC := mkItem C 0 0 (wrap64 (tC + dC)) 1 vC (Some (mkElement (Some 0%nat))) in
  3 ≤ pb →
  A ≠ B → A ≠ C → B ≠ C →
  value_size vA = 1 → value_size vB = 1 → value_size vC = 1 →
  (∀ k, GetItem k c0 = Some None) →
  ItemCount c0 = 0 →
  ∃ B3,
    let c6 := mkCache cfg [2; 1; 0]%nat 0 3 B3 m [] [] [iA; iB; iC] [] 0 [] in
    run [CallSet tA A vA dA; CallSet tB B vB dB; CallSet tC C vC dC;
         RecvPromote; RecvPromote; RecvPromote] c0
    = (c ← ('(n, c) ← gc c6; Some (with_dropped (wrap64 (c_dropped c + n)) c));
       Some c)
    ∧ ItemCount c6 = 3
    ∧ GetItem A c6 = Some (Some 0%nat)
    ∧ GetItem B c6 = Some (Some 1%nat)
    ∧ GetItem C c6 = Some (Some 2%nat).
Proof.
  intros cfg c0 iA iB iC Hbuf HAB HAC HBC HvA HvB HvC Hempty Hcount.
  destruct (Set_absent_explicit cfg [] 0%nat 0 B0 m [] [] [] [] 0 [] tA A vA dA)
    as (B1 & E1 & C1 & G1); [apply Hempty|simpl; lia|].
  fold c0 in E1, C1, G1. unfold newItemInt64 in E1, C1. rewrite HvA in E1, C1.
  simpl in E1, C1.
  set (c1 := mkCache cfg [] 0 0 B1 m [] [0%nat]
               [mkItem A 0 0 (wrap64 (tA + dA)) 1 vA None] [] 0 []) in *.
  destruct (G1 c1 eq_refl eq_refl) as [GA1 GO1].
  destruct (Set_absent_explicit cfg [] 0%nat 0 B1 m [] [0%nat]
              [mkItem A 0 0 (wrap64 (tA + dA)) 1 vA None] [] 0 [] tB B vB dB)
    as (B2 & E2 & C2 & G2).
  { fold c1. rewrite GO1 by done. apply Hempty. }
  { simpl. lia. }
  fold c1 in E2, C2, G2. unfold newItemInt64 in E2, C2. rewrite HvB in E2, C2.
  simpl in E2, C2.
  set (c2 := mkCache cfg [] 0 0 B2 m [] [0%nat; 1%nat]
               [mkItem A 0 0 (wrap64 (tA + dA)) 1 vA None;
                mkItem B 0 0 (wrap64 (tB + dB)) 1 vB None] [] 0 []) in *.
  destruct (G2 c2 eq_refl eq_refl) as [GB2 GO2].
  destruct (Set_absent_explicit cfg [] 0%nat 0 B2 m [] [0%nat; 1%nat]
              [mkItem A 0 0 (wrap64 (tA + dA)) 1 vA None;
               mkItem B 0 0 (wrap64 (tB + dB)) 1 vB None] [] 0 [] tC C vC dC)
    as (B3 & E3 & C3 & G3).
  { fold c2. rewrite GO2, GO1 by done. apply Hempty. }
  { simpl. lia. }
  fold c2 in E3, C3, G3. unfold newItemInt64 in E3, C3. rewrite HvC in E3, C3.
  simpl in E3, C3.
  set (c3 := mkCache cfg [] 0 0 B3 m [] [0%nat; 1%nat; 2%nat]
               [mkItem A 0 0 (wrap64 (tA + dA)) 1 vA None;
                mkItem B 0 0 (wrap64 (tB + dB)) 1 vB None;
                mkItem C 0 0 (wrap64 (tC + dC)) 1 vC None] [] 0 []) in *.
  destruct (G3 c3 eq_refl eq_refl) as [GC3 GO3].
  exists B3. cbv zeta.
  set (c6 := mkCache cfg [2; 1; 0]%nat 0 3 B3 m [] [] [iA; iB; iC] [] 0 []).
  split.
  - rewrite (run_step (CallSet tA A vA dA) _ c0 c1 E1),
      (run_step (CallSet tB B vB dB) _ c1 c2 E2),
      (run_step (CallSet tC C vC dC) _ c2 c3 E3).
    reflexivity.
  - split; [|split; [|split]].
    + rewrite (ItemCount_ext c3 c6 eq_refl), C3, C2, C1, Hcount. done.
    + rewrite (GetItem_ext A c3 c6 eq_refl eq_refl), GO3, GO2 by done. exact GA1.
    + rewrite (GetItem_ext B c3 c6 eq_refl eq_refl), GO3 by done. exact GB2.
    + rewrite (GetItem_ext C c3 c6 eq_refl eq_refl). exact GC3.
Qed.

Lemma gc_loop_evict n idx d c q j c' :
  c_list c !! idx = Some q →
  load q c = Some j →
  (negb (tracking (c_config c)) || (i_refCount j =? 0)) = true →
  gc_evict q j c = Some c' →
  gc_loop (S n) (Some idx) d c = gc_loop n (elem_Prev idx) (wrap64 (d + 1)) c'.
Proof. intros H1 H2 H3 H4. simpl. rewrite H1. simpl. rewrite H2. simpl. by rewrite H3, H4. Qed.

(** The sweep on three linked unit entries, the oldest under [A]: with a
    budget of three or more all of them go, oldest first. *)
Lemma sweep_takes_all bk P db pb g tr od A B C eA eB eC vA vB vC B3 m :
  let cfg := mkConfig 2 bk P db pb g tr od in
  let c6 :=
    mkCache cfg [2; 1; 0]%nat 0 3 B3 m [] []
      [mkItem A 0 0 eA 1 vA (Some (mkElement (Some 0%nat)));
       mkItem B 0 0 eB 1 vB (Some (mkElement (Some 0%nat)));
       mkItem C 0 0 eC 1 vC (Some (mkElement (Some 0%nat)))] [] 0 [] in
  3 ≤ P → A ≠ B → A ≠ C → B ≠ C →
  ItemCount c6 = 3 →
  GetItem A c6 = Some (Some 0%nat) →
  GetItem B c6 = Some (Some 1%nat) →
  GetItem C c6 = Some (Some 2%nat) →
  ∃ B6,
    let c9 :=
      mkCache cfg [] 0 0 B6 m [] []
        [mkItem A (-2) 0 eA 1 vA (Some (mkElement None));
         mkItem B (-2) 0 eB 1 vB (Some (mkElement None));
         mkItem C (-2) 0 eC 1 vC (Some (mkElement None))] [] 0
        (if od then [0; 1; 2]%nat else []) in
    gc c6 = Some (3, c9)
    ∧ ItemCount c9 = 0
    ∧ GetItem A c9 = Some None ∧ GetItem B c9 = Some None
    ∧ GetItem C c9 = Some None.
Proof.
  intros cfg c6 HP HAB HAC HBC Hcnt GA GB GC.
  set (iA := mkItem A 0 0 eA 1 vA (Some (mkElement (Some 0%nat)))) in *.
  set (iB := mkItem B 0 0 eB 1 vB (Some (mkElement (Some 0%nat)))) in *.
  set (iC := mkItem C 0 0 eC 1 vC (Some (mkElement (Some 0%nat)))) in *.
  set (rA := mkItem A (-2) 0 eA 1 vA (Some (mkElement None))).
  set (rB := mkItem B (-2) 0 eB 1 vB (Some (mkElement None))).
  set (rC := mkItem C (-2) 0 eC 1 vC (Some (mkElement None))).
  set (ca1 := if od then [0%nat] else []).
  set (ca2 := if od then [0; 1]%nat else []).
  set (ca3 := if od then [0; 1; 2]%nat else []).
  destruct (gc_evict_explicit cfg [2; 1; 0]%nat 0%nat 3 B3 m [] [] [iA; iB; iC]
              [] 0 [] 0%nat iA 0%nat GA) as (B4 & E4 & F4).
  set (c7 := mkCache cfg [2; 1]%nat 0 2 B4 m [] [] [rA; iB; iC] [] 0 ca1).
  assert (E4' : gc_evict 0%nat iA c6 = Some c7).
  { etrans; [exact E4|]. unfold c7, ca1, cfg. destruct od; reflexivity. }
  destruct (F4 c7 eq_refl eq_refl) as (N7 & A7 & O7).
  assert (GB7 : GetItem B c7 = Some (Some 1%nat)) by (rewrite O7; done).
  assert (GC7 : GetItem C c7 = Some (Some 2%nat)) by (rewrite O7; done).
  destruct (gc_evict_explicit cfg [2; 1]%nat 0%nat 2 B4 m [] [] [rA; iB; iC]
              [] 0 ca1 1%nat iB 1%nat GB7) as (B5 & E5 & F5).
  set (c8 := mkCache cfg [2]%nat 0 1 B5 m [] [] [rA; rB; iC] [] 0 ca2).
  assert (E5' : gc_evict 1%nat iB c7 = Some c8).
  { etrans; [exact E5|]. unfold c8, ca1, ca2, cfg. destruct od; reflexivity. }
  destruct (F5 c8 eq_refl eq_refl) as (N8 & B8 & O8).
  assert (GC8 : GetItem C c8 = Some (Some 2%nat)) by (rewrite O8; done).
  assert (GA8 : GetItem A c8 = Some None) by (rewrite O8; done).
  destruct (gc_evict_explicit cfg [2]%nat 0%nat 1 B5 m [] [] [rA; rB; iC]
              [] 0 ca2 2%nat iC 2%nat GC8) as (B6 & E6 & F6).
  set (c9 := mkCache cfg [] 0 0 B6 m [] [] [rA; rB; rC] [] 0 ca3).
  assert (E6' : gc_evict 2%nat iC c8 = Some c9).
  { etrans; [exact E6|]. unfold c9, ca2, ca3, cfg. destruct od; reflexivity. }
  destruct (F6 c9 eq_refl eq_refl) as (N9 & C9 & O9).
  exists B6. cbv zeta. fold c9. split.
  - unfold gc. change (list_Back c6) with (Some 2%nat).
    change (itemsToPrune (c_config c6)) with P.
    destruct (Z.to_nat P) as [|[|[|n]]] eqn:En; [lia|lia|lia|].
    rewrite (gc_loop_evict _ 2 0 c6 0%nat iA c7 eq_refl eq_refl (orb_true_r _) E4').
    rewrite (gc_loop_evict _ 1 _ c7 1%nat iB c8 eq_refl eq_refl (orb_true_r _) E5').
    rewrite (gc_loop_evict _ 0 _ c8 2%nat iC c9 eq_refl eq_refl (orb_true_r _) E6').
    rewrite gc_loop_None. reflexivity.
  - change (ItemCount c7 = ItemCount c6 - 1) in N7.
    change (ItemCount c8 = ItemCount c7 - 1) in N8.
    change (ItemCount c9 = ItemCount c8 - 1) in N9.
    split; [lia|]. split; [rewrite O9, O8 by done; exact A7|].
    split; [rewrite O9 by done; exact B8|exact C9].
Qed.

(** With a budget of one, only the oldest goes. *)
Lemma sweep_takes_one bk db pb g tr od A B C eA eB eC vA vB vC B3 m :
  let cfg := mkConfig 2 bk 1 db pb g tr od in
  let c6 :=
    mkCache cfg [2; 1; 0]%nat 0 3 B3 m [] []
      [mkItem A 0 0 eA 1 vA (Some (mkElement (Some 0%nat)));
       mkItem B 0 0 eB 1 vB (Some (mkElement (Some 0%nat)));
       mkItem C 0 0 eC 1 vC (Some (mkElement (Some 0%nat)))] [] 0 [] in
  A ≠ B → A ≠ C →
  ItemCount c6 = 3 →
  GetItem A c6 = Some (Some 0%nat) →
  GetItem B c6 = Some (Some 1%nat) →
  GetItem C c6 = Some (Some 2%nat) →
  ∃ B4,
    let c7 :=
      mkCache cfg [2; 1]%nat 0 2 B4 m [] []
        [mkItem A (-2) 0 eA 1 vA (Some (mkElement None));
         mkItem B 0 0 eB 1 vB (Some (mkElement (Some 0%nat)));
         mkItem C 0 0 eC 1 vC (Some (mkElement (Some 0%nat)))] [] 0
        (if od then [0%nat] else []) in
    gc c6 = Some (1, c7)
    ∧ ItemCount c7 = 2
    ∧ GetItem A c7 = Some None
    ∧ GetItem B c7 = Some (Some 1%nat)
    ∧ GetItem C c7 = Some (Some 2%nat).
Proof.
  intros cfg c6 HAB HAC Hcnt GA GB GC.
  set (iA := mkItem A 0 0 eA 1 vA (Some (mkElement (Some 0%nat)))) in *.
  set (iB := mkItem B 0 0 eB 1 vB (Some (mkElement (Some 0%nat)))) in *.
  set (iC := mkItem C 0 0 eC 1 vC (Some (mkElement (Some 0%nat)))) in *.
  set (rA := mkItem A (-2) 0 eA 1 vA (Some (mkElement None))).
  set (ca1 := if od then [0%nat] else []).
  destruct (gc_evict_explicit cfg [2; 1; 0]%nat 0%nat 3 B3 m [] [] [iA; iB; iC]
              [] 0 [] 0%nat iA 0%nat GA) as (B4 & E4 & F4).
  set (c7 := mkCache cfg [2; 1]%nat 0 2 B4 m [] [] [rA; iB; iC] [] 0 ca1).
  assert (E4' : gc_evict 0%nat iA c6 = Some c7).
  { etrans; [exact E4|]. unfold c7, ca1, cfg. destruct od; reflexivity. }
  destruct (F4 c7 eq_refl eq_refl) as (N7 & A7 & O7).
  change (ItemCount c7 = ItemCount c6 - 1) in N7.
  exists B4. cbv zeta. fold c7. split.
  - unfold gc. change (list_Back c6) with (Some 2%nat).
    change (Z.to_nat (itemsToPrune (c_config c6))) with 1%nat.
    rewrite (gc_loop_evict _ 2 0 c6 0%nat iA c7 eq_refl eq_refl (orb_true_r _) E4').
    reflexivity.
  - split; [lia|]. split; [exact A7|]. rewrite !O7 by done. done.
Qed.


(** C1 (as amended): take a cache built by [NewCacheInt64] with max size 2
    and a promote buffer of three or more, three distinct keys [A], [B],
    [C] and values of weight 1; run [Set(A)], [Set(B)], [Set(C)] and let
    the worker take the three promote messages.  With [itemsToPrune] 10 (or
    any budget of three or more) the sweep that linking [C] starts evicts
    all three entries, oldest first: three evictions are counted, [A], [B]
    and [C] are marked removed, unlinked and gone from their shards, the
    callback, if any, is called on them in that order, and [ItemCount] is 0.
    With [itemsToPrune] 1 exactly one eviction occurs, the evicted key is
    [A], and [ItemCount] is 2. *)
Theorem three_sets_with_room_for_two :
  ∀ (NormalTo2N : Z → Z) (cfg : ConfigurationInt64) (c0 : CacheInt64)
    (A B C tA tB tC dA dB dC : Z) (vA vB vC : value),
    NewCacheInt64 NormalTo2N cfg = Some c0 →
    1 ≤ NormalTo2N (buckets cfg) ≤ max_int64 →
    maxSize cfg = 2 →
    3 ≤ promoteBuffer cfg →
    A ≠ B → A ≠ C → B ≠ C →
    value_size vA = 1 → value_size vB = 1 → value_size vC = 1 →
    let es := [CallSet tA A vA dA; CallSet tB B vB dB; CallSet tC C vC dC;
               RecvPromote; RecvPromote; RecvPromote] in
    (3 ≤ itemsToPrune cfg →
     ∃ c, run es c0 = Some c
          ∧ c_promotables c = [] ∧ c_deletables c = []
          ∧ c_dropped c = 3
          ∧ c_list c = []
          ∧ c_items c
            = [mkItem A (-2) 0 (wrap64 (tA + dA)) 1 vA (Some (mkElement None));
               mkItem B (-2) 0 (wrap64 (tB + dB)) 1 vB (Some (mkElement None));
               mkItem C (-2) 0 (wrap64 (tC + dC)) 1 vC (Some (mkElement None))]
          ∧ c_onDeleteCalls c = (if onDelete cfg then [0; 1; 2]%nat else [])
          ∧ GetItem A c = Some None ∧ GetItem B c = Some None
          ∧ GetItem C c = Some None
          ∧ ItemCount c = 0)
    ∧ (itemsToPrune cfg = 1 →
       ∃ c, run es c0 = Some c
            ∧ c_promotables c = [] ∧ c_deletables c = []
            ∧ c_dropped c = 1
            ∧ c_list c = [2; 1]%nat
            ∧ c_items c
              = [mkItem A (-2) 0 (wrap64 (tA + dA)) 1 vA (Some (mkElement None));
                 mkItem B 0 0 (wrap64 (tB + dB)) 1 vB
                   (Some (mkElement (Some 0%nat)));
                 mkItem C 0 0 (wrap64 (tC + dC)) 1 vC
                   (Some (mkElement (Some 0%nat)))]
            ∧ c_onDeleteCalls c = (if onDelete cfg then [0%nat] else [])
            ∧ GetItem A c = Some None
            ∧ GetItem B c = Some (Some 1%nat)
            ∧ GetItem C c = Some (Some 2%nat)
            ∧ ItemCount c = 2).
Proof.
  intros N cfg c0 A B C tA tB tC dA dB dC vA vB vC Hnew Hb Hmax Hbuf
    HAB HAC HBC HvA HvB HvC es.
  assert (F0 : ∀ k, c0 = mkCache cfg [] 0 0 (c_buckets c0) (c_bucketMask c0)
                         [] [] [] [] 0 []
                    ∧ GetItem k c0 = Some None ∧ ItemCount c0 = 0).
  { intros k. by apply (GetItem_new N). }
  destruct (F0 0) as (E0 & _ & Hcnt).
  destruct cfg as [ms bk P db pb g tr od]. simpl in Hmax, Hbuf. subst ms.
  set (B0 := c_buckets c0) in *. set (m := c_bucketMask c0) in *.
  clearbody B0 m. subst c0.
  destruct (three_entries_linked bk P db pb g tr od A B C tA tB tC dA dB dC
              vA vB vC B0 m Hbuf HAB HAC HBC HvA HvB HvC
              (λ k, proj1 (proj2 (F0 k))) Hcnt)
    as (B3 & R & N6 & GA & GB & GC).
  cbv zeta in R. fold es in R.
  split.
  - intros HP. simpl in HP.
    destruct (sweep_takes_all bk P db pb g tr od A B C (wrap64 (tA + dA))
                (wrap64 (tB + dB)) (wrap64 (tC + dC)) vA vB vC B3 m
                HP HAB HAC HBC N6 GA GB GC)
      as (B6 & G & N9 & A9 & B9 & C9).
    cbv zeta in G. rewrite G in R.
    eexists. split; [exact R|]. simpl. done.
  - intros HP. simpl in HP. subst P.
    destruct (sweep_takes_one bk db pb g tr od A B C (wrap64 (tA + dA))
                (wrap64 (tB + dB)) (wrap64 (tC + dC)) vA vB vC B3 m
                HAB HAC N6 GA GB GC)
      as (B4 & G & N7 & A7 & B7 & C7).
    cbv zeta in G. rewrite G in R.
    eexists. split; [exact R|]. simpl. done.
Qed.

Lemma three_sets_with_room_for_two_witness :
  ∃ c, run [CallSet 0 1 (VOther 0) 100; CallSet 1 2 (VOther 1) 100;
            CallSet 2 3 (VOther 2) 100; RecvPromote; RecvPromote; RecvPromote]
         (empty16 (ItemsToPrune 10 (MaxSize 2 ConfigureInt64))) = Some c
       ∧ c_dropped c = 3 ∧ ItemCount c = 0.
Proof.
  destruct (proj1 (three_sets_with_room_for_two (λ n, n)
                     (ItemsToPrune 10 (MaxSize 2 ConfigureInt64))
                     (empty16 (ItemsToPrune 10 (MaxSize 2 ConfigureInt64)))
                     1 2 3 0 1 2 100 100 100 (VOther 0) (VOther 1) (VOther 2)
                     eq_refl
                     ltac:(unfold max_int64; simpl; lia)
                     eq_refl
                     ltac:(simpl; lia)
                     ltac:(lia) ltac:(lia) ltac:(lia)
                     eq_refl eq_refl eq_refl)
              ltac:(simpl; lia))
    as (c & R & _ & _ & D & _ & _ & _ & _ & _ & _ & N).
  exists c. split; [exact R|]. split; [exact D|exact N].
Defined.

(** C1 (as stated) fails: with max size 2 and [itemsToPrune] 10, after
    [Set(1)], [Set(2)], [Set(3)] and the worker's three turns, three
    evictions are counted, the callback has been called on the entries
    under 1, 2 and 3, in that order, and [ItemCount] is 0. *)
Lemma three_sets_evict_all_three :
  ∃ c0 c,
    NewCacheInt64 (λ n, n) (OnDelete (ItemsToPrune 10 (MaxSize 2 ConfigureInt64)))
    = Some c0
    ∧ run [CallSet 0 1 (VOther 0) 100; CallSet 1 2 (VOther 1) 100;
           CallSet 2 3 (VOther 2) 100; RecvPromote; RecvPromote; RecvPromote] c0
      = Some c
    ∧ c_promotables c = [] ∧ c_deletables c = []
    ∧ c_dropped c = 3
    ∧ omap (λ p, i_key <$> load p c) (c_onDeleteCalls c) = [1; 2; 3]
    ∧ ItemCount c = 0.
Proof.
  exists (empty16 (OnDelete (ItemsToPrune 10 (MaxSize 2 ConfigureInt64)))).
  exists (after [CallSet 0 1 (VOther 0) 100; CallSet 1 2 (VOther 1) 100;
                 CallSet 2 3 (VOther 2) 100; RecvPromote; RecvPromote; RecvPromote]
            (empty16 (OnDelete (ItemsToPrune 10 (MaxSize 2 ConfigureInt64))))).
  split; [reflexivity|]. vm_compute. repeat split; reflexivity.
Qed.


(** * Further properties *)

(** ** Machine integers *)

Lemma wrap64_range z : min_int64 ≤ wrap64 z ≤ max_int64.
Proof.
  unfold wrap64, min_int64, max_int64.
  pose proof (Z.mod_pos_bound (z + 2 ^ 63) (2 ^ 64)). lia.
Qed.

Lemma wrap64_add_l a b : wrap64 (wrap64 a + b) = wrap64 (a + b).
Proof.
  unfold wrap64. f_equal.
  replace ((a + 2 ^ 63) mod 2 ^ 64 - 2 ^ 63 + b + 2 ^ 63)
    with ((a + 2 ^ 63) mod 2 ^ 64 + b) by lia.
  rewrite Zplus_mod_idemp_l. f_equal. lia.
Qed.

Lemma wrap64_add_r a b : wrap64 (a + wrap64 b) = wrap64 (a + b).
Proof. rewrite (Z.add_comm a), wrap64_add_l. f_equal. lia. Qed.

Lemma wrap32_id z : - 2 ^ 31 ≤ z < 2 ^ 31 → wrap32 z = z.
Proof. intros H. unfold wrap32. rewrite Z.mod_small by lia. lia. Qed.

Lemma wrap32_add_l a b : wrap32 (wrap32 a + b) = wrap32 (a + b).
Proof.
  unfold wrap32. f_equal.
  replace ((a + 2 ^ 31) mod 2 ^ 32 - 2 ^ 31 + b + 2 ^ 31)
    with ((a + 2 ^ 31) mod 2 ^ 32 + b) by lia.
  rewrite Zplus_mod_idemp_l. f_equal. lia.
Qed.

(** ** Deadlines *)

(** X1: [TTL] is negative exactly when [Expired] holds, as long as the
    difference between the deadline and the clock fits in [int64]; right
    after [Extend(d)] the [TTL] read at the same clock is [d], even when
    the new deadline wraps around; and when it does not wrap, the extended
    item is expired exactly when [d] is negative. *)
Theorem TTL_Expired_Extend_agree :
  (∀ (now : Z) (i : ItemInt64),
     min_int64 ≤ i_expires i - now ≤ max_int64 →
     Expired now i = (TTL now i <? 0))
  ∧ (∀ (now d : Z) (i : ItemInt64),
       min_int64 ≤ d ≤ max_int64 →
       TTL now (Extend now d i) = d)
  ∧ (∀ (now d : Z) (i : ItemInt64),
       min_int64 ≤ now + d ≤ max_int64 →
       Expired now (Extend now d i) = (d <? 0)).
Proof.
  split; [|split].
  - intros now i H. unfold Expired, TTL. rewrite wrap64_id by done.
    destruct (Z.ltb_spec (i_expires i) now), (Z.ltb_spec (i_expires i - now) 0);
      (done || lia).
  - intros now d i Hd. unfold TTL, Extend. simpl.
    replace (wrap64 (now + d) - now) with (wrap64 (now + d) + - now) by lia.
    rewrite wrap64_add_l. replace (now + d + - now) with d by lia.
    by apply wrap64_id.
  - intros now d i H. unfold Expired, Extend. simpl. rewrite wrap64_id by done.
    destruct (Z.ltb_spec (now + d) now), (Z.ltb_spec d 0); (done || lia).
Qed.

Lemma TTL_Expired_Extend_agree_witness :
  Expired 50 (mkItem 7 0 0 100 1 (VOther 0) None) = false
  ∧ TTL 50 (Extend 50 (-3) (mkItem 7 0 0 100 1 (VOther 0) None)) = -3
  ∧ Expired 50 (Extend 50 (-3) (mkItem 7 0 0 100 1 (VOther 0) None)) = true.
Proof.
  split; [|split].
  - apply (proj1 TTL_Expired_Extend_agree 50 (mkItem 7 0 0 100 1 (VOther 0) None)).
    unfold min_int64, max_int64. simpl. lia.
  - apply (proj1 (proj2 TTL_Expired_Extend_agree) 50 (-3)).
    unfold min_int64, max_int64. lia.
  - apply (proj2 (proj2 TTL_Expired_Extend_agree) 50 (-3)).
    unfold min_int64, max_int64. lia.
Defined.

(** ** Shards *)

(** X2: whatever [count] it is given, [Buckets] leaves a bucket count that
    is a power of two between 1 and 2^31. *)
Theorem Buckets_leaves_a_power_of_two :
  ∀ (count : Z) (cfg : ConfigurationInt64),
    0 ≤ count < 2 ^ 32 →
    is_pow2 (buckets (Buckets count cfg))
    ∧ 1 ≤ buckets (Buckets count cfg) ≤ 2 ^ 31.
Proof.
  intros count cfg H. pose proof (Buckets_test count H) as T.
  unfold Buckets. cbn [buckets].
  destruct ((count =? 0) || negb (_ =? count)) eqn:E.
  - split; [|lia]. exists 4. split; [lia|reflexivity].
  - destruct (proj1 T eq_refl) as (k & Hk & ->). split; [by exists k|].
    assert (k < 32).
    { destruct (decide (k < 32)); [done|].
      assert (2 ^ 32 ≤ 2 ^ k) by (apply Z.pow_le_mono_r; lia). lia. }
    split; [pose proof (Z.pow_pos_nonneg 2 k); lia|].
    apply Z.pow_le_mono_r; lia.
Qed.

Lemma Buckets_leaves_a_power_of_two_witness :
  is_pow2 (buckets (Buckets 12 ConfigureInt64))
  ∧ 1 ≤ buckets (Buckets 12 ConfigureInt64) ≤ 2 ^ 31.
Proof. apply (Buckets_leaves_a_power_of_two 12 ConfigureInt64). lia. Defined.

(** X3: with [2^k] shards and mask [2^k - 1], the shard of a key is the key
    modulo [2^k]; it exists for every key, negative ones included. *)
Theorem bucket_is_the_key_modulo_the_count :
  ∀ (c : CacheInt64) (key k : Z),
    0 ≤ k →
    c_bucketMask c = 2 ^ k - 1 →
    Z.of_nat (length (c_buckets c)) = 2 ^ k →
    bucket key c = Some (Z.to_nat (key mod 2 ^ k))
    ∧ (Z.to_nat (key mod 2 ^ k) < length (c_buckets c))%nat.
Proof.
  intros c key k Hk Hm Hl. unfold bucket. rewrite Hm, Hl.
  change (2 ^ k - 1) with (Z.pred (2 ^ k)). rewrite <- Z.ones_equiv.
  rewrite Z.land_ones by done.
  pose proof (Z.mod_pos_bound key (2 ^ k) ltac:(by apply Z.pow_pos_nonneg)) as B.
  destruct (Z.leb_spec 0 (key mod 2 ^ k)); [|lia].
  destruct (Z.ltb_spec (key mod 2 ^ k) (2 ^ k)); [|lia].
  split; [done|]. lia.
Qed.

Lemma bucket_is_the_key_modulo_the_count_witness :
  bucket (-3) (empty16 ConfigureInt64) = Some 13%nat.
Proof.
  apply (bucket_is_the_key_modulo_the_count (empty16 ConfigureInt64) (-3) 4);
    [lia|reflexivity|reflexivity].
Defined.

(** ** Delete *)

Lemma with_buckets_same c : with_buckets (c_buckets c) c = c.
Proof. by destruct c. Qed.

(** X4: for a key whose shard exists [Delete] returns.  When the key is
    stored it answers [true], the key is gone, the item count drops by one
    and exactly one delete notice, for the item that was stored, is queued;
    when the key is not stored it answers [false] and the cache is left as
    it was.  Either way the other keys, the recency list, the size and the
    items themselves are untouched: unlinking is left to the worker. *)
Theorem Delete_unmaps_and_notifies :
  ∀ (c : CacheInt64) (key : Z),
    is_Some (bucket key c) →
    ∃ r c',
      Delete key c = Some (r, c')
      ∧ GetItem key c' = Some None
      ∧ (∀ k, k ≠ key → GetItem k c' = GetItem k c)
      ∧ match GetItem key c with
        | Some (Some p) =>
            r = true
            ∧ c_deletables c' = c_deletables c ++ [p]
            ∧ ItemCount c' = ItemCount c - 1
        | _ => r = false ∧ c' = c
        end
      ∧ c_list c' = c_list c ∧ c_size c' = c_size c
      ∧ c_items c' = c_items c ∧ c_promotables c' = c_promotables c
      ∧ c_onDeleteCalls c' = c_onDeleteCalls c.
Proof.
  intros c key [bi Hb]. destruct (bucket_lookup key c bi Hb) as [b Hl].
  unfold Delete, bucket_delete. rewrite Hb. simpl. rewrite Hl. simpl.
  rewrite (GetItem_intro key c bi b Hb Hl).
  destruct (b !! key) as [p|] eqn:Ek.
  - eexists true, _. split; [reflexivity|].
    set (c1 := with_buckets _ c).
    destruct (buckets_after_delete c (send_deletable p c1) key bi b p Hb Hl Ek)
      as (Hc & Hg & Ho); [reflexivity|reflexivity|].
    repeat split; done.
  - eexists false, _. split; [reflexivity|].
    rewrite delete_id by done. rewrite list_insert_id by done.
    rewrite with_buckets_same.
    rewrite (GetItem_intro key c bi b Hb Hl), Ek. repeat split; done.
Qed.

Lemma Delete_unmaps_and_notifies_witness :
  ∃ r c', Delete 7 one_item = Some (r, c')
          ∧ GetItem 7 c' = Some None
          ∧ r = true ∧ c_deletables c' = [0%nat] ∧ c_list c' = [0%nat].
Proof.
  destruct (Delete_unmaps_and_notifies one_item 7) as (r & c' & D & G & _ & M & L & _).
  - by exists 7%nat.
  - exists r, c'. change (GetItem 7 one_item) with (Some (Some 0%nat)) in M.
    destruct M as (-> & Hd & _). repeat split; done.
Defined.

(** ** Set *)

Lemma GetItem_other_key c c' bi b (f : gmap Z nat → gmap Z nat) :
  c_buckets c !! bi = Some b →
  c_buckets c' = <[bi := f b]> (c_buckets c) →
  c_bucketMask c' = c_bucketMask c →
  ∀ k, f b !! k = b !! k → GetItem k c' = GetItem k c.
Proof.
  intros Hl Hb Hm k Hk. unfold GetItem, bucket_get.
  rewrite (bucket_ext k c c') by (rewrite ?Hb, ?length_insert; done).
  destruct (bucket k c) as [bk|] eqn:Ek; [simpl|done].
  rewrite Hb. destruct (decide (bk = bi)) as [->|Hne].
  - rewrite list_lookup_insert_eq by (by eapply lookup_lt_Some).
    rewrite Hl. simpl. by rewrite Hk.
  - by rewrite list_lookup_insert_ne.
Qed.

(** X5: for a key whose shard exists [Set] returns; every other key keeps
    its entry, the item count grows by one exactly when the key was not
    stored before, no item that existed is changed, and the recency list
    and the size are as they were: linking and unlinking are left to the
    worker. *)
Theorem Set_leaves_the_rest_alone :
  ∀ (c : CacheInt64) (now key : Z) (v : value) (d : Z),
    is_Some (bucket key c) →
    ∃ c',
      Set_ now key v d c = Some c'
      ∧ (∀ k, k ≠ key → GetItem k c' = GetItem k c)
      ∧ ItemCount c'
        = ItemCount c
          + match GetItem key c with Some (Some _) => 0 | _ => 1 end
      ∧ (∀ p i, load p c = Some i → load p c' = Some i)
      ∧ c_list c' = c_list c ∧ c_size c' = c_size c
      ∧ c_cells c' = c_cells c ∧ c_config c' = c_config c
      ∧ c_onDeleteCalls c' = c_onDeleteCalls c.
Proof.
  intros c now key v d [bi Hb]. destruct (bucket_lookup key c bi Hb) as [b Hl].
  pose proof (set_spec c now key v d false bi b Hb Hl) as S. cbv zeta in S.
  unfold Set_. rewrite S. simpl. eexists. split; [reflexivity|].
  set (c1 := with_buckets _ _).
  set (c2 := match b !! key with Some old => send_deletable old | None => id end c1).
  assert (E2 : c_buckets c2 = <[bi := <[key := length (c_items c)]> b]> (c_buckets c)
               ∧ c_bucketMask c2 = c_bucketMask c
               ∧ c_items c2 = c_items c ++ [newItemInt64 key v (wrap64 (now + d)) false]
               ∧ c_list c2 = c_list c ∧ c_size c2 = c_size c
               ∧ c_cells c2 = c_cells c ∧ c_config c2 = c_config c
               ∧ c_onDeleteCalls c2 = c_onDeleteCalls c).
  { unfold c2. destruct (b !! key); repeat split; reflexivity. }
  destruct E2 as (Eb & Em & Ei & El & Es & Ec & Ef & Eo).
  split.
  { intros k Hk.
    apply (GetItem_other_key c _ bi b (λ m, <[key := length (c_items c)]> m) Hl).
    - rewrite buckets_promote. exact Eb.
    - rewrite bucketMask_promote. exact Em.
    - by apply lookup_insert_ne. }
  split.
  { rewrite (GetItem_intro key c bi b Hb Hl).
    unfold ItemCount. rewrite buckets_promote, Eb.
    rewrite (count_insert _ bi b _ Hl). unfold bucket_itemCount.
    destruct (b !! key) eqn:Ek.
    - rewrite map_size_insert_Some by done. lia.
    - rewrite map_size_insert_None by done. lia. }
  split.
  { intros p i L. unfold load. rewrite items_promote, Ei.
    by apply lookup_app_l_Some. }
  unfold promote. destruct (_ <? _); repeat split; simpl; assumption.
Qed.

Lemma Set_leaves_the_rest_alone_witness :
  ∃ c', Set_ 5 8 (VOther 1) 10 one_item = Some c'
        ∧ GetItem 7 c' = Some (Some 0%nat)
        ∧ ItemCount c' = 2
        ∧ c_list c' = [0%nat].
Proof.
  destruct (Set_leaves_the_rest_alone one_item 5 8 (VOther 1) 10)
    as (c' & S & G & N & _ & L & _).
  - by exists 8%nat.
  - exists c'. split; [exact S|]. split; [by rewrite G|]. split; [exact N|exact L].
Defined.

(** ** Replace *)

(** X6: [Replace] on a key that is not stored answers [false] and leaves
    the cache as it was.  On a stored key it answers [true] and stores a
    fresh untracked item with the new value whose deadline is the old
    deadline moved by the time that passed between the two clock readings
    of [Replace] (the old deadline itself when the clock stood still); the
    old item gets one delete notice. *)
Theorem Replace_keeps_the_remaining_time :
  ∀ (c : CacheInt64) (nowTTL nowSet key : Z) (v : value),
    is_Some (bucket key c) →
    match GetItem key c with
    | Some (Some p) =>
        ∀ i, load p c = Some i →
          ∃ c',
            Replace nowTTL nowSet key v c = Some (true, c')
            ∧ GetItem key c' = Some (Some (length (c_items c)))
            ∧ load (length (c_items c)) c'
              = Some (newItemInt64 key v
                        (wrap64 (i_expires i + (nowSet - nowTTL))) false)
            ∧ (nowSet = nowTTL → min_int64 ≤ i_expires i ≤ max_int64 →
               deadline_of key c' = Some (i_expires i))
            ∧ c_deletables c' = c_deletables c ++ [p]
    | _ => Replace nowTTL nowSet key v c = Some (false, c)
    end.
Proof.
  intros c nowTTL nowSet key v [bi Hb].
  destruct (bucket_lookup key c bi Hb) as [b Hl].
  rewrite (GetItem_intro key c bi b Hb Hl).
  unfold Replace, bucket_get. rewrite Hb. simpl. rewrite Hl. simpl.
  destruct (b !! key) as [p|] eqn:Ek; [|reflexivity].
  intros i L. rewrite L. simpl.
  destruct (set_post c nowSet key v (TTL nowTTL i) false bi b Hb Hl)
    as (c' & S & _ & Ld & _ & G).
  pose proof (set_spec c nowSet key v (TTL nowTTL i) false bi b Hb Hl) as S'.
  cbv zeta in S'. rewrite S in S'. injection S' as E'.
  assert (Ex : wrap64 (nowSet + TTL nowTTL i)
               = wrap64 (i_expires i + (nowSet - nowTTL))).
  { unfold TTL. rewrite wrap64_add_r. f_equal. lia. }
  rewrite Ex in Ld.
  exists c'. unfold Set_. rewrite S. simpl.
  split; [reflexivity|]. split; [exact G|]. split; [exact Ld|]. split.
  - intros -> Hr. unfold deadline_of. rewrite G. simpl. rewrite Ld. simpl.
    f_equal. replace (i_expires i + (nowTTL - nowTTL)) with (i_expires i) by lia.
    apply wrap64_id. exact Hr.
  - rewrite E', deletables_promote, Ek. reflexivity.
Qed.

Lemma Replace_keeps_the_remaining_time_witness :
  ∃ c', Replace 40 40 7 (VOther 9) one_item = Some (true, c')
        ∧ deadline_of 7 c' = Some 100
        ∧ c_deletables c' = [0%nat].
Proof.
  pose proof (Replace_keeps_the_remaining_time one_item 40 40 7 (VOther 9)) as H.
  change (GetItem 7 one_item) with (Some (Some 0%nat)) in H.
  destruct (H ltac:(by exists 7%nat) _ eq_refl) as (c' & R & _ & _ & D & E).
  exists c'. split; [exact R|]. split; [|exact E].
  apply D; [reflexivity|]. unfold min_int64, max_int64. simpl. lia.
Defined.

(** ** Reference counts *)

Lemma Release_track i :
  - 2 ^ 31 ≤ i_refCount i < 2 ^ 31 → Release (track i) = i.
Proof.
  intros H. destruct i as [k pr rc ex sz v e]. unfold Release, track, set_refCount.
  simpl in *. f_equal. rewrite wrap32_add_l.
  replace (rc + 1 + -1) with rc by lia. by apply wrap32_id.
Qed.

Lemma alter_twice {A} (f g : A → A) (l : list A) p x :
  l !! p = Some x → g (f x) = x → alter g p (alter f p l) = l.
Proof.
  intros L E. apply list_eq. intros q. rewrite !list_lookup_alter.
  destruct (decide (p = q)) as [<-|]; [|done]. rewrite L. simpl.
  rewrite decide_True by done. simpl. by rewrite E.
Qed.

(** X7: for a key whose shard exists, [TrackingGet] on a stored key does
    what [Get] does and raises the reference count of the item by one; a
    [Release] of the item returned brings the cache back to the state a
    plain [Get] would have left.  On a key that is not stored [TrackingGet]
    answers [NilTracked] and changes nothing. *)
Theorem TrackingGet_then_Release :
  ∀ (c : CacheInt64) (now key : Z),
    is_Some (bucket key c) →
    match GetItem key c with
    | Some (Some p) =>
        ∀ i, load p c = Some i →
          ∃ c1,
            TrackingGet now key c = Some (Some p, c1)
            ∧ load p c1 = Some (track i)
            ∧ (- 2 ^ 31 ≤ i_refCount i < 2 ^ 31 →
               Get now key c = Some (Some p, ReleaseItem p c1))
    | _ => TrackingGet now key c = Some (None, c)
    end.
Proof.
  intros c now key [bi Hb]. destruct (bucket_lookup key c bi Hb) as [b Hl].
  pose proof (GetItem_intro key c bi b Hb Hl) as HG. rewrite HG.
  destruct (b !! key) as [p|] eqn:Ek.
  - intros i L. pose proof (Get_found now key c p i HG L) as EG.
    unfold TrackingGet. rewrite EG. simpl. eexists. split; [reflexivity|].
    set (c0 := if Expired now i then c else promote p c).
    assert (L0 : load p c0 = Some i).
    { unfold c0. destruct (Expired now i); [done|]. by rewrite load_promote. }
    split; [by apply load_modify_eq|].
    intros Hr. f_equal. f_equal. unfold ReleaseItem, modify. simpl.
    rewrite (alter_twice _ _ _ p i L0) by (by apply Release_track).
    by destruct c0.
  - unfold TrackingGet, Get, bucket_get. rewrite Hb. simpl. rewrite Hl. simpl.
    by rewrite Ek.
Qed.

Lemma TrackingGet_then_Release_witness :
  ∃ c1, TrackingGet 0 7 one_item = Some (Some 0%nat, c1)
        ∧ (i_refCount <$> load 0%nat c1) = Some 1
        ∧ Get 0 7 one_item = Some (Some 0%nat, ReleaseItem 0%nat c1).
Proof.
  pose proof (TrackingGet_then_Release one_item 0 7) as H.
  change (GetItem 7 one_item) with (Some (Some 0%nat)) in H.
  destruct (H ltac:(by exists 7%nat) _ eq_refl) as (c1 & T & L1 & R).
  exists c1. split; [exact T|]. split; [by rewrite L1|].
  apply R. simpl. lia.
Defined.

(** ** Counters *)

Lemma GetIncrVal_via_GetItem now key c :
  GetIncrVal now key c
  = (item ← GetItem key c;
     match item with
     | Some p =>
         e ← load p c;
         if now <? i_expires e then
           match as_int64_ptr (i_value e) with
           | Some v => c_cells c !! v
           | None => Some 0
           end
         else Some 0
     | None => Some 0
     end).
Proof.
  unfold GetIncrVal, GetItem, bucket_getIncrVal.
  destruct (bucket key c) as [bi|]; [simpl|done].
  destruct (bucket_get bi key c) as [[p|]|]; simpl; try done.
  destruct (load p c) as [e|]; simpl; [|done].
  destruct (now <? i_expires e); [|done].
  destruct (as_int64_ptr (i_value e)) as [v|]; [|done]. simpl.
  by destruct (c_cells c !! v).
Qed.

Lemma Incr_stores c now key n d bi b :
  bucket key c = Some bi →
  c_buckets c !! bi = Some b →
  match b !! key with
  | None => True
  | Some old => ∃ i, load old c = Some i
                     ∧ (i_expires i ≤ now ∨ as_int64_ptr (i_value i) = None)
  end →
  let item := length (c_items c) in
  let pv := length (c_cells c) in
  ∃ c',
    Incr now key n d c = Some (n, c')
    ∧ IncrPromote now key n d c = Some (n, c')
    ∧ GetItem key c' = Some (Some item)
    ∧ load item c'
      = Some (newItemInt64 key (VInt64Ptr pv) (wrap64 (now + d)) false)
    ∧ c_cells c' !! pv = Some n.
Proof.
  intros Hb Hl Hk item pv.
  pose proof (incrNow_store c now key n d false bi b Hl Hk) as S.
  cbv zeta in S. fold item pv in S.
  eexists. unfold Incr, IncrPromote, bucket_incr. rewrite Hb. simpl.
  rewrite S. simpl.
  split; [reflexivity|]. split; [reflexivity|]. split.
  { unfold GetItem, bucket_get. erewrite bucket_ext; [rewrite Hb| |].
    - simpl. rewrite buckets_promote. simpl.
      rewrite list_lookup_insert_eq by eauto using bucket_Some.
      simpl. rewrite lookup_insert_eq. reflexivity.
    - rewrite bucketMask_promote. reflexivity.
    - rewrite buckets_promote. simpl. apply length_insert. }
  split.
  { rewrite load_promote. unfold load, item. simpl.
    apply list_lookup_middle. reflexivity. }
  unfold promote. destruct (_ <? _); simpl; apply list_lookup_middle; reflexivity.
Qed.

(** X8: take a key whose shard exists, and whose stored item, if any, is
    allocated together with the counter it points to.  Then [Incr] and
    [IncrPromote] return the value [GetIncrVal] reads at the same instant
    plus the delta, wrapped to [int64]; and after [Incr] the key has a
    deadline before which [GetIncrVal] reads the value [Incr] returned, and
    from which on it reads 0. *)
Theorem Incr_agrees_with_GetIncrVal :
  ∀ (c : CacheInt64) (now key n d : Z),
    is_Some (bucket key c) →
    (∀ p, GetItem key c = Some (Some p) →
       ∃ i, load p c = Some i
            ∧ ∀ v, i_value i = VInt64Ptr v → is_Some (c_cells c !! v)) →
    min_int64 ≤ n ≤ max_int64 →
    ∃ old r c' c'' e,
      GetIncrVal now key c = Some old
      ∧ Incr now key n d c = Some (r, c')
      ∧ IncrPromote now key n d c = Some (r, c'')
      ∧ r = wrap64 (old + n)
      ∧ deadline_of key c' = Some e
      ∧ ∀ now', GetIncrVal now' key c' = Some (if now' <? e then r else 0).
Proof.
  intros c now key n d [bi Hb] Hwf Hn.
  destruct (bucket_lookup key c bi Hb) as [b Hl].
  pose proof (GetItem_intro key c bi b Hb Hl) as HG.
  assert (Store :
    match b !! key with
    | None => True
    | Some old => ∃ i, load old c = Some i
                       ∧ (i_expires i ≤ now ∨ as_int64_ptr (i_value i) = None)
    end →
    GetIncrVal now key c = Some 0 →
    ∃ old r c' c'' e,
      GetIncrVal now key c = Some old
      ∧ Incr now key n d c = Some (r, c')
      ∧ IncrPromote now key n d c = Some (r, c'')
      ∧ r = wrap64 (old + n)
      ∧ deadline_of key c' = Some e
      ∧ ∀ now', GetIncrVal now' key c' = Some (if now' <? e then r else 0)).
  { intros Hk H0.
    destruct (Incr_stores c now key n d bi b Hb Hl Hk) as (c' & I & IP & G & L & C).
    exists 0, n, c', c', (wrap64 (now + d)).
    split; [exact H0|]. split; [exact I|]. split; [exact IP|].
    split; [symmetry; by apply wrap64_id|].
    split; [unfold deadline_of; rewrite G; simpl; by rewrite L|].
    intros now'. rewrite GetIncrVal_via_GetItem, G. simpl. rewrite L. simpl.
    destruct (now' <? wrap64 (now + d)); [exact C|done]. }
  destruct (b !! key) as [p|] eqn:Ek.
  - destruct (Hwf p HG) as (i & L & Hc).
    assert (H0 : GetIncrVal now key c
                 = if now <? i_expires i then
                     match as_int64_ptr (i_value i) with
                     | Some v => c_cells c !! v
                     | None => Some 0
                     end
                   else Some 0).
    { rewrite GetIncrVal_via_GetItem, HG. simpl. by rewrite L. }
    destruct (Z.ltb_spec now (i_expires i)) as [Hlive|Hdead].
    + destruct (i_value i) as [v| |] eqn:Ev; simpl in H0.
      * destruct (Hc v eq_refl) as [old Ho].
        destruct (Incr_on_live_counter c now key n d bi b p i v old
                    Hb Hl Ek L Hlive Ev Ho) as (c' & I & IP & C & L' & _ & G).
        exists old, (wrap64 (old + n)), c', (promote p c'), (i_expires i).
        split; [by rewrite H0|]. split; [exact I|]. split; [exact IP|].
        split; [done|].
        split; [unfold deadline_of; rewrite G; simpl; by rewrite L'|].
        intros now'. rewrite GetIncrVal_via_GetItem, G. simpl. rewrite L'. simpl.
        rewrite Ev. simpl. destruct (now' <? i_expires i); [exact C|done].
      * apply Store; [|exact H0]. exists i. rewrite Ev. split; [done|by right].
      * apply Store; [|exact H0]. exists i. rewrite Ev. split; [done|by right].
    + apply Store; [|exact H0]. exists i. split; [done|by left].
  - apply Store; [done|]. rewrite GetIncrVal_via_GetItem, HG. done.
Qed.

Lemma Incr_agrees_with_GetIncrVal_witness :
  ∃ r c', Incr 0 7 5 100 (empty16 ConfigureInt64) = Some (r, c')
          ∧ r = 5
          ∧ GetIncrVal 99 7 c' = Some 5 ∧ GetIncrVal 100 7 c' = Some 0.
Proof.
  destruct (Incr_agrees_with_GetIncrVal (empty16 ConfigureInt64) 0 7 5 100)
    as (old & r & c' & c'' & e & G & I & _ & -> & D & H).
  - by exists 7%nat.
  - intros p Hp. discriminate Hp.
  - unfold min_int64, max_int64. simpl. lia.
  - injection G as <-. exists (wrap64 (0 + 5)), c'. split; [exact I|].
    split; [reflexivity|].
    assert (e = 100) as ->.
    { vm_compute in I. injection I as <-. vm_compute in D. congruence. }
    split; [apply (H 99)|apply (H 100)].
Defined.

(** ** The two expiry tests *)

(** X9: on a stored key [GetWithNowNoPromote] returns the item and reports
    it expired from the deadline on, whereas [Expired], and with it the
    promotion by [Get], counts the item as expired only after the deadline:
    the two answers agree at every instant but the deadline itself, where
    [Get] still queues a promotion for an item that [GetWithNowNoPromote]
    reports expired.  On a key that is not stored [GetWithNowNoPromote]
    answers [nil] and [true]. *)
Theorem expiry_tests_differ_at_the_deadline :
  ∀ (c : CacheInt64) (now key : Z),
    is_Some (bucket key c) →
    match GetItem key c with
    | Some (Some p) =>
        ∀ i, load p c = Some i →
          GetWithNowNoPromote key now c = Some (Some p, i_expires i <=? now)
          ∧ Get now key c
            = Some (Some p, if i_expires i <? now then c else promote p c)
          ∧ ((i_expires i <=? now) = Expired now i ↔ now ≠ i_expires i)
    | _ => GetWithNowNoPromote key now c = Some (None, true)
    end.
Proof.
  intros c now key [bi Hb]. destruct (bucket_lookup key c bi Hb) as [b Hl].
  pose proof (GetItem_intro key c bi b Hb Hl) as HG. rewrite HG.
  unfold GetWithNowNoPromote, bucket_get. rewrite Hb. simpl. rewrite Hl. simpl.
  destruct (b !! key) as [p|] eqn:Ek; [|done].
  intros i L. rewrite L. simpl. split; [|split].
  - destruct (Z.ltb_spec now (i_expires i)), (Z.leb_spec (i_expires i) now);
      done || lia.
  - apply (Get_found now key c p i HG L).
  - unfold Expired.
    destruct (Z.ltb_spec (i_expires i) now), (Z.leb_spec (i_expires i) now);
      split; intros; done || lia.
Qed.

Lemma expiry_tests_differ_at_the_deadline_witness :
  GetWithNowNoPromote 7 100 one_item = Some (Some 0%nat, true)
  ∧ Get 100 7 one_item = Some (Some 0%nat, promote 0%nat one_item).
Proof.
  pose proof (expiry_tests_differ_at_the_deadline one_item 100 7) as H.
  change (GetItem 7 one_item) with (Some (Some 0%nat)) in H.
  destruct (H ltac:(by exists 7%nat) _ eq_refl) as (G & P & _).
  split; [exact G|exact P].
Defined.

(** ** The sweep in full *)

Lemma gc_spares_ext c c' :
  c_config c' = c_config c →
  (∀ p, i_refCount <$> load p c' = i_refCount <$> load p c) →
  ∀ p, gc_spares c' p = gc_spares c p.
Proof.
  intros Ec El p. unfold gc_spares. specialize (El p). rewrite Ec.
  destruct (load p c'), (load p c); simpl in El; try done.
  by injection El as ->.
Qed.

Lemma filter_spares_ext c c' (b : bool) (l : list nat) :
  (∀ p, gc_spares c' p = gc_spares c p) →
  filter (λ p, gc_spares c' p = b) l = filter (λ p, gc_spares c p = b) l.
Proof. intros H. apply list_filter_iff. intros p. by rewrite H. Qed.

Lemma gc_spares_false c q j :
  load q c = Some j →
  gc_spares c q = negb (negb (tracking (c_config c)) || (i_refCount j =? 0)).
Proof.
  intros L. unfold gc_spares. rewrite L.
  by destruct (tracking (c_config c)), (i_refCount j =? 0).
Qed.

Lemma gc_evict_spares q j c c' :
  load q c = Some j → gc_evict q j c = Some c' →
  (∀ p, gc_spares c' p = gc_spares c p)
  ∧ (∀ p, item_size c' p = item_size c p).
Proof.
  intros L E.
  destruct (gc_evict_inv q j c c' L E)
    as (bi & b & _ & _ & _ & Ecfg & _ & _ & _ & _ & _ & Ho & Hq & _).
  assert (∀ p, (i_refCount <$> load p c' = i_refCount <$> load p c)
               ∧ (i_size <$> load p c' = i_size <$> load p c)) as H.
  { intros p. destruct (decide (p = q)) as [->|Hne]; [|by rewrite Ho].
    rewrite L. by destruct Hq as [-> | ->]. }
  split.
  - apply gc_spares_ext; [done|]. intros p. apply H.
  - intros p. unfold item_size. by rewrite (proj2 (H p)).
Qed.

Lemma wrap64_sub_l a b : wrap64 (wrap64 a - b) = wrap64 (a - b).
Proof. apply (wrap64_add_l a (- b)). Qed.

(** The loop of the sweep, from a cursor that stands at the last item of
    [pre], the list being [pre ++ suf]. *)
Lemma gc_loop_spec n :
  ∀ pre suf c d,
    list_ok c →
    c_list c = pre ++ suf →
    min_int64 ≤ d ≤ max_int64 →
    min_int64 ≤ c_size c ≤ max_int64 →
    let E := filter (λ p, gc_spares c p = false) (drop (length pre - n) pre) in
    ∃ d' c',
      gc_loop n (match length pre with O => None | S i => Some i end) d c
      = Some (d', c')
      ∧ list_ok c'
      ∧ c_list c'
        = take (length pre - n) pre
          ++ filter (λ p, gc_spares c p = true) (drop (length pre - n) pre)
          ++ suf
      ∧ d' = wrap64 (d + Z.of_nat (length E))
      ∧ c_size c' = wrap64 (c_size c - weight c E)
      ∧ c_onDeleteCalls c'
        = c_onDeleteCalls c ++ (if onDelete (c_config c) then reverse E else [])
      ∧ (∀ p, load p c'
              = if decide (p ∈ E)
                then (λ j, set_promotions (-2)
                             (set_element (Some (mkElement None)) j))
                       <$> load p c
                else load p c)
      ∧ (∀ q j, q ∈ E → load q c = Some j → GetItem (i_key j) c' = Some None)
      ∧ (∀ k, (∀ q j, q ∈ E → load q c = Some j → i_key j ≠ k) →
              GetItem k c' = GetItem k c)
      ∧ c_config c' = c_config c ∧ c_bucketMask c' = c_bucketMask c
      ∧ c_listId c' = c_listId c ∧ c_deletables c' = c_deletables c
      ∧ c_promotables c' = c_promotables c ∧ c_dropped c' = c_dropped c.
Proof.
  induction n as [|n IH]; intros pre suf c d Hok Hl Hd Hs E.
  { exists d, c. subst E. rewrite Nat.sub_0_r, drop_all, firstn_all. simpl.
    rewrite Z.add_0_r, Z.sub_0_r, !wrap64_id by done.
    rewrite ?app_nil_r.
    split; [by destruct (length pre)|]. split; [exact Hok|].
    repeat split; first
      [ done
      | by destruct (onDelete (c_config c)); rewrite ?app_nil_r
      | by intros ? ? ?%elem_of_nil ]. }
  destruct pre as [|q pre' _] using rev_ind.
  { exists d, c. subst E. simpl.
    rewrite Z.add_0_r, Z.sub_0_r, !wrap64_id by done.
    split; [done|]. split; [exact Hok|].
    repeat split; first
      [ done
      | by destruct (onDelete (c_config c)); rewrite ?app_nil_r
      | by intros ? ? ?%elem_of_nil ]. }
  assert (Elen : length (pre' ++ [q]) = S (length pre'))
    by (rewrite length_app; simpl; lia).
  assert (Eidx : c_list c !! length pre' = Some q).
  { rewrite Hl, <- app_assoc. by apply list_lookup_middle. }
  destruct Hok as [ND Hin].
  destruct (Hin q) as (j & L & Hel & Hbk).
  { rewrite Hl. apply elem_of_app. left. apply elem_of_app. right.
    apply list_elem_of_here. }
  assert (Hq_pre : q ∉ pre').
  { rewrite Hl, <- app_assoc in ND. apply NoDup_app in ND as (_ & ND & _).
    intros Hq. apply (ND q Hq). apply list_elem_of_here. }
  assert (Esub : (length (pre' ++ [q]) - S n = length pre' - n)%nat)
    by (rewrite Elen; lia).
  assert (Edrop : drop (length pre' - n) (pre' ++ [q])
                  = drop (length pre' - n) pre' ++ [q])
    by (apply drop_app_le; lia).
  assert (Etake : take (length pre' - n) (pre' ++ [q])
                  = take (length pre' - n) pre')
    by (apply take_app_le; lia).
  subst E. rewrite Esub, Edrop, Etake, !filter_app, Elen.
  set (W := drop (length pre' - n) pre').
  assert (HW : ∀ x, x ∈ W → x ≠ q).
  { intros x Hx ->. apply Hq_pre. unfold W in Hx.
    by apply (subseteq_drop _ pre') in Hx. }
  pose proof (gc_spares_false c q j L) as Hsp.
  destruct (negb (tracking (c_config c)) || (i_refCount j =? 0)) eqn:Ev;
    simpl in Hsp.
  - (* the item is evicted *)
    destruct (gc_evict_ok c (length pre') q j (conj ND Hin) Eidx L)
      as (c1 & Ge & Hl1 & Hok1 & Lq1).
    destruct (gc_evict_inv q j c c1 L Ge)
      as (bi & b & _ & _ & _ & Ecfg & Emask & Eid & Esz & Ecalls & _ & Ho & _
          & Edel & Epro & Edrp).
    destruct (gc_evict_spares q j c c1 L Ge) as [Hsp1 Hsz1].
    assert (Hl1' : c_list c1 = pre' ++ suf).
    { rewrite Hl1, Hl, <- app_assoc. simpl.
      rewrite delete_middle. reflexivity. }
    destruct (IH pre' suf c1 (wrap64 (d + 1)) Hok1 Hl1' (wrap64_range _))
      as (d' & c' & G & Hok' & Hl' & Hd' & Hs' & Hc' & Hi' & Hk' & Hf'
          & Fcfg & Fmask & Fid & Fdel & Fpro & Fdrp).
    { rewrite Esz. apply wrap64_range. }
    fold W in G, Hl', Hd', Hs', Hc', Hi', Hk', Hf'.
    rewrite !(filter_spares_ext c c1) in * by done.
    set (E' := filter (λ p, gc_spares c p = false) W) in *.
    assert (HE' : ∀ x, x ∈ E' → x ≠ q).
    { intros x Hx. apply HW. unfold E' in Hx.
      by apply list_elem_of_filter in Hx as [_ Hx]. }
    assert (Ef : filter (λ p, gc_spares c p = false) [q] = [q]).
    { rewrite filter_cons_True by done. done. }
    assert (Et : filter (λ p, gc_spares c p = true) [q] = []).
    { rewrite filter_cons_False by (rewrite Hsp; done). done. }
    rewrite Ef, Et, app_nil_r.
    exists d', c'. split.
    { rewrite (gc_loop_evict n (length pre') d c q j c1 Eidx L Ev Ge). exact G. }
    split; [exact Hok'|]. split; [exact Hl'|].
    split.
    { rewrite Hd', wrap64_add_l, length_app. simpl. f_equal. lia. }
    split.
    { rewrite Hs', Esz, wrap64_sub_l. f_equal.
      rewrite (weight_ext c c1) by (intros; apply Hsz1).
      rewrite weight_app. change (weight c [q]) with (item_size c q + 0).
      rewrite (item_size_Some c q j L). lia. }
    split.
    { rewrite Hc', Ecalls, Ecfg, reverse_snoc, <- app_assoc.
      by destruct (onDelete (c_config c)). }
    split.
    { intros p. rewrite Hi'. destruct (decide (p = q)) as [->|Hne].
      - rewrite decide_False by (intros Hx; by apply (HE' q Hx)).
        rewrite decide_True by (apply elem_of_app; right; apply list_elem_of_here).
        rewrite Lq1, L. done.
      - rewrite (Ho p Hne).
        destruct (decide (p ∈ E')) as [Hp|Hp].
        + rewrite decide_True by (apply elem_of_app; by left). done.
        + rewrite decide_False; [done|].
          intros [Hx|Hx%list_elem_of_singleton]%elem_of_app; done. }
    split.
    { intros x jx [Hx|Hx%list_elem_of_singleton]%elem_of_app Lx.
      - apply (Hk' x jx Hx). rewrite Ho; [done|by apply HE'].
      - subst x. rewrite L in Lx. injection Lx as <-.
        destruct (gc_loop_mono n _ _ c1 d' c' G) as (_ & _ & _ & Hn & _).
        apply Hn. apply (GetItem_evicted_key q j c c1 L Ge). }
    split.
    { intros k Hk. rewrite Hf'.
      - apply (GetItem_after_evict q j c c1 k L Ge). intros ->.
        apply (Hk q j); [|done|done].
        apply elem_of_app; right; apply list_elem_of_here.
      - intros x jx Hx Lx. apply (Hk x jx).
        + apply elem_of_app. by left.
        + rewrite <- Lx. symmetry. apply Ho. by apply HE'. }
    repeat split; congruence.
  - (* the item is passed over *)
    assert (Hl0 : c_list c = pre' ++ q :: suf) by (rewrite Hl, <- app_assoc; done).
    destruct (IH pre' (q :: suf) c d (conj ND Hin) Hl0 Hd Hs)
      as (d' & c' & G & Hok' & Hl' & Hd' & Hs' & Hc' & Hi' & Hk' & Hf' & Fr).
    fold W in G, Hl', Hd', Hs', Hc', Hi', Hk', Hf'.
    set (E' := filter (λ p, gc_spares c p = false) W) in *.
    assert (Ef : filter (λ p, gc_spares c p = false) [q] = []).
    { rewrite filter_cons_False by (rewrite Hsp; done). done. }
    assert (Et : filter (λ p, gc_spares c p = true) [q] = [q]).
    { rewrite filter_cons_True by done. done. }
    rewrite Ef, Et, app_nil_r.
    exists d', c'. split.
    { simpl. rewrite Eidx. simpl. rewrite L. simpl. rewrite Ev. exact G. }
    split; [exact Hok'|].
    split; [rewrite Hl', <- !app_assoc; done|].
    repeat split; try done; apply Fr.
Qed.

Lemma gc_victims_length c :
  (length (gc_victims c) ≤ length (c_list c))%nat.
Proof.
  unfold gc_victims, lru_window. etrans; [apply length_filter|].
  rewrite length_drop. lia.
Qed.

Lemma gc_spec c :
  list_ok c →
  min_int64 ≤ c_size c ≤ max_int64 →
  let P := Z.to_nat (itemsToPrune (c_config c)) in
  ∃ d' c',
    gc c = Some (d', c')
    ∧ list_ok c'
    ∧ c_list c'
      = take (length (c_list c) - P) (c_list c)
        ++ filter (λ p, gc_spares c p = true) (lru_window P (c_list c))
    ∧ d' = wrap64 (Z.of_nat (length (gc_victims c)))
    ∧ c_size c' = wrap64 (c_size c - weight c (gc_victims c))
    ∧ c_onDeleteCalls c'
      = c_onDeleteCalls c
        ++ (if onDelete (c_config c) then reverse (gc_victims c) else [])
    ∧ (∀ p, load p c'
            = if decide (p ∈ gc_victims c)
              then (λ j, set_promotions (-2)
                           (set_element (Some (mkElement None)) j))
                     <$> load p c
              else load p c)
    ∧ (∀ q j, q ∈ gc_victims c → load q c = Some j →
              GetItem (i_key j) c' = Some None)
    ∧ (∀ k, (∀ q j, q ∈ gc_victims c → load q c = Some j → i_key j ≠ k) →
            GetItem k c' = GetItem k c)
    ∧ c_config c' = c_config c ∧ c_bucketMask c' = c_bucketMask c
    ∧ c_listId c' = c_listId c ∧ c_deletables c' = c_deletables c
    ∧ c_promotables c' = c_promotables c ∧ c_dropped c' = c_dropped c.
Proof.
  intros Hok Hs P.
  destruct (gc_loop_spec P (c_list c) [] c 0 Hok) as (d' & c' & G & H);
    [by rewrite app_nil_r|unfold min_int64, max_int64; lia|done|].
  exists d', c'. split; [exact G|].
  rewrite app_nil_r, Z.add_0_l in H. exact H.
Qed.

Lemma pinned_pair_ok : list_ok pinned_pair.
Proof.
  split.
  - apply NoDup_cons. split; [|apply NoDup_singleton].
    intros H%list_elem_of_singleton. discriminate H.
  - intros q Hq. apply elem_of_cons in Hq as [->|Hq%list_elem_of_singleton].
    + eexists. split; [reflexivity|]. split; [reflexivity|]. by eexists.
    + subst q. eexists. split; [reflexivity|]. split; [reflexivity|]. by eexists.
Qed.

(** X10: on a well-formed recency list the sweep returns; it looks at the
    [itemsToPrune] least recently used items only, evicts those of them it
    does not pass over (with tracking on, the ones no caller holds; all of
    them otherwise) and leaves the others in their order.  It returns the
    number of evicted items, lowers the size by their total weight, and
    calls [onDelete], when there is one, once for each, the least recently
    used first. *)
Theorem sweep_takes_the_least_recently_used :
  ∀ (c : CacheInt64),
    list_ok c →
    min_int64 ≤ c_size c ≤ max_int64 →
    Z.of_nat (length (c_list c)) ≤ max_int64 →
    let P := Z.to_nat (itemsToPrune (c_config c)) in
    ∃ c',
      gc c = Some (Z.of_nat (length (gc_victims c)), c')
      ∧ c_list c'
        = take (length (c_list c) - P) (c_list c)
          ++ filter (λ p, gc_spares c p = true) (lru_window P (c_list c))
      ∧ c_size c' = wrap64 (c_size c - weight c (gc_victims c))
      ∧ c_onDeleteCalls c'
        = c_onDeleteCalls c
          ++ (if onDelete (c_config c) then reverse (gc_victims c) else [])
      ∧ list_ok c'.
Proof.
  intros c Hok Hs Hlen P.
  destruct (gc_spec c Hok Hs)
    as (d' & c' & G & Hok' & Hl & Hd & Hsz & Hc & _).
  exists c'. rewrite Hd in G. rewrite wrap64_id in G.
  - repeat split; try done. apply Hok'. apply Hok'.
  - pose proof (gc_victims_length c). unfold min_int64, max_int64 in *. lia.
Qed.

Lemma sweep_takes_the_least_recently_used_witness :
  ∃ c', gc pinned_pair = Some (1, c')
        ∧ c_list c' = [0%nat] ∧ c_size c' = 1.
Proof.
  destruct (sweep_takes_the_least_recently_used pinned_pair pinned_pair_ok)
    as (c' & G & L & S & _).
  - unfold min_int64, max_int64. simpl. lia.
  - unfold max_int64. simpl. lia.
  - exists c'. split; [exact G|]. split; [exact L|exact S].
Defined.

(** X11: what the sweep does to the items.  Each evicted item is marked
    as deleted ([promotions] is -2), its element is taken off the list, and
    its key is no longer stored; every other item is left as it was, every
    key that is not the key of an evicted item keeps its entry, and no
    message is sent on either channel. *)
Theorem sweep_marks_and_unmaps_its_victims :
  ∀ (c : CacheInt64),
    list_ok c →
    min_int64 ≤ c_size c ≤ max_int64 →
    ∃ d c',
      gc c = Some (d, c')
      ∧ (∀ q j, q ∈ gc_victims c → load q c = Some j →
           load q c'
           = Some (set_promotions (-2) (set_element (Some (mkElement None)) j))
           ∧ GetItem (i_key j) c' = Some None
           ∧ q ∉ c_list c')
      ∧ (∀ p, p ∉ gc_victims c → load p c' = load p c)
      ∧ (∀ k, (∀ q j, q ∈ gc_victims c → load q c = Some j → i_key j ≠ k) →
           GetItem k c' = GetItem k c)
      ∧ c_deletables c' = c_deletables c
      ∧ c_promotables c' = c_promotables c.
Proof.
  intros c Hok Hs.
  destruct (gc_spec c Hok Hs)
    as (d' & c' & G & Hok' & Hl & _ & _ & _ & Hi & Hk & Hf & _ & _ & _ & Hd & Hp & _).
  exists d', c'. split; [exact G|]. split.
  { intros q j Hq L. split; [|split].
    - rewrite Hi, decide_True, L by done. done.
    - by apply (Hk q j).
    - intros Hin. destruct Hok' as [_ Hin']. destruct (Hin' q Hin) as (j' & L' & El & _).
      rewrite Hi, decide_True, L in L' by done. simpl in L'.
      injection L' as <-. discriminate El. }
  split.
  { intros p Hp'. rewrite Hi, decide_False by done. done. }
  split; [exact Hf|]. split; [exact Hd|exact Hp].
Qed.

Lemma sweep_marks_and_unmaps_its_victims_witness :
  ∃ d c', gc pinned_pair = Some (d, c')
          ∧ (i_promotions <$> load 1%nat c') = Some (-2)
          ∧ GetItem 2 c' = Some None
          ∧ load 0%nat c' = load 0%nat pinned_pair.
Proof.
  destruct (sweep_marks_and_unmaps_its_victims pinned_pair pinned_pair_ok)
    as (d & c' & G & V & O & _).
  - unfold min_int64, max_int64. simpl. lia.
  - exists d, c'. split; [exact G|].
    assert (Hv : gc_victims pinned_pair = [1%nat]) by reflexivity.
    destruct (V 1%nat _ ltac:(rewrite Hv; apply list_elem_of_here) eq_refl)
      as (L1 & G1 & _).
    split; [by rewrite L1|]. split; [exact G1|].
    apply O. rewrite Hv. intros H%list_elem_of_singleton. discriminate H.
Defined.

Lemma sweep_spec_of c :
  list_ok c →
  min_int64 ≤ c_size c ≤ max_int64 →
  Z.of_nat (length (c_list c)) ≤ max_int64 →
  ∃ c',
    gc c = Some (Z.of_nat (length (gc_victims c)), c')
    ∧ c_list c'
      = take (length (c_list c) - Z.to_nat (itemsToPrune (c_config c))) (c_list c)
        ++ filter (λ p, gc_spares c p = true)
             (lru_window (Z.to_nat (itemsToPrune (c_config c))) (c_list c))
    ∧ c_size c' = wrap64 (c_size c - weight c (gc_victims c))
    ∧ c_config c' = c_config c
    ∧ c_dropped c' = c_dropped c.
Proof.
  intros Hok Hs Hlen.
  destruct (gc_spec c Hok Hs)
    as (d' & c' & G & _ & Hl & Hd & Hsz & _ & _ & _ & _ & Hcfg & _ & _ & _ & _ & Hdr).
  exists c'. rewrite Hd in G. rewrite wrap64_id in G; [done|].
  pose proof (gc_victims_length c). unfold min_int64, max_int64 in *. lia.
Qed.

(** ** The control channel *)

(** X12: [SetMaxSize] stores the new max size.  When the size is within
    it, nothing else changes.  When the size is above it, the worker runs
    one sweep, whatever the excess: the list loses the victims of that
    sweep and no more, and their number is added to the count of dropped
    items, which the next [GetDropped] returns and resets to zero. *)
Theorem SetMaxSize_runs_one_sweep :
  ∀ (c : CacheInt64) (size : Z),
    list_ok c →
    min_int64 ≤ c_size c ≤ max_int64 →
    Z.of_nat (length (c_list c)) ≤ max_int64 →
    let P := Z.to_nat (itemsToPrune (c_config c)) in
    ∃ c',
      SetMaxSize size c = Some c'
      ∧ c_config c' = MaxSize size (c_config c)
      ∧ (c_size c ≤ size → c' = with_config (MaxSize size (c_config c)) c)
      ∧ (size < c_size c →
         c_list c'
         = take (length (c_list c) - P) (c_list c)
           ++ filter (λ p, gc_spares c p = true) (lru_window P (c_list c))
         ∧ c_size c' = wrap64 (c_size c - weight c (gc_victims c))
         ∧ GetDropped c'
           = Some (wrap64 (c_dropped c + Z.of_nat (length (gc_victims c))),
                   with_dropped 0 c')
         ∧ (fst <$> GetDropped (with_dropped 0 c')) = Some 0).
Proof.
  intros c size Hok Hs Hlen P.
  set (c1 := with_config (MaxSize size (c_config c)) c).
  unfold SetMaxSize, worker_control. fold c1.
  change (maxSize (c_config c1)) with size. change (c_size c1) with (c_size c).
  destruct (Z.ltb_spec size (c_size c)) as [Hgt|Hle].
  - destruct (sweep_spec_of c1) as (c2 & G & Hl & Hsz & Hcfg & Hdr);
      [exact Hok|exact Hs|exact Hlen|].
    rewrite G. simpl. eexists. split; [reflexivity|].
    split; [simpl; exact Hcfg|]. split; [lia|]. intros _.
    split; [exact Hl|]. split; [exact Hsz|]. split; [|reflexivity].
    unfold GetDropped. simpl. rewrite Hdr. reflexivity.
  - simpl. exists c1. split; [reflexivity|]. split; [reflexivity|].
    split; [done|lia].
Qed.

Lemma SetMaxSize_runs_one_sweep_witness :
  ∃ c', SetMaxSize 0 pinned_pair = Some c'
        ∧ c_list c' = [0%nat]
        ∧ (fst <$> GetDropped c') = Some 1.
Proof.
  destruct (SetMaxSize_runs_one_sweep pinned_pair 0 pinned_pair_ok)
    as (c' & S & _ & _ & H).
  - unfold min_int64, max_int64. simpl. lia.
  - unfold max_int64. simpl. lia.
  - destruct H as (L & _ & D & _); [simpl; lia|].
    exists c'. split; [exact S|]. split; [exact L|]. rewrite D. reflexivity.
Defined.




Lemma count_cleared (l : list (gmap Z nat)) :
  foldl (λ count b, count + bucket_itemCount b) 0 (const ∅ <$> l) = 0.
Proof.
  induction l as [|b l IH]; [done|]. rewrite fmap_cons. cbn [foldl].
  rewrite count_acc, IH. unfold bucket_itemCount, const.
  rewrite map_size_empty. lia.
Qed.

(** X14: [Clear] always returns; it empties every shard, installs a new
    empty recency list and sets the size to zero.  It calls [onDelete] for
    nothing, changes no item, and leaves the messages waiting on the two
    channels where they are.  So a delete notice that was waiting for a
    linked item is served after the clear and takes the item's weight off
    a size that no longer counts it; and a promote message that was waiting
    for a new item links, after the clear, an item that no shard holds. *)
Theorem Clear_leaves_the_channels :
  ∀ (c : CacheInt64),
    ∃ c',
      Clear c = Some c'
      ∧ ItemCount c' = 0
      ∧ (∀ k, is_Some (bucket k c) → GetItem k c' = Some None)
      ∧ c_list c' = [] ∧ c_size c' = 0
      ∧ c_items c' = c_items c
      ∧ c_onDeleteCalls c' = c_onDeleteCalls c
      ∧ c_deletables c' = c_deletables c
      ∧ c_promotables c' = c_promotables c
      ∧ (∀ p rest i e,
           c_deletables c = p :: rest → load p c = Some i →
           i_element i = Some e →
           ∃ c'', worker_delete c' = Some c''
                  ∧ c_size c'' = wrap64 (0 - i_size i)
                  ∧ c_list c'' = [])
      ∧ (∀ p rest i,
           c_promotables c = p :: rest → load p c = Some i →
           i_element i = None → i_promotions i ≠ -2 →
           min_int64 ≤ i_size i ≤ max_int64 →
           i_size i ≤ maxSize (c_config c) →
           ∃ c'', worker_promote c' = Some c''
                  ∧ c_list c'' = [p]
                  ∧ c_size c'' = i_size i
                  ∧ (is_Some (bucket (i_key i) c) →
                     GetItem (i_key i) c'' = Some None)).
Proof.
  intros c. unfold Clear, worker_control. simpl. eexists.
  split; [reflexivity|].
  set (c' := with_listId _ _).
  assert (HG : ∀ k, is_Some (bucket k c) → GetItem k c' = Some None).
  { intros k [bi Hb]. destruct (bucket_lookup k c bi Hb) as [b Hl].
    assert (Hb' : bucket k c' = Some bi).
    { rewrite <- Hb. apply bucket_ext; [done|]. simpl. apply length_fmap. }
    rewrite (GetItem_intro k c' bi ∅ Hb'); [by rewrite lookup_empty|].
    simpl. rewrite list_lookup_fmap, Hl. done. }
  split; [apply count_cleared|]. split; [exact HG|].
  split; [done|]. split; [done|]. split; [done|]. split; [done|].
  split; [done|]. split; [done|]. split.
  - intros p rest i e Hd L He. unfold worker_delete.
    change (c_deletables c') with (c_deletables c). rewrite Hd.
    unfold doDelete. change (load p (with_deletables rest c')) with (load p c).
    rewrite L. simpl. rewrite He. eexists. split; [reflexivity|].
    split.
    + rewrite size_list_Remove, size_call_onDelete. reflexivity.
    + destruct (list_list_Remove p
                  (call_onDelete p
                     (with_size (wrap64 (0 - i_size i)) (with_deletables rest c'))))
        as [-> | ->]; rewrite list_call_onDelete; reflexivity.
  - intros p rest i Hp L He Hpr Hsz Hfit. unfold worker_promote.
    change (c_promotables c') with (c_promotables c). rewrite Hp.
    unfold doPromote. change (load p (with_promotables rest c')) with (load p c).
    rewrite L. simpl. destruct (Z.eqb_spec (i_promotions i) (-2)); [done|].
    rewrite He. simpl.
    assert (Ew : wrap64 (0 + i_size i) = i_size i).
    { rewrite Z.add_0_l. by apply wrap64_id. }
    rewrite Ew. destruct (Z.ltb_spec (maxSize (c_config c)) (i_size i)); [lia|].
    eexists. split; [reflexivity|]. split; [reflexivity|].
    split; [reflexivity|]. intros Hb.
    rewrite <- (HG (i_key i) Hb). by apply GetItem_ext.
Qed.

Lemma Clear_leaves_the_channels_witness :
  ∃ c' c'',
    Clear (after [CallSet 0 7 (VOther 0) 100; RecvPromote;
                  CallSet 1 7 (VOther 1) 100] (empty16 ConfigureInt64))
    = Some c'
    ∧ ItemCount c' = 0
    ∧ worker_delete c' = Some c''
    ∧ c_size c'' = -1.
Proof.
  set (c := after [CallSet 0 7 (VOther 0) 100; RecvPromote;
                   CallSet 1 7 (VOther 1) 100] (empty16 ConfigureInt64)).
  destruct (Clear_leaves_the_channels c) as (c' & C & N & _ & _ & _ & _ & _ & _ & _ & D & _).
  destruct (D 0%nat [] (mkItem 7 0 0 100 1 (VOther 0) (Some (mkElement (Some 0%nat))))
              (mkElement (Some 0%nat)))
    as (c'' & W & S & _); [reflexivity|reflexivity|reflexivity|].
  exists c', c''. split; [exact C|]. split; [exact N|]. split; [exact W|exact S].
Defined.

(** ** Deleting by predicate *)

Lemma with_deletables_nil c : with_deletables (c_deletables c ++ []) c = c.
Proof. rewrite app_nil_r. by destruct c. Qed.

(** The first loop collects the matching entries in the order of the
    visit and sends one notice for each. *)
Lemma deleteFunc_collect_spec matches entries :
  ∀ c,
    (∀ e, e ∈ entries → is_Some (load e.2 c)) →
    let items :=
      (filter (λ e, entry_matches matches c e.1 e.2 = true) entries).*2 in
    deleteFunc_collect matches entries c
    = Some (items, with_deletables (c_deletables c ++ items) c).
Proof.
  induction entries as [|[k p] entries IH]; intros c Hall items.
  { subst items. simpl. by rewrite with_deletables_nil. }
  destruct (Hall (k, p) (list_elem_of_here _ _)) as [i L]. simpl in L.
  assert (Hall' : ∀ e, e ∈ entries → is_Some (load e.2 c)).
  { intros e He. apply Hall. by apply list_elem_of_further. }
  simpl. rewrite L. simpl.
  assert (Em : entry_matches matches c k p = matches k i)
    by (unfold entry_matches; by rewrite L).
  subst items. destruct (matches k i) eqn:M.
  - rewrite filter_cons_True by (simpl; by rewrite Em).
    specialize (IH (send_deletable p c) Hall'). cbv zeta in IH.
    rewrite IH. simpl. rewrite <- app_assoc. reflexivity.
  - rewrite filter_cons_False by (simpl; rewrite Em; done).
    apply IH. exact Hall'.
Qed.

(** The second loop deletes the keys of the collected items. *)
Lemma deleteFunc_remove_spec entries :
  ∀ b c,
    (∀ e, e ∈ entries → ∃ i, load e.2 c = Some i ∧ i_key i = e.1) →
    deleteFunc_remove entries.*2 b c
    = Some (foldl (λ m e, delete e.1 m) b entries).
Proof.
  induction entries as [|[k p] entries IH]; intros b c Hall; [done|].
  destruct (Hall (k, p) (list_elem_of_here _ _)) as (i & L & Ek).
  simpl in L, Ek. simpl. rewrite L. simpl. rewrite Ek. apply IH.
  intros e He. apply Hall. by apply list_elem_of_further.
Qed.

Lemma lookup_foldl_delete (entries : list (Z * nat)) :
  ∀ (b : gmap Z nat) k,
    foldl (λ m e, delete e.1 m) b entries !! k
    = if decide (k ∈ entries.*1) then None else b !! k.
Proof.
  induction entries as [|[k' p] entries IH]; intros b k.
  { reflexivity. }
  cbn [foldl fmap list_fmap fst]. rewrite IH.
  destruct (decide (k = k')) as [->|Hne].
  - rewrite lookup_delete_eq.
    destruct (decide (k' ∈ k' :: entries.*1)) as [_|Hn];
      [by destruct (decide _)|].
    exfalso. apply Hn. apply list_elem_of_here.
  - rewrite lookup_delete_ne by done.
    destruct (decide (k ∈ entries.*1)) as [Hin|Hin];
      destruct (decide (k ∈ k' :: entries.*1)) as [Hin'|Hin']; try done.
    + exfalso. apply Hin'. by apply list_elem_of_further.
    + apply elem_of_cons in Hin' as [?|?]; done.
Qed.

Lemma size_filter_to_list (P : Z * nat → Prop) `{!∀ e, Decision (P e)}
    (b : gmap Z nat) :
  size (filter P b) = length (filter P (map_to_list b)).
Proof.
  rewrite map_filter_alt, <- length_map_to_list.
  apply Permutation_length, map_to_list_to_map.
  apply NoDup_fmap_fst.
  - intros k p1 p2 [_ H1]%list_elem_of_filter [_ H2]%list_elem_of_filter.
    apply elem_of_map_to_list in H1, H2. congruence.
  - apply NoDup_filter, NoDup_map_to_list.
Qed.

Lemma size_filter_split (P : Z * nat → Prop) `{!∀ e, Decision (P e)}
    (b : gmap Z nat) :
  size b = (size (filter P b) + size (filter (λ e, ¬ P e) b))%nat.
Proof.
  rewrite <- map_size_disj_union by apply map_disjoint_filter_complement.
  by rewrite map_filter_union_complement.
Qed.

(** [deleteFunc] on one shard: the number of matching entries is returned,
    the shard keeps the entries that do not match, and the matching items
    are sent to the delete channel in the order of the visit. *)
Lemma bucket_deleteFunc_spec (visit : range_order) bi matches c b :
  keys_agree c →
  c_buckets c !! bi = Some b →
  visit b ≡ₚ map_to_list b →
  let P := λ e : Z * nat, entry_matches matches c e.1 e.2 = true in
  bucket_deleteFunc visit bi matches c
  = Some (Z.of_nat (size (filter P b)),
          with_buckets (<[bi := filter (λ e, ¬ P e) b]> (c_buckets c))
            (with_deletables
               (c_deletables c ++ (filter P (visit b)).*2) c)).
Proof.
  intros Hk Hl Hv P.
  assert (Hin : ∀ e, e ∈ visit b → b !! e.1 = Some e.2).
  { intros e He. apply elem_of_map_to_list'. by rewrite <- Hv. }
  assert (Hall : ∀ e, e ∈ visit b → ∃ i, load e.2 c = Some i ∧ i_key i = e.1).
  { intros e He. apply (Hk bi b e.1 e.2 Hl (Hin e He)). }
  unfold bucket_deleteFunc. rewrite Hl. simpl.
  rewrite deleteFunc_collect_spec
    by (intros e He; destruct (Hall e He) as (i & L & _); by exists i).
  cbv zeta. fold P. simpl.
  assert (Elen : length (filter P (visit b)).*2 = size (filter P b)).
  { rewrite length_fmap, size_filter_to_list. apply Permutation_length.
    by rewrite Hv. }
  rewrite Elen.
  destruct (Nat.eqb_spec (size (filter P b)) 0) as [E0|Hn0].
  - rewrite E0. simpl. f_equal. f_equal.
    assert (Eb : filter (λ e, ¬ P e) b = b).
    { rewrite <- (map_filter_union_complement P b) at 2.
      rewrite (map_size_empty_inv _ E0). by rewrite (left_id_L ∅ (∪)). }
    rewrite Eb, list_insert_id by done.
    by destruct c.
  - set (c1 := with_deletables _ c).
    rewrite (deleteFunc_remove_spec (filter P (visit b)) b c1).
    + simpl. f_equal. f_equal. f_equal. f_equal.
      apply map_eq. intros k. rewrite lookup_foldl_delete.
      rewrite map_lookup_filter.
      destruct (decide (k ∈ (filter P (visit b)).*1)) as [Hk'|Hk'].
      * apply list_elem_of_fmap in Hk' as ([k' p] & -> & [HP He]%list_elem_of_filter).
        rewrite (Hin _ He). simpl. by rewrite option_guard_False by (intros H; by apply H).
      * destruct (b !! k) as [p|] eqn:Ek; [simpl|done].
        rewrite option_guard_True; [done|]. intros HP. apply Hk'.
        apply list_elem_of_fmap. exists (k, p). split; [done|].
        apply list_elem_of_filter. split; [done|].
        rewrite Hv. by apply elem_of_map_to_list.
    + intros e [_ He]%list_elem_of_filter. apply (Hall e He).
Qed.

Lemma keys_agree_shrink c B X :
  keys_agree c →
  (∀ bi b', B !! bi = Some b' →
     ∃ b, c_buckets c !! bi = Some b ∧ ∀ k p, b' !! k = Some p → b !! k = Some p) →
  keys_agree (with_buckets B (with_deletables X c)).
Proof.
  intros Hk HB bi b' k p Hl Hp. destruct (HB bi b' Hl) as (b & Hb & Hsub).
  apply (Hk bi b k p Hb). by apply Hsub.
Qed.

Lemma count_cons (b : gmap Z nat) l :
  foldl (λ count b, count + bucket_itemCount b) 0 (b :: l)
  = Z.of_nat (size b) + foldl (λ count b, count + bucket_itemCount b) 0 l.
Proof. cbn [foldl]. rewrite count_acc. unfold bucket_itemCount. lia. Qed.

Lemma count_nonneg (l : list (gmap Z nat)) :
  0 ≤ foldl (λ count b, count + bucket_itemCount b) 0 l.
Proof.
  induction l as [|b l IH]; [simpl; lia|]. rewrite count_cons. lia.
Qed.

(** The walk of [DeleteFunc] over the shards: [done] are the shards
    already visited, [todo] the ones still to visit. *)
Lemma DeleteFunc_fold (visit : nat → range_order) matches c :
  keys_agree c →
  (∀ bi b, visit bi b ≡ₚ map_to_list b) →
  let P := λ e : Z * nat, entry_matches matches c e.1 e.2 = true in
  let F := λ b : gmap Z nat, filter (λ e, ¬ P e) b in
  ∀ todo done D count,
    c_buckets c = done ++ todo →
    0 ≤ count →
    count + foldl (λ count b, count + bucket_itemCount b) 0 todo ≤ max_int64 →
    ∃ D',
      foldl (λ acc bi,
               '(count, c1) ← acc;
               '(n, c2) ← bucket_deleteFunc (visit bi) bi matches c1;
               Some (wrap64 (count + n), c2))
        (Some (count,
               with_buckets ((F <$> done) ++ todo)
                 (with_deletables (c_deletables c ++ D) c)))
        (seq (length done) (length todo))
      = Some (count + Z.of_nat (length D'),
              with_buckets (F <$> (done ++ todo))
                (with_deletables (c_deletables c ++ D ++ D') c))
      ∧ foldl (λ count b, count + bucket_itemCount b) 0 (F <$> todo)
        + Z.of_nat (length D')
        = foldl (λ count b, count + bucket_itemCount b) 0 todo
      ∧ (∀ p, p ∈ D' ↔ ∃ b k, b ∈ todo ∧ b !! k = Some p ∧ P (k, p)).
Proof.
  intros Hk Hv P F. induction todo as [|b todo IH]; intros done D count HB H0 Hmax.
  { exists []. simpl. rewrite !app_nil_r, Z.add_0_r. split; [done|].
    split; [done|]. intros p. split; [by intros ?%elem_of_nil|].
    by intros (b & k & ?%elem_of_nil & _). }
  set (j := length done).
  set (cj := with_buckets ((F <$> done) ++ b :: todo)
               (with_deletables (c_deletables c ++ D) c)).
  assert (Hkj : keys_agree cj).
  { apply keys_agree_shrink; [done|]. intros bi b' Hl. rewrite HB.
    destruct (decide (bi < length done)%nat) as [Hlt|Hge].
    - rewrite lookup_app_l in Hl by (by rewrite length_fmap).
      rewrite list_lookup_fmap in Hl.
      destruct (done !! bi) as [b0|] eqn:E0; [|done]. injection Hl as <-.
      exists b0. split; [by rewrite lookup_app_l|].
      intros k p [Hp _]%map_lookup_filter_Some. done.
    - rewrite lookup_app_r in Hl by (rewrite length_fmap; lia).
      rewrite length_fmap in Hl. exists b'. split; [|done].
      rewrite lookup_app_r by lia. done. }
  assert (Hlj : c_buckets cj !! j = Some b).
  { simpl. rewrite lookup_app_r by (by rewrite length_fmap).
    rewrite length_fmap. unfold j. by rewrite Nat.sub_diag. }
  assert (S : bucket_deleteFunc (visit j) j matches cj
              = Some (Z.of_nat (size (filter P b)),
                      with_buckets (<[j := F b]> (c_buckets cj))
                        (with_deletables
                           (c_deletables cj ++ (filter P (visit j b)).*2) cj)))
    by exact (bucket_deleteFunc_spec (visit j) j matches cj b Hkj Hlj (Hv j b)).
  set (Dj := (filter P (visit j b)).*2) in *.
  assert (Elen : length Dj = size (filter P b)).
  { unfold Dj. rewrite length_fmap, size_filter_to_list.
    apply Permutation_length. by rewrite (Hv j b). }
  pose proof (size_filter_split P b) as Esplit.
  rewrite count_cons in Hmax.
  pose proof (count_nonneg todo) as Hnn.
  destruct (IH (done ++ [b]) (D ++ Dj) (count + Z.of_nat (size (filter P b))))
    as (D' & G & Hc & Hm).
  { rewrite HB, <- app_assoc. done. }
  { lia. }
  { apply (f_equal Z.of_nat) in Esplit. rewrite Nat2Z.inj_add in Esplit. lia. }
  exists (Dj ++ D'). split; [|split].
  - cbn [length seq foldl]. fold j. fold cj. cbn [mbind option_bind].
    rewrite S. cbn [mbind option_bind].
    rewrite wrap64_id by (unfold min_int64, max_int64 in *; lia).
    rewrite length_app in G. simpl in G. rewrite Nat.add_1_r in G. fold j in G.
    rewrite <- !app_assoc in G. simpl in G.
    rewrite length_app, Nat2Z.inj_add, Elen, Z.add_assoc.
    rewrite <- G. f_equal. f_equal. unfold with_buckets, with_deletables. simpl.
    rewrite fmap_app. simpl. rewrite <- !app_assoc. simpl.
    unfold j. rewrite <- (length_fmap F done) at 1.
    rewrite <- (Nat.add_0_r (length (F <$> done))), insert_app_r.
    reflexivity.
  - rewrite fmap_cons, !count_cons, length_app, Nat2Z.inj_add, Elen.
    unfold F at 1. lia.
  - intros p. rewrite elem_of_app, Hm. split.
    + intros [Hp|(b' & k & Hb' & Hp)].
      * unfold Dj in Hp.
        apply list_elem_of_fmap in Hp as ([k p'] & -> & [HP He]%list_elem_of_filter).
        exists b, k. split; [apply list_elem_of_here|]. split; [|done].
        apply elem_of_map_to_list. by rewrite <- (Hv j b).
      * exists b', k. split; [by apply list_elem_of_further|done].
    + intros (b' & k & [->|Hb']%elem_of_cons & Hp & HP).
      * left. unfold Dj. apply list_elem_of_fmap. exists (k, p). split; [done|].
        apply list_elem_of_filter. split; [done|].
        rewrite (Hv j b). by apply elem_of_map_to_list.
      * right. by exists b', k.
Qed.

Lemma DeleteFunc_spec (visit : nat → range_order) matches c :
  keys_agree c →
  (∀ bi b, visit bi b ≡ₚ map_to_list b) →
  ItemCount c ≤ max_int64 →
  ∃ n c' D,
    DeleteFunc visit matches c = Some (n, c')
    ∧ (∀ k, GetItem k c'
            = match GetItem k c with
              | Some (Some p) =>
                  if entry_matches matches c k p then Some None
                  else Some (Some p)
              | r => r
              end)
    ∧ n = ItemCount c - ItemCount c'
    ∧ c_deletables c' = c_deletables c ++ D
    ∧ Z.of_nat (length D) = n
    ∧ (∀ p, p ∈ D ↔ ∃ bi b k, c_buckets c !! bi = Some b ∧ b !! k = Some p
                              ∧ entry_matches matches c k p = true)
    ∧ c_list c' = c_list c ∧ c_size c' = c_size c
    ∧ c_items c' = c_items c ∧ c_promotables c' = c_promotables c
    ∧ c_onDeleteCalls c' = c_onDeleteCalls c
    ∧ c_bucketMask c' = c_bucketMask c
    ∧ length (c_buckets c') = length (c_buckets c)
    ∧ c_cells c' = c_cells c ∧ c_listId c' = c_listId c
    ∧ c_config c' = c_config c
    ∧ (∀ bi b' k p, c_buckets c' !! bi = Some b' → b' !! k = Some p →
         ∃ b, c_buckets c !! bi = Some b ∧ b !! k = Some p).
Proof.
  intros Hk Hv Hmax.
  destruct (DeleteFunc_fold visit matches c Hk Hv (c_buckets c) [] [] 0)
    as (D & G & Hc & Hm); [done|lia|by rewrite Z.add_0_l|].
  simpl in G. rewrite with_deletables_nil in G.
  assert (Ec : with_buckets (c_buckets c) c = c) by (by destruct c).
  rewrite Ec in G. clear Ec.
  set (P := λ e : Z * nat, entry_matches matches c e.1 e.2 = true) in *.
  set (F := λ b : gmap Z nat, filter (λ e, ¬ P e) b) in *.
  set (c' := with_buckets (F <$> c_buckets c) (with_deletables (c_deletables c ++ D) c)) in *.
  exists (Z.of_nat (length D)), c', D. split; [exact G|]. split.
  { intros k. unfold GetItem, bucket_get.
    rewrite (bucket_ext k c c') by (simpl; by rewrite ?length_fmap).
    destruct (bucket k c) as [bi|] eqn:Eb; [simpl|done].
    rewrite list_lookup_fmap.
    destruct (c_buckets c !! bi) as [b|] eqn:El; [simpl|done].
    unfold F. rewrite map_lookup_filter.
    destruct (b !! k) as [p|] eqn:Ek; [simpl|done].
    unfold P. simpl. destruct (entry_matches matches c k p).
    - by rewrite option_guard_False by (intros H; by apply H).
    - by rewrite option_guard_True. }
  split; [assert (ItemCount c' + Z.of_nat (length D) = ItemCount c) by exact Hc; lia|].
  split; [done|]. split; [done|]. split.
  { intros p. rewrite Hm. split.
    - intros (b & k & [bi Hb]%list_elem_of_lookup_1 & Hp & HP). by exists bi, b, k.
    - intros (bi & b & k & Hb%list_elem_of_lookup_2 & Hp & HP). by exists b, k. }
  split; [done|]. split; [done|]. split; [done|]. split; [done|].
  split; [done|]. split; [done|]. split; [simpl; apply length_fmap|].
  split; [done|]. split; [done|]. split; [done|].
  intros bi b' k p. simpl. rewrite list_lookup_fmap.
  destruct (c_buckets c !! bi) as [b|]; [|done]. simpl. intros [= <-].
  unfold F. intros [Hp _]%map_lookup_filter_Some. by exists b.
Qed.

(** X15: take a cache in which every entry maps its key to an item that
    carries the same key, and fewer than 2^63 entries.  In whatever order
    the maps are visited, [DeleteFunc] returns; it removes exactly the
    entries that match the predicate and keeps the others, answers the
    number of removed entries, and sends one delete notice for each
    matching entry and no other.  The recency list, the size and the items
    are untouched. *)
Theorem DeleteFunc_removes_exactly_the_matches :
  ∀ (visit : nat → range_order) (matches : Z → ItemInt64 → bool)
    (c : CacheInt64),
    keys_agree c →
    (∀ bi b, visit bi b ≡ₚ map_to_list b) →
    ItemCount c ≤ max_int64 →
    ∃ n c' D,
      DeleteFunc visit matches c = Some (n, c')
      ∧ (∀ k, GetItem k c'
              = match GetItem k c with
                | Some (Some p) =>
                    if entry_matches matches c k p then Some None
                    else Some (Some p)
                | r => r
                end)
      ∧ n = ItemCount c - ItemCount c'
      ∧ c_deletables c' = c_deletables c ++ D
      ∧ Z.of_nat (length D) = n
      ∧ (∀ p, p ∈ D ↔ ∃ bi b k, c_buckets c !! bi = Some b ∧ b !! k = Some p
                                ∧ entry_matches matches c k p = true)
      ∧ c_list c' = c_list c ∧ c_size c' = c_size c
      ∧ c_items c' = c_items c ∧ c_promotables c' = c_promotables c
      ∧ c_onDeleteCalls c' = c_onDeleteCalls c.
Proof.
  intros visit matches c Hk Hv Hmax.
  destruct (DeleteFunc_spec visit matches c Hk Hv Hmax)
    as (n & c' & D & H1 & H2 & H3 & H4 & H5 & H6 & H7 & H8 & H9 & H10 & H11 & _).
  exists n, c', D. repeat split; try done; apply H6.
Qed.

Lemma shape_keys_agree cfg c : shape cfg c → keys_agree c.
Proof.
  intros S bi b k p Hl Hp. apply (shape_map cfg c S bi b k p Hl Hp).
Qed.

Lemma two_entries_shape :
  shape (ItemsToPrune 1 (MaxSize 2 ConfigureInt64)) two_entries.
Proof.
  set (cfg := ItemsToPrune 1 (MaxSize 2 ConfigureInt64)).
  destruct (shape_NewCacheInt64 (λ _, 16) cfg (empty16 cfg) eq_refl) as [S0 Hs0];
    [unfold max_int64; simpl; lia|].
  destruct (run_keeps_the_bound cfg ltac:(simpl; lia) ltac:(simpl; lia)
              ltac:(unfold max_int64; simpl; lia)
              [CallSet 0 1 (VOther 0) 100; RecvPromote;
               CallSet 1 2 (VOther 1) 100; RecvPromote] (empty16 cfg) S0)
    as (c & R & S & _).
  - rewrite Hs0. simpl. lia.
  - repeat constructor; simpl; lia.
  - vm_compute. repeat split; intros; try reflexivity; discriminate.
  - unfold two_entries, after. fold cfg. rewrite R. exact S.
Qed.

Lemma DeleteFunc_removes_exactly_the_matches_witness :
  ∃ n c',
    DeleteFunc (λ _ b, map_to_list b) (λ key _, key =? 2) two_entries
    = Some (n, c')
    ∧ GetItem 2 c' = Some None
    ∧ GetItem 1 c' = Some (Some 0%nat)
    ∧ n = 2 - ItemCount c'.
Proof.
  destruct (DeleteFunc_removes_exactly_the_matches (λ _ b, map_to_list b)
              (λ key _, key =? 2) two_entries)
    as (n & c' & D & F & G & N & _).
  - apply (shape_keys_agree _ _ two_entries_shape).
  - reflexivity.
  - vm_compute. discriminate.
  - exists n, c'. split; [exact F|].
    split; [exact (G 2)|]. split; [exact (G 1)|exact N].
Defined.

(** X16: [DeletePrefix] is [DeleteFunc] with the test [key & prefix ==
    prefix]: under the same conditions it removes exactly the stored keys
    that have every bit of [prefix] set, whatever their leading digits,
    keeps the other keys, and answers the number of removed entries. *)
Theorem DeletePrefix_removes_the_keys_that_contain_the_bits :
  ∀ (visit : nat → range_order) (prefix : Z) (c : CacheInt64),
    keys_agree c →
    (∀ bi b, visit bi b ≡ₚ map_to_list b) →
    ItemCount c ≤ max_int64 →
    ∃ n c',
      DeletePrefix visit prefix c = Some (n, c')
      ∧ (∀ k, GetItem k c'
              = if Z.land k prefix =? prefix
                then match GetItem k c with
                     | Some _ => Some None
                     | None => None
                     end
                else GetItem k c)
      ∧ n = ItemCount c - ItemCount c'
      ∧ Z.of_nat (length (c_deletables c')) = Z.of_nat (length (c_deletables c)) + n.
Proof.
  intros visit prefix c Hk Hv Hmax.
  destruct (DeleteFunc_spec visit (λ key _, Z.land key prefix =? prefix) c Hk Hv Hmax)
    as (n & c' & D & F & G & N & Hd & Hl & _).
  exists n, c'. split; [exact F|]. split; [|split; [exact N|]].
  - intros k. rewrite G.
    destruct (GetItem k c) as [[p|]|] eqn:EG; [|by destruct (_ =? _)..].
    destruct (GetItem_inv k c _ EG) as (bi & b & _ & Hb & Hp).
    destruct (Hk bi b k p Hb Hp) as (i & L & _).
    unfold entry_matches. rewrite L. done.
  - rewrite Hd, length_app. lia.
Qed.

Lemma DeletePrefix_removes_the_keys_that_contain_the_bits_witness :
  ∃ n c',
    DeletePrefix (λ _ b, map_to_list b) 1 two_entries = Some (n, c')
    ∧ GetItem 1 c' = Some None
    ∧ GetItem 2 c' = Some (Some 1%nat)
    ∧ n = 2 - ItemCount c'.
Proof.
  destruct (DeletePrefix_removes_the_keys_that_contain_the_bits
              (λ _ b, map_to_list b) 1 two_entries)
    as (n & c' & F & G & N & _).
  - apply (shape_keys_agree _ _ two_entries_shape).
  - reflexivity.
  - vm_compute. discriminate.
  - exists n, c'. split; [exact F|].
    split; [exact (G 1)|]. split; [exact (G 2)|exact N].
Defined.

(** ** The state of a cache in use *)

Lemma load_ext c c' p : c_items c' = c_items c → load p c' = load p c.
Proof. unfold load. by intros ->. Qed.

(** Fields the invariant does not read may change freely, and the two
    channels may hold any allocated items. *)
Lemma sound_ext c c' :
  sound c →
  c_bucketMask c' = c_bucketMask c →
  c_buckets c' = c_buckets c →
  c_list c' = c_list c →
  c_listId c' = c_listId c →
  c_items c' = c_items c →
  c_cells c' = c_cells c →
  (∀ p, p ∈ c_deletables c' → is_Some (load p c)) →
  (∀ p, p ∈ c_promotables c' → is_Some (load p c)) →
  Z.of_nat (length (c_promotables c')) ≤ Z.max 0 (promoteBuffer (c_config c')) →
  min_int64 ≤ c_size c' ≤ max_int64 →
  sound c'.
Proof.
  intros [S1 S2 S3 S4 S5 S6 SR S7 S8] Em Eb El Eid Ei Ec Hd Hp Hr Hs.
  assert (EL : ∀ p, load p c' = load p c) by (intros; by apply load_ext).
  split.
  - by rewrite Em, Eb.
  - intros bi b k p. rewrite Eb, EL. apply S2.
  - rewrite El, Eid. destruct S3 as [ND H]. split; [done|].
    intros q Hq. rewrite EL. by apply H.
  - intros p i e id. rewrite EL, El, Eid. apply S4.
  - intros p Hin. rewrite EL. by apply Hd.
  - intros p Hin. rewrite EL. by apply Hp.
  - done.
  - intros p i v. rewrite EL, Ec. apply S7.
  - done.
Qed.

Lemma sound_promote c p : sound c → is_Some (load p c) → sound (promote p c).
Proof.
  intros S L. unfold promote.
  destruct (Z.ltb_spec (Z.of_nat (length (c_promotables c)))
              (promoteBuffer (c_config c))) as [Hlt|]; [|done].
  apply (sound_ext c); try done.
  - apply (sound_deletables c S).
  - intros q [Hq|Hq%list_elem_of_singleton]%elem_of_app;
      [by apply (sound_promotables c S)|by subst].
  - simpl. rewrite length_app. simpl. lia.
  - apply (sound_size c S).
Qed.

Lemma sound_send_deletable c p :
  sound c → is_Some (load p c) → sound (send_deletable p c).
Proof.
  intros S L. apply (sound_ext c); try done.
  - intros q [Hq|Hq%list_elem_of_singleton]%elem_of_app;
      [by apply (sound_deletables c S)|by subst].
  - apply (sound_promotables c S).
  - apply (sound_room c S).
  - apply (sound_size c S).
Qed.

Lemma load_modify p q f c :
  load q (modify p f c)
  = (if decide (p = q) then f else id) <$> load q c.
Proof.
  unfold load, modify. simpl. rewrite list_lookup_alter.
  repeat case_decide; subst; try done. by destruct (c_items c !! q).
Qed.

(** An update of an item in place that keeps its key, its element and its
    value. *)
Lemma sound_modify c p f :
  (∀ j, load p c = Some j →
        i_key (f j) = i_key j ∧ i_element (f j) = i_element j
        ∧ i_value (f j) = i_value j) →
  sound c → sound (modify p f c).
Proof.
  intros Hf [S1 S2 S3 S4 S5 S6 SR S7 S8].
  assert (HL : ∀ q i', load q (modify p f c) = Some i' →
             ∃ i, load q c = Some i ∧ i_key i' = i_key i
                  ∧ i_element i' = i_element i ∧ i_value i' = i_value i).
  { intros q i'. rewrite load_modify.
    destruct (load q c) as [i|] eqn:Lq; [|done]. simpl. intros [= <-]. exists i.
    split; [done|]. destruct (decide (p = q)) as [->|]; [by apply Hf|done]. }
  assert (HS : ∀ q, is_Some (load q c) → is_Some (load q (modify p f c))).
  { intros q [i L]. rewrite load_modify, L. by eexists. }
  split; try done.
  - intros bi b k q Hl Hq. destruct (S2 bi b k q Hl Hq) as (i & L & Ek).
    destruct (HS q (ex_intro _ i L)) as [i' L'].
    destruct (HL q i' L') as (i0 & L0 & Ek' & _). exists i'.
    split; [done|]. congruence.
  - destruct S3 as [ND H]. split; [done|]. intros q Hq.
    destruct (H q Hq) as (j & L & E).
    destruct (HS q (ex_intro _ j L)) as [j' L'].
    destruct (HL q j' L') as (j0 & L0 & _ & Ee & _). exists j'.
    split; [done|]. simpl. congruence.
  - intros q i' e id L' Ee Eid. destruct (HL q i' L') as (i & L & _ & Ee' & _).
    apply (S4 q i e id L); congruence.
  - intros q Hq. apply HS. by apply S5.
  - intros q Hq. apply HS. by apply S6.
  - intros q i' v L' Ev. destruct (HL q i' L') as (i & L & _ & _ & Ev').
    apply (S7 q i v L). congruence.
Qed.

(** A fresh item without an element, whose value is in order. *)
Lemma sound_alloc c new :
  sound c → i_element new = None → value_ok c (i_value new) →
  sound (with_items (c_items c ++ [new]) c).
Proof.
  intros [S1 S2 S3 S4 S5 S6 SR S7 S8] He Hv.
  set (c' := with_items _ c).
  assert (HL : ∀ q i, load q c = Some i → load q c' = Some i).
  { intros q i L. unfold load. simpl. by apply lookup_app_l_Some. }
  assert (HS : ∀ q, is_Some (load q c) → is_Some (load q c')).
  { intros q [i L]. exists i. by apply HL. }
  assert (HN : ∀ q i, load q c' = Some i → load q c = Some i ∨ i = new).
  { intros q i. unfold load. simpl. intros L.
    apply lookup_app_Some in L as [L|[_ L]]; [by left|right].
    destruct (q - length (c_items c))%nat; [by injection L|done]. }
  split; try done.
  - intros bi b k q Hl Hq. destruct (S2 bi b k q Hl Hq) as (i & L & Ek).
    exists i. split; [by apply HL|done].
  - destruct S3 as [ND H]. split; [done|]. intros q Hq.
    destruct (H q Hq) as (j & L & E). exists j. split; [by apply HL|done].
  - intros q i e id L Ee Eid. destruct (HN q i L) as [L0| ->].
    + by apply (S4 q i e id L0).
    + congruence.
  - intros q Hq. apply HS. by apply S5.
  - intros q Hq. apply HS. by apply S6.
  - intros q i v L Ev. destruct (HN q i L) as [L0| ->].
    + by apply (S7 q i v L0).
    + rewrite Ev in Hv. exact Hv.
Qed.

Lemma sound_alloc_cell c n : sound c → sound (with_cells (c_cells c ++ [n]) c).
Proof.
  intros [S1 S2 S3 S4 S5 S6 SR S7 S8]. split; try done.
  intros p i v L Ev. destruct (S7 p i v L Ev) as [x Hx]. exists x. simpl.
  by apply lookup_app_l_Some.
Qed.

Lemma sound_cell_update c v r :
  sound c → sound (with_cells (<[v := r]> (c_cells c)) c).
Proof.
  intros [S1 S2 S3 S4 S5 S6 SR S7 S8]. split; try done.
  intros p i w L Ev. destruct (S7 p i w L Ev) as [x Hx]. simpl.
  apply lookup_lt_is_Some. rewrite length_insert.
  by apply lookup_lt_is_Some.
Qed.

(** New shard maps whose entries still map keys to items with those keys. *)
Lemma sound_buckets c B :
  sound c →
  length B = length (c_buckets c) →
  (∀ bi b k p, B !! bi = Some b → b !! k = Some p →
     ∃ i, load p c = Some i ∧ i_key i = k) →
  sound (with_buckets B c).
Proof.
  intros [S1 S2 S3 S4 S5 S6 SR S7 S8] El HB. split; try done.
  simpl. by rewrite El.
Qed.

Lemma sound_bucket_insert c bi b key p i :
  sound c → c_buckets c !! bi = Some b →
  load p c = Some i → i_key i = key →
  sound (with_buckets (<[bi := <[key := p]> b]> (c_buckets c)) c).
Proof.
  intros S Hl L Ek. apply sound_buckets; [done|apply length_insert|].
  intros bj b' k q Hb' Hq. destruct (decide (bj = bi)) as [->|Hne].
  - rewrite list_lookup_insert_eq in Hb' by (by eapply lookup_lt_Some).
    injection Hb' as <-. destruct (decide (k = key)) as [->|Hk].
    + rewrite lookup_insert_eq in Hq. injection Hq as <-. by exists i.
    + rewrite lookup_insert_ne in Hq by done.
      apply (sound_map c S bi b k q Hl Hq).
  - rewrite list_lookup_insert_ne in Hb' by done.
    apply (sound_map c S bj b' k q Hb' Hq).
Qed.

Lemma sound_bucket_delete c bi b key :
  sound c → c_buckets c !! bi = Some b →
  sound (with_buckets (<[bi := delete key b]> (c_buckets c)) c).
Proof.
  intros S Hl. apply sound_buckets; [done|apply length_insert|].
  intros bj b' k q Hb' Hq. destruct (decide (bj = bi)) as [->|Hne].
  - rewrite list_lookup_insert_eq in Hb' by (by eapply lookup_lt_Some).
    injection Hb' as <-. apply lookup_delete_Some in Hq as [_ Hq].
    apply (sound_map c S bi b k q Hl Hq).
  - rewrite list_lookup_insert_ne in Hb' by done.
    apply (sound_map c S bj b' k q Hb' Hq).
Qed.

Lemma sound_relist c l' :
  sound c → NoDup l' → (∀ q, q ∈ l' ↔ q ∈ c_list c) → sound (with_list l' c).
Proof.
  intros [S1 S2 S3 S4 S5 S6 SR S7 S8] ND Hl. split; try done.
  - split; [done|]. intros q Hq%Hl. by apply S3.
  - intros p i e id L Ee Eid. destruct (S4 p i e id L Ee Eid) as [H1 H2].
    split; [done|]. intros E. simpl. apply Hl. by apply H2.
Qed.

Lemma sound_unlinked c p i :
  sound c → load p c = Some i → i_element i = None → p ∉ c_list c.
Proof.
  intros S L He Hin. destruct (proj2 (sound_list c S) p Hin) as (j & L' & E).
  congruence.
Qed.

Lemma sound_PushFront c p i :
  sound c → load p c = Some i → i_element i = None →
  sound (list_PushFront p c).
Proof.
  intros S L He. pose proof (sound_unlinked c p i S L He) as Hnin.
  destruct S as [S1 S2 S3 S4 S5 S6 SR S7 S8]. unfold list_PushFront.
  set (f := set_element (Some (mkElement (Some (c_listId c))))).
  set (c1 := with_list (p :: c_list c) c).
  assert (HL : ∀ q, load q (modify p f c1)
                    = (if decide (p = q) then f else id) <$> load q c).
  { intros q. by rewrite load_modify. }
  assert (HS : ∀ q, is_Some (load q c) → is_Some (load q (modify p f c1))).
  { intros q [j Lq]. rewrite HL, Lq. by eexists. }
  split; try done.
  - intros bi b k q Hl Hq. destruct (S2 bi b k q Hl Hq) as (j & Lq & Ek).
    rewrite HL, Lq. simpl. eexists. split; [done|]. by destruct (decide (p = q)).
  - split; [apply NoDup_cons; split; [done|apply S3]|].
    intros q Hq. rewrite HL. destruct (decide (p = q)) as [<-|Hne].
    + rewrite L. simpl. by eexists.
    + apply elem_of_cons in Hq as [?|Hq]; [congruence|].
      destruct (proj2 S3 q Hq) as (j & Lq & E). rewrite Lq. simpl. by exists j.
  - intros q i' e id. rewrite HL. destruct (decide (p = q)) as [<-|Hne].
    + rewrite L. simpl. intros [= <-] [= <-] [= <-].
      split; [done|]. intros _. apply list_elem_of_here.
    + destruct (load q c) as [j|] eqn:Lq; [|done]. simpl. intros [= <-] Ee Eid.
      destruct (S4 q j e id Lq Ee Eid) as [H1 H2]. split; [done|].
      intros E. apply list_elem_of_further. by apply H2.
  - intros q Hq. apply HS. by apply S5.
  - intros q Hq. apply HS. by apply S6.
  - intros q i' v. rewrite HL. destruct (load q c) as [j|] eqn:Lq; [|done].
    simpl. intros [= <-] Ev. apply (S7 q j v Lq).
    by destruct (decide (p = q)).
Qed.

Lemma sound_Remove c p : sound c → sound (list_Remove p c).
Proof.
  intros S. unfold list_Remove.
  destruct (load p c) as [i|] eqn:L; [|done].
  destruct (i_element i) as [e|] eqn:He; [|done].
  destruct (decide (e_list e = Some (c_listId c))) as [Eo|]; [|done].
  destruct S as [S1 S2 S3 S4 S5 S6 SR S7 S8].
  set (f := set_element (Some (mkElement None))).
  set (c1 := with_list (filter (λ q, q ≠ p) (c_list c)) c).
  assert (HL : ∀ q, load q (modify p f c1)
                    = (if decide (p = q) then f else id) <$> load q c).
  { intros q. by rewrite load_modify. }
  assert (HS : ∀ q, is_Some (load q c) → is_Some (load q (modify p f c1))).
  { intros q [j Lq]. rewrite HL, Lq. by eexists. }
  split; try done.
  - intros bi b k q Hl Hq. destruct (S2 bi b k q Hl Hq) as (j & Lq & Ek).
    rewrite HL, Lq. simpl. eexists. split; [done|]. by destruct (decide (p = q)).
  - split; [apply NoDup_filter, S3|].
    intros q [Hne Hq]%list_elem_of_filter. rewrite HL.
    rewrite decide_False by done.
    destruct (proj2 S3 q Hq) as (j & Lq & E). rewrite Lq. simpl. by exists j.
  - intros q i' e' id. rewrite HL. destruct (decide (p = q)) as [<-|Hne].
    + rewrite L. simpl. intros [= <-] [= <-] [=].
    + destruct (load q c) as [j|] eqn:Lq; [|done]. simpl. intros [= <-] Ee Eid.
      destruct (S4 q j e' id Lq Ee Eid) as [H1 H2]. split; [done|].
      intros E. apply list_elem_of_filter. split; [done|]. by apply H2.
  - intros q Hq. apply HS. by apply S5.
  - intros q Hq. apply HS. by apply S6.
  - intros q i' v. rewrite HL. destruct (load q c) as [j|] eqn:Lq; [|done].
    simpl. intros [= <-] Ev. apply (S7 q j v Lq).
    by destruct (decide (p = q)).
Qed.

Lemma sound_MoveToFront c p : sound c → sound (list_MoveToFront p c).
Proof.
  intros S. unfold list_MoveToFront.
  destruct (load p c) as [i|] eqn:L; [|done].
  destruct (i_element i) as [e|] eqn:He; [|done].
  destruct (decide (e_list e = Some (c_listId c))) as [Eo|]; [|done].
  destruct (decide (head (c_list c) = Some p)); [done|].
  destruct (sound_owner c S p i e (c_listId c) L He Eo) as [_ Hin].
  specialize (Hin eq_refl).
  apply sound_relist; [done| |].
  - apply NoDup_cons. split.
    + intros [Hne _]%list_elem_of_filter. done.
    + apply NoDup_filter, (sound_list c S).
  - intros q. rewrite elem_of_cons, list_elem_of_filter.
    destruct (decide (q = p)) as [->|Hne].
    + split; [done|by left].
    + split; [by intros [?|[_ ?]]|by right].
Qed.

Lemma sound_clear c :
  sound c →
  sound (with_listId (S (c_listId c))
           (with_list [] (with_size 0 (with_buckets (const ∅ <$> c_buckets c) c)))).
Proof.
  intros [S1 S2 S3 S4 S5 S6 SR S7 S8]. split; try done.
  - simpl. by rewrite length_fmap.
  - intros bi b k p. simpl. rewrite list_lookup_fmap.
    destruct (c_buckets c !! bi); [|done]. simpl. intros [= <-].
    by rewrite lookup_empty.
  - split; [apply NoDup_nil_2|]. by intros q ?%elem_of_nil.
  - intros p i e id L Ee Eid. destruct (S4 p i e id L Ee Eid) as [H1 _].
    simpl. split; [lia|]. intros ->. lia.
Qed.

(** *** The sweep keeps the invariant *)

Lemma sound_list_ok c : sound c → list_ok c.
Proof.
  intros S. destruct (sound_list c S) as [ND H]. split; [done|].
  intros q Hq. destruct (H q Hq) as (j & L & E). exists j.
  split; [done|]. split; [done|]. apply bucket_in_range, (sound_mask c S).
Qed.

Lemma cells_list_Remove q c : c_cells (list_Remove q c) = c_cells c.
Proof. unfold list_Remove. repeat case_match; reflexivity. Qed.

Lemma cells_call_onDelete q c : c_cells (call_onDelete q c) = c_cells c.
Proof. unfold call_onDelete. case_match; reflexivity. Qed.

Lemma cells_gc_evict q j c c' :
  gc_evict q j c = Some c' → c_cells c' = c_cells c.
Proof.
  unfold gc_evict, bucket_delete. intros H.
  destruct (bucket (i_key j) c) as [bi|]; [simpl in H|done].
  destruct (c_buckets c !! bi) as [b|]; [simpl in H|done].
  injection H as <-. simpl.
  by rewrite cells_call_onDelete, cells_list_Remove.
Qed.

(** The sweep only takes entries out of the shards, and leaves the
    counters alone. *)
Lemma gc_loop_buckets n :
  ∀ cur d c d' c',
    gc_loop n cur d c = Some (d', c') →
    length (c_buckets c') = length (c_buckets c)
    ∧ (∀ bi b' k p, c_buckets c' !! bi = Some b' → b' !! k = Some p →
         ∃ b, c_buckets c !! bi = Some b ∧ b !! k = Some p)
    ∧ c_cells c' = c_cells c.
Proof.
  induction n as [|n IH]; intros cur d c d' c' G.
  { injection G as <- <-. split; [done|]. split; [|done]. eauto. }
  simpl in G. destruct cur as [idx|]; [|injection G as <- <-; eauto].
  destruct (c_list c !! idx) as [q|] eqn:Eq; [simpl in G|done].
  destruct (load q c) as [j|] eqn:L; [simpl in G|done].
  destruct (negb (tracking (c_config c)) || (i_refCount j =? 0)).
  - destruct (gc_evict q j c) as [c1|] eqn:Ge; [simpl in G|done].
    destruct (gc_evict_inv q j c c1 L Ge) as (bi & b & _ & Hb & Eb & _).
    destruct (IH _ _ _ _ _ G) as (H1 & H2 & H3).
    split; [by rewrite H1, Eb, length_insert|].
    split; [|by rewrite H3, (cells_gc_evict q j c c1 Ge)].
    intros bj b' k p Hb' Hp. destruct (H2 bj b' k p Hb' Hp) as (b1 & Hb1 & Hp1).
    rewrite Eb in Hb1. destruct (decide (bj = bi)) as [->|Hne].
    + rewrite list_lookup_insert_eq in Hb1 by (by eapply lookup_lt_Some).
      injection Hb1 as <-. apply lookup_delete_Some in Hp1 as [_ Hp1].
      by exists b.
    + rewrite list_lookup_insert_ne in Hb1 by done. by exists b1.
  - apply (IH _ _ _ _ _ G).
Qed.

Lemma sound_gc c :
  sound c →
  ∃ d c', gc c = Some (d, c') ∧ c_listId c' = c_listId c
          ∧ (∀ p, p ∉ c_list c → load p c' = load p c)
          ∧ sound c'.
Proof.
  intros S. pose proof (sound_list_ok c S) as Hok.
  destruct (gc_spec c Hok (sound_size c S))
    as (d & c' & G & Hok' & Hl & _ & Hsz & _ & Hi & _ & _ & Ecfg & Emask & Eid
        & Edel & Epro & _).
  exists d, c'. split; [exact G|]. split; [exact Eid|].
  split; [apply (gc_loop_mono _ _ _ _ _ _ G)|].
  destruct (gc_loop_buckets _ _ _ c d c' G) as (Elen & Hsub & Ecells).
  assert (HS : ∀ q, is_Some (load q c) → is_Some (load q c')).
  { intros q [j L]. rewrite Hi, L. destruct (decide _); by eexists. }
  assert (HF : ∀ q i', load q c' = Some i' →
             ∃ i, load q c = Some i ∧ i_key i' = i_key i
                  ∧ i_value i' = i_value i
                  ∧ (i_element i' = i_element i ∧ q ∉ gc_victims c
                     ∨ i_element i' = Some (mkElement None))).
  { intros q i'. rewrite Hi. destruct (load q c) as [i|] eqn:L.
    - destruct (decide (q ∈ gc_victims c)); simpl; intros [= <-]; exists i;
        (split; [done|]); (split; [done|]); (split; [done|]); [by right|by left].
    - by destruct (decide _). }
  split.
  - by rewrite Emask, Elen; apply (sound_mask c S).
  - intros bi b' k p Hb' Hp. destruct (Hsub bi b' k p Hb' Hp) as (b & Hb & Hp0).
    destruct (sound_map c S bi b k p Hb Hp0) as (i & L & Ek).
    destruct (HS p (ex_intro _ i L)) as [i' L'].
    destruct (HF p i' L') as (i0 & L0 & Ek' & _). exists i'.
    split; [done|]. congruence.
  - destruct Hok' as [ND H]. split; [done|]. intros q Hq.
    destruct (H q Hq) as (j & L & E & _). by exists j.
  - intros p i' e id L' Ee Eo.
    destruct (HF p i' L') as (i & L & _ & _ & [[Ee' Hnv]|Ee']);
      [|rewrite Ee' in Ee; injection Ee as <-; discriminate Eo].
    rewrite Ee' in Ee.
    destruct (sound_owner c S p i e id L Ee Eo) as [H1 H2]. rewrite Eid.
    split; [done|]. intros E. specialize (H2 E). rewrite Hl.
    rewrite <- (take_drop (length (c_list c)
                           - Z.to_nat (itemsToPrune (c_config c))) (c_list c)) in H2.
    apply elem_of_app in H2 as [H2|H2]; apply elem_of_app; [by left|right].
    apply list_elem_of_filter. split; [|exact H2].
    destruct (gc_spares c p) eqn:Esp; [done|]. exfalso. apply Hnv.
    unfold gc_victims. apply list_elem_of_filter. split; [done|exact H2].
  - intros p Hp. rewrite Edel in Hp. apply HS, (sound_deletables c S p Hp).
  - intros p Hp. rewrite Epro in Hp. apply HS, (sound_promotables c S p Hp).
  - rewrite Epro, Ecfg. apply (sound_room c S).
  - intros p i' v L' Ev. destruct (HF p i' L') as (i & L & _ & Ev' & _).
    rewrite Ecells. apply (sound_cells c S p i v L). congruence.
  - rewrite Hsz. apply wrap64_range.
Qed.

(** *** Fields the invariant does not read *)

Lemma sound_with_size c z : sound c → sound (with_size (wrap64 z) c).
Proof.
  intros S. apply (sound_ext c); try done;
    [apply (sound_deletables c S)|apply (sound_promotables c S)
    |apply (sound_room c S)|apply wrap64_range].
Qed.

Lemma sound_with_maxSize c size :
  sound c → sound (with_config (MaxSize size (c_config c)) c).
Proof.
  intros S. apply (sound_ext c); try done;
    [apply (sound_deletables c S)|apply (sound_promotables c S)
    |apply (sound_room c S)|apply (sound_size c S)].
Qed.

Lemma sound_with_dropped c z : sound c → sound (with_dropped z c).
Proof.
  intros S. apply (sound_ext c); try done;
    [apply (sound_deletables c S)|apply (sound_promotables c S)
    |apply (sound_room c S)|apply (sound_size c S)].
Qed.

Lemma sound_call_onDelete c p : sound c → sound (call_onDelete p c).
Proof.
  intros S. unfold call_onDelete. destruct (onDelete (c_config c)); [|done].
  apply (sound_ext c); try done;
    [apply (sound_deletables c S)|apply (sound_promotables c S)
    |apply (sound_room c S)|apply (sound_size c S)].
Qed.

Lemma sound_with_promotables c l :
  sound c → (∀ p, p ∈ l → p ∈ c_promotables c) →
  (length l ≤ length (c_promotables c))%nat →
  sound (with_promotables l c).
Proof.
  intros S H Hlen. apply (sound_ext c); try done.
  - apply (sound_deletables c S).
  - intros p Hp. by apply (sound_promotables c S), H.
  - pose proof (sound_room c S). simpl. lia.
  - apply (sound_size c S).
Qed.

Lemma sound_with_deletables c l :
  sound c → (∀ p, p ∈ l → is_Some (load p c)) → sound (with_deletables l c).
Proof.
  intros S H. apply (sound_ext c); try done.
  - apply (sound_promotables c S).
  - apply (sound_room c S).
  - apply (sound_size c S).
Qed.

(** *** Items that are out of the list for good *)

Lemma gone_frame c c' p :
  (∀ i, load p c = Some i → load p c' = Some i) →
  c_listId c' = c_listId c →
  gone c p → gone c' p.
Proof.
  intros HL Eid (i & L & H). exists i. rewrite Eid. split; [by apply HL|done].
Qed.

Lemma gone_unlinked c p : sound c → gone c p → p ∉ c_list c.
Proof.
  intros S (i & L & H) Hin.
  destruct (proj2 (sound_list c S) p Hin) as (j & L' & E).
  rewrite L in L'. injection L' as <-.
  destruct H as [[He _]|(e & He & Ho)]; [congruence|].
  rewrite E in He. injection He as <-. by apply Ho.
Qed.

Lemma sg_frame G c c' :
  sound c' →
  (∀ p i, load p c = Some i → load p c' = Some i) →
  c_listId c' = c_listId c →
  sound_gone G c → sound_gone G c'.
Proof.
  intros S' HL Eid [_ HG]. split; [done|].
  intros p Hp. apply (gone_frame c); [apply HL|done|by apply HG].
Qed.

Lemma sg_promote G c p :
  sound_gone G c → is_Some (load p c) → sound_gone G (promote p c).
Proof.
  intros SG L. apply (sg_frame G c); [by apply sound_promote, L; apply SG| | |done].
  - intros q i. by rewrite load_promote.
  - unfold promote. by destruct (_ <? _).
Qed.

Lemma sg_send_deletable G c p :
  sound_gone G c → is_Some (load p c) → sound_gone G (send_deletable p c).
Proof.
  intros SG L. apply (sg_frame G c); [|done|done|done].
  apply sound_send_deletable; [apply SG|done].
Qed.

Lemma sg_modify G c p f :
  (∀ j, load p c = Some j →
        i_key (f j) = i_key j ∧ i_element (f j) = i_element j
        ∧ i_value (f j) = i_value j
        ∧ (i_element j = None → i_promotions j = -2 → i_promotions (f j) = -2)) →
  sound_gone G c → sound_gone G (modify p f c).
Proof.
  intros Hf [S HG]. split.
  - apply sound_modify; [|done]. intros j Lj.
    destruct (Hf j Lj) as (? & ? & ? & _). done.
  - intros q Hq. destruct (HG q Hq) as (i & L & H).
    unfold gone. rewrite load_modify, L. simpl.
    destruct (decide (p = q)) as [->|]; [|by exists i].
    destruct (Hf i L) as (_ & Ee & _ & Ep). exists (f i). split; [done|].
    rewrite Ee. destruct H as [[He Hp]|H]; [left|by right].
    split; [done|by apply Ep].
Qed.

Lemma sg_alloc G c new :
  sound_gone G c → i_element new = None → value_ok c (i_value new) →
  sound_gone G (with_items (c_items c ++ [new]) c).
Proof.
  intros SG He Hv. apply (sg_frame G c); [|  |done|done].
  - apply sound_alloc; [apply SG|done|done].
  - intros p i L. unfold load. simpl. by apply lookup_app_l_Some.
Qed.

Lemma sg_same_items G c c' :
  sound c' → c_items c' = c_items c → c_listId c' = c_listId c →
  sound_gone G c → sound_gone G c'.
Proof.
  intros S' Ei Eid SG. apply (sg_frame G c); [done| |done|done].
  intros p i. by rewrite (load_ext c c' p Ei).
Qed.

Lemma load_MoveToFront q p c : load q (list_MoveToFront p c) = load q c.
Proof. unfold list_MoveToFront. repeat case_match; reflexivity. Qed.

Lemma listId_MoveToFront p c : c_listId (list_MoveToFront p c) = c_listId c.
Proof. unfold list_MoveToFront. repeat case_match; reflexivity. Qed.

Lemma sg_MoveToFront G c p :
  sound_gone G c → sound_gone G (list_MoveToFront p c).
Proof.
  intros SG. apply (sg_frame G c); [apply sound_MoveToFront, SG| | |done].
  - intros q i. by rewrite load_MoveToFront.
  - apply listId_MoveToFront.
Qed.

Lemma sg_PushFront G c p i :
  sound_gone G c → load p c = Some i → i_element i = None →
  i_promotions i ≠ -2 →
  sound_gone G (list_PushFront p c).
Proof.
  intros [S HG] L He Hp. split; [by apply (sound_PushFront c p i)|].
  intros q Hq. destruct (HG q Hq) as (j & Lq & H).
  assert (Hne : p ≠ q).
  { intros <-. rewrite L in Lq. injection Lq as <-.
    destruct H as [[_ ?]|(e & ? & _)]; congruence. }
  exists j. split; [|done]. unfold list_PushFront. rewrite load_modify.
  rewrite decide_False by done. change (load q (with_list _ c)) with (load q c).
  by rewrite Lq.
Qed.

Lemma sg_Remove G c p : sound_gone G c → sound_gone G (list_Remove p c).
Proof.
  intros [S HG]. split; [by apply sound_Remove|].
  intros q Hq. destruct (HG q Hq) as (j & Lq & H).
  exists j. rewrite listId_list_Remove. split; [|done].
  destruct (decide (q = p)) as [->|Hne]; [|by rewrite load_list_Remove_ne].
  unfold list_Remove. rewrite Lq.
  destruct (i_element j) as [e|] eqn:He; [|done].
  destruct (decide (e_list e = Some (c_listId c))) as [Eo|]; [|done].
  destruct H as [[? _]|(e' & [= <-] & Ho)]; done.
Qed.

Lemma sg_clear G c :
  sound_gone G c →
  sound_gone G
    (with_listId (S (c_listId c))
       (with_list [] (with_size 0 (with_buckets (const ∅ <$> c_buckets c) c)))).
Proof.
  intros [S HG]. split; [by apply sound_clear|].
  intros q Hq. destruct (HG q Hq) as (j & Lq & H). exists j.
  split; [done|]. destruct H as [H|(e & He & Ho)]; [by left|right].
  exists e. split; [done|]. simpl. intros Eo.
  destruct (sound_owner c S q j e _ Lq He Eo) as [Hle _]. lia.
Qed.

Lemma sg_gc G c :
  sound_gone G c → ∃ d c', gc c = Some (d, c') ∧ sound_gone G c'.
Proof.
  intros [S HG]. destruct (sound_gc c S) as (d & c' & E & Eid & HL & S').
  exists d, c'. split; [done|]. split; [done|].
  intros q Hq. apply (gone_frame c); [|done|by apply HG].
  intros i L. rewrite HL; [done|]. apply (gone_unlinked c q S), HG, Hq.
Qed.

(** *** Every call and every turn keeps the invariant *)

Lemma sound_bucket c key :
  sound c → ∃ bi b, bucket key c = Some bi ∧ c_buckets c !! bi = Some b.
Proof.
  intros S. destruct (bucket_in_range c key (sound_mask c S)) as [bi Hb].
  destruct (bucket_lookup key c bi Hb) as [b Hl]. by exists bi, b.
Qed.

Lemma sg_set G c now key v d track :
  sound_gone G c → value_ok c v →
  ∃ p c', set now key v d track c = Some (p, c') ∧ sound_gone G c'.
Proof.
  intros SG Hv. pose proof (proj1 SG) as S.
  destruct (sound_bucket c key S) as (bi & b & Hb & Hl).
  pose proof (set_spec c now key v d track bi b Hb Hl) as E. cbv zeta in E.
  eexists _, _. split; [exact E|].
  set (new := newItemInt64 key v (wrap64 (now + d)) track).
  set (c1 := with_items (c_items c ++ [new]) c).
  assert (S1 : sound_gone G c1) by (by apply sg_alloc).
  assert (Ln : load (length (c_items c)) c1 = Some new).
  { unfold load. simpl. by apply list_lookup_middle. }
  set (c2 := with_buckets _ c1).
  assert (S2 : sound_gone G c2).
  { apply (sg_same_items G c1); [|done|done|done].
    by apply (sound_bucket_insert c1 bi b key (length (c_items c)) new (proj1 S1)). }
  destruct (b !! key) as [old|] eqn:Ek;
    (apply sg_promote; [|by exists new]); [|exact S2].
  apply sg_send_deletable; [exact S2|].
  destruct (sound_map c S bi b key old Hl Ek) as (i & L & _).
  exists i. unfold load. simpl. by apply lookup_app_l_Some.
Qed.

Lemma sg_Get G c now key :
  sound_gone G c →
  ∃ r c', Get now key c = Some (r, c') ∧ sound_gone G c'
          ∧ c_items c' = c_items c ∧ c_cells c' = c_cells c
          ∧ ∀ p, r = Some p → is_Some (load p c').
Proof.
  intros SG. pose proof (proj1 SG) as S.
  destruct (sound_bucket c key S) as (bi & b & Hb & Hl).
  unfold Get, bucket_get. rewrite Hb. simpl. rewrite Hl. simpl.
  destruct (b !! key) as [p|] eqn:Ek.
  - destruct (sound_map c S bi b key p Hl Ek) as (i & L & _). rewrite L. simpl.
    destruct (Expired now i); simpl; eexists _, _; (split; [reflexivity|]).
    + split; [done|]. split; [done|]. split; [done|]. intros ? [= <-]. by exists i.
    + split; [apply sg_promote; [done|by exists i]|].
      split; [apply items_promote|]. split; [unfold promote; by destruct (_ <? _)|].
      intros ? [= <-]. rewrite load_promote. by exists i.
  - eexists _, _. split; [reflexivity|]. split; [exact SG|].
    split; [done|]. split; [done|]. by intros ? [=].
Qed.

Lemma sg_Delete G c key :
  sound_gone G c → ∃ r c', Delete key c = Some (r, c') ∧ sound_gone G c'.
Proof.
  intros SG. pose proof (proj1 SG) as S.
  destruct (sound_bucket c key S) as (bi & b & Hb & Hl).
  unfold Delete, bucket_delete. rewrite Hb. simpl. rewrite Hl. simpl.
  assert (S1 : sound_gone G
                 (with_buckets (<[bi := delete key b]> (c_buckets c)) c)).
  { apply (sg_same_items G c); [|done|done|done].
    by apply (sound_bucket_delete c bi b key S). }
  destruct (b !! key) as [p|] eqn:Ek; eexists _, _; (split; [reflexivity|]);
    [|exact S1].
  apply sg_send_deletable; [exact S1|].
  destruct (sound_map c S bi b key p Hl Ek) as (i & L & _). by exists i.
Qed.

Lemma sg_TrackingGet G c now key :
  sound_gone G c →
  ∃ r c', TrackingGet now key c = Some (r, c') ∧ sound_gone G c'.
Proof.
  intros SG. destruct (sg_Get G c now key SG) as (r & c1 & E & S1 & _).
  unfold TrackingGet. rewrite E. simpl.
  destruct r as [p|]; eexists _, _; (split; [reflexivity|]); [|done].
  apply sg_modify; [|done]. by intros [].
Qed.

Lemma sg_Replace G c nowTTL nowSet key v :
  sound_gone G c → value_ok c v →
  ∃ r c', Replace nowTTL nowSet key v c = Some (r, c') ∧ sound_gone G c'.
Proof.
  intros SG Hv. pose proof (proj1 SG) as S.
  destruct (sound_bucket c key S) as (bi & b & Hb & Hl).
  unfold Replace, bucket_get. rewrite Hb. simpl. rewrite Hl. simpl.
  destruct (b !! key) as [p|] eqn:Ek; [|by eexists _, _].
  destruct (sound_map c S bi b key p Hl Ek) as (i & L & _). rewrite L. simpl.
  destruct (sg_set G c nowSet key v (TTL nowTTL i) false SG Hv)
    as (q & c' & E & S').
  unfold Set_. rewrite E. simpl. by eexists _, _.
Qed.

Lemma sg_Fetch G c nowGet nowCheck nowSet key d v (failed : bool) :
  sound_gone G c → value_ok c v →
  ∃ r c',
    Fetch nowGet nowCheck nowSet key d
      (λ l : unit, (v, if failed then Some tt else None, l)) tt c
    = Some (r, c')
    ∧ sound_gone G c'.
Proof.
  intros SG Hv.
  destruct (sg_Get G c nowGet key SG) as (r & c1 & E0 & S1 & Ei & Ec & Hr).
  unfold Fetch. rewrite E0. simpl.
  assert (Hv1 : value_ok c1 v).
  { unfold value_ok in *. destruct v; [|done..]. by rewrite Ec. }
  destruct (sg_set G c1 nowSet key v d false S1 Hv1) as (q & c2 & E & S2).
  assert (Miss : ∃ r' c',
    (let '(v0, err, l') := (v, if failed then Some tt else None, tt) in
     match err with
     | Some e => Some (None, Some e, l', c1)
     | None => set nowSet key v0 d false c1
               ≫= λ '(p, c2), Some (Some p, None, l', c2)
     end) = Some (r', c') ∧ sound_gone G c').
  { destruct failed; simpl; [by eexists _, _|]. rewrite E. simpl. by eexists _, _. }
  destruct r as [p|]; [|exact Miss].
  destruct (Hr p eq_refl) as [i L]. rewrite L. simpl.
  destruct (Expired nowCheck i); simpl; [exact Miss|by eexists _, _].
Qed.

Lemma sg_bucket_incr G c bi b now key n d :
  sound_gone G c → c_buckets c !! bi = Some b →
  ∃ r item exi c1,
    bucket_incr bi now key n d false c = Some (r, item, exi, c1)
    ∧ sound_gone G c1
    ∧ (∀ p, item = Some p → is_Some (load p c1))
    ∧ (∀ p, exi = Some p → is_Some (load p c1)).
Proof.
  intros SG Hl. pose proof (proj1 SG) as S. unfold bucket_incr.
  set (new := newItemInt64 key (VInt64Ptr (length (c_cells c)))
                (wrap64 (now + d)) false).
  set (cA := with_cells (c_cells c ++ [n]) c).
  set (cB := with_items (c_items c ++ [new]) cA).
  assert (SA : sound_gone G cA).
  { apply (sg_same_items G c); [by apply sound_alloc_cell|done|done|done]. }
  assert (SB : sound_gone G cB).
  { apply (sg_alloc G cA new SA); [done|]. simpl.
    exists n. by apply list_lookup_middle. }
  assert (LB : load (length (c_items c)) cB = Some new).
  { unfold load. simpl. by apply list_lookup_middle. }
  assert (Store :
    match b !! key with
    | None => True
    | Some old => ∃ i, load old c = Some i
                       ∧ (i_expires i ≤ now ∨ as_int64_ptr (i_value i) = None)
    end →
    ∃ r item exi c1,
      bucket_incrNow bi key n now d false c = Some (r, item, exi, c1)
      ∧ sound_gone G c1
      ∧ (∀ p, item = Some p → is_Some (load p c1))
      ∧ (∀ p, exi = Some p → is_Some (load p c1))).
  { intros Hk. pose proof (incrNow_store c now key n d false bi b Hl Hk) as E.
    cbv zeta in E. eexists _, _, _, _. split; [exact E|]. split.
    - apply (sg_same_items G cB); [|done|done|done].
      by apply (sound_bucket_insert cB bi b key (length (c_items c)) new (proj1 SB)).
    - split; [|by intros ? [=]]. intros ? [= <-]. by exists new. }
  destruct (b !! key) as [p|] eqn:Ek; [|by apply Store].
  destruct (sound_map c S bi b key p Hl Ek) as (i & L & _).
  destruct (Z.ltb_spec now (i_expires i)) as [Hlive|Hdead];
    [|apply Store; exists i; split; [done|by left]].
  destruct (i_value i) as [v| |] eqn:Ev;
    [|apply Store; exists i; rewrite Ev; split; [done|by right]..].
  destruct (sound_cells c S p i v L Ev) as [old Ho].
  rewrite (incrNow_hit c now key n d false bi b p i v old Hl Ek L Hlive Ev Ho).
  eexists _, _, _, _. split; [reflexivity|]. split.
  - apply (sg_same_items G cB); [|done|done|done].
    apply (sound_cell_update cB v (wrap64 (old + n)) (proj1 SB)).
  - split; [by intros ? [=]|]. intros ? [= <-]. exists i.
    unfold load. simpl. by apply lookup_app_l_Some.
Qed.

Lemma sg_Incr G c now key n d :
  sound_gone G c →
  (∃ r c', Incr now key n d c = Some (r, c') ∧ sound_gone G c')
  ∧ (∃ r c', IncrPromote now key n d c = Some (r, c') ∧ sound_gone G c').
Proof.
  intros SG. destruct (sound_bucket c key (proj1 SG)) as (bi & b & Hb & Hl).
  destruct (sg_bucket_incr G c bi b now key n d SG Hl)
    as (r & item & exi & c1 & E & S1 & Hi & He).
  unfold Incr, IncrPromote. rewrite Hb. simpl. rewrite E. simpl.
  split.
  - destruct item as [p|]; eexists _, _; (split; [reflexivity|]); [|done].
    apply sg_promote; [done|by apply Hi].
  - destruct item as [p|]; [|destruct exi as [p|]];
      eexists _, _; (split; [reflexivity|]); try done;
      (apply sg_promote; [done|]); [by apply Hi|by apply He].
Qed.

Lemma sg_DeleteFunc G c visit matches :
  sound_gone G c →
  (∀ bi b, visit bi b ≡ₚ map_to_list b) →
  ItemCount c ≤ max_int64 →
  ∃ n c', DeleteFunc visit matches c = Some (n, c') ∧ sound_gone G c'.
Proof.
  intros SG Hv Hmax. pose proof (proj1 SG) as S.
  destruct (DeleteFunc_spec visit matches c (sound_map c S) Hv Hmax)
    as (n & c' & D & E & _ & _ & Hd & _ & HD & El & Es & Ei & Ep & _ & Em
        & Elen & Ec & Eid & Ecfg & Hsub).
  exists n, c'. split; [exact E|].
  apply (sg_same_items G c); [|done|done|done].
  assert (EL : ∀ p, load p c' = load p c) by (intros; by apply load_ext).
  split.
  - rewrite Em, Elen. apply (sound_mask c S).
  - intros bi b' k p Hb' Hp. rewrite EL.
    destruct (Hsub bi b' k p Hb' Hp) as (b & Hb & Hp0).
    apply (sound_map c S bi b k p Hb Hp0).
  - rewrite El, Eid. destruct (sound_list c S) as [ND H]. split; [done|].
    intros q Hq. rewrite EL. by apply H.
  - intros p i e id. rewrite EL, El, Eid. apply (sound_owner c S).
  - intros p. rewrite Hd, EL. intros [Hp|Hp]%elem_of_app.
    + by apply (sound_deletables c S).
    + apply HD in Hp as (bi & b & k & Hb & Hp & _).
      destruct (sound_map c S bi b k p Hb Hp) as (i & L & _). by exists i.
  - intros p. rewrite Ep, EL. apply (sound_promotables c S).
  - rewrite Ep, Ecfg. apply (sound_room c S).
  - intros p i v. rewrite EL, Ec. apply (sound_cells c S).
  - rewrite Es. apply (sound_size c S).
Qed.

Lemma sg_SetMaxSize G c size :
  sound_gone G c → ∃ c', SetMaxSize size c = Some c' ∧ sound_gone G c'.
Proof.
  intros SG. unfold SetMaxSize, worker_control.
  set (c1 := with_config (MaxSize size (c_config c)) c).
  assert (S1 : sound_gone G c1).
  { apply (sg_same_items G c); [apply sound_with_maxSize, SG|done|done|done]. }
  destruct (maxSize (c_config c1) <? c_size c1); [|by eexists].
  destruct (sg_gc G c1 S1) as (n & c2 & E & S2). rewrite E. simpl.
  eexists. split; [reflexivity|].
  apply (sg_same_items G c2); [apply sound_with_dropped, S2|done|done|done].
Qed.

Lemma sg_worker_promote G c :
  sound_gone G c → ∃ c', worker_promote c = Some c' ∧ sound_gone G c'.
Proof.
  intros SG. pose proof (proj1 SG) as S. unfold worker_promote.
  destruct (c_promotables c) as [|p rest] eqn:Ep; [by eexists|].
  set (c0 := with_promotables rest c).
  assert (S0 : sound_gone G c0).
  { apply (sg_same_items G c); [|done|done|done].
    apply sound_with_promotables; [done| |rewrite Ep; simpl; lia].
    intros q Hq. rewrite Ep. by apply list_elem_of_further. }
  destruct (sound_promotables c S p) as [i L];
    [rewrite Ep; apply list_elem_of_here|].
  assert (L0 : load p c0 = Some i) by done.
  unfold doPromote. rewrite L0. simpl.
  destruct (Z.eqb_spec (i_promotions i) (-2)) as [|Hpr]; [by eexists|].
  destruct (i_element i) as [e|] eqn:He.
  - unfold shouldPromote.
    set (i' := set_promotions (wrap32 (i_promotions i + 1)) i).
    set (c1 := modify p (λ _, i') c0).
    assert (S1 : sound_gone G c1).
    { apply sg_modify; [|done]. intros j Lj. rewrite L0 in Lj.
      injection Lj as <-. repeat split; first [done|simpl; congruence]. }
    destruct (_ =? _); simpl; (eexists; split; [reflexivity|]); [|done].
    apply sg_modify; [|by apply sg_MoveToFront].
    intros j Lj. rewrite load_MoveToFront in Lj. unfold c1 in Lj.
    rewrite (load_modify_eq p _ c0 i L0) in Lj. injection Lj as <-.
    repeat split; first [done|simpl; congruence].
  - set (c1 := with_size (wrap64 (c_size c0 + i_size i)) c0).
    assert (S1 : sound_gone G (list_PushFront p c1)).
    { apply (sg_PushFront G c1 p i); [|done|done|done].
      apply (sg_same_items G c0); [apply sound_with_size, S0|done|done|done]. }
    change (∃ c',
      (if true && (maxSize (c_config (list_PushFront p c1))
                   <? c_size (list_PushFront p c1))
       then '(n, c2) ← gc (list_PushFront p c1);
            Some (with_dropped (wrap64 (c_dropped c2 + n)) c2)
       else Some (list_PushFront p c1)) = Some c' ∧ sound_gone G c').
    destruct (true && _); [|by eexists].
    destruct (sg_gc G _ S1) as (n & c2 & E & S2). rewrite E. simpl.
    eexists. split; [reflexivity|].
    apply (sg_same_items G c2); [apply sound_with_dropped, S2|done|done|done].
Qed.

Lemma sg_worker_delete G c :
  sound_gone G c → ∃ c', worker_delete c = Some c' ∧ sound_gone G c'.
Proof.
  intros SG. pose proof (proj1 SG) as S. unfold worker_delete.
  destruct (c_deletables c) as [|p rest] eqn:Ed; [by eexists|].
  set (c0 := with_deletables rest c).
  assert (S0 : sound_gone G c0).
  { apply (sg_same_items G c); [|done|done|done].
    apply sound_with_deletables; [done|]. intros q Hq.
    apply (sound_deletables c S). rewrite Ed. by apply list_elem_of_further. }
  destruct (sound_deletables c S p) as [i L];
    [rewrite Ed; apply list_elem_of_here|].
  assert (L0 : load p c0 = Some i) by done.
  unfold doDelete. rewrite L0. simpl.
  destruct (i_element i) as [e|]; eexists; (split; [reflexivity|]).
  - apply sg_Remove.
    set (c1 := with_size _ c0).
    assert (S1 : sound_gone G c1).
    { apply (sg_same_items G c0); [apply sound_with_size, S0|done|done|done]. }
    apply (sg_same_items G c1); [apply sound_call_onDelete, S1| |apply listId_call_onDelete|done].
    unfold call_onDelete. by destruct (onDelete _).
  - apply sg_modify; [by intros []|done].
Qed.

(** Every call and every turn returns and keeps the invariant. *)
Lemma sg_exec G o c :
  sound_gone G c → op_ok c o → ∃ c', exec o c = Some c' ∧ sound_gone G c'.
Proof.
  intros S Hok.
  destruct o as [now key v duration|now key v duration|now key|now key|item
                |nowTTL nowSet key v|key
                |nowGet nowCheck nowSet key duration v failed
                |now key n duration|now key n duration
                |visit matches|visit pre|size| | | |]; simpl in *.
  - destruct (sg_set G c now key v duration false S Hok) as (p & c' & E & S').
    unfold Set_. rewrite E. by eexists.
  - destruct (sg_set G c now key v duration true S Hok) as (p & c' & E & S').
    unfold TrackingSet. rewrite E. by eexists.
  - destruct (sg_Get G c now key S) as (r & c' & E & S' & _).
    rewrite E. by eexists.
  - destruct (sg_TrackingGet G c now key S) as (r & c' & E & S').
    rewrite E. by eexists.
  - eexists. split; [reflexivity|]. apply sg_modify; [by intros []|done].
  - destruct (sg_Replace G c nowTTL nowSet key v S Hok) as (r & c' & E & S').
    rewrite E. by eexists.
  - destruct (sg_Delete G c key S) as (r & c' & E & S'). rewrite E. by eexists.
  - destruct (sg_Fetch G c nowGet nowCheck nowSet key duration v failed S Hok)
      as (r & c' & E & S').
    rewrite E. by eexists.
  - destruct (proj1 (sg_Incr G c now key n duration S)) as (r & c' & E & S').
    rewrite E. by eexists.
  - destruct (proj2 (sg_Incr G c now key n duration S)) as (r & c' & E & S').
    rewrite E. by eexists.
  - destruct Hok as [Hv Hmax].
    destruct (sg_DeleteFunc G c visit matches S Hv Hmax) as (r & c' & E & S').
    rewrite E. by eexists.
  - destruct Hok as [Hv Hmax].
    destruct (sg_DeleteFunc G c visit (λ key _, Z.land key pre =? pre)
                S Hv Hmax) as (r & c' & E & S').
    change (DeletePrefix visit pre c) with
      (DeleteFunc visit (λ key _, Z.land key pre =? pre) c).
    rewrite E. by eexists.
  - apply sg_SetMaxSize, S.
  - eexists. split; [reflexivity|].
    apply (sg_same_items G c); [apply sound_with_dropped, S|done|done|done].
  - eexists. split; [reflexivity|]. exact (sg_clear G c S).
  - apply sg_worker_promote, S.
  - apply sg_worker_delete, S.
Qed.

Lemma sg_execs G os :
  ∀ c, sound_gone G c → ops_ok os c →
       ∃ c', execs os c = Some c' ∧ sound_gone G c'.
Proof.
  induction os as [|o os IH]; intros c S Hok; [by exists c|].
  destruct Hok as [Ho Hrest].
  destruct (sg_exec G o c S Ho) as (c1 & E & S1). rewrite E in Hrest.
  destruct (IH c1 S1 Hrest) as (c' & E' & S'). exists c'.
  simpl. rewrite E. done.
Qed.

Lemma sound_NewCacheInt64 (NormalTo2N : Z → Z) cfg c0 :
  NewCacheInt64 NormalTo2N cfg = Some c0 →
  1 ≤ NormalTo2N (buckets cfg) ≤ max_int64 →
  sound c0.
Proof.
  unfold NewCacheInt64. intros H Hb.
  destruct (Z.ltb_spec (NormalTo2N (buckets cfg)) 0); [lia|].
  injection H as <-. split; simpl.
  - rewrite wrap64_id by (unfold min_int64, max_int64 in *; lia).
    rewrite length_replicate. lia.
  - intros bi b k p Hl. apply lookup_replicate in Hl as [-> _].
    by rewrite lookup_empty.
  - split; [apply NoDup_nil_2|]. by intros q ?%elem_of_nil.
  - intros p i e id L. unfold load in L. simpl in L. by rewrite lookup_nil in L.
  - by intros p ?%elem_of_nil.
  - by intros p ?%elem_of_nil.
  - lia.
  - intros p i v L. unfold load in L. simpl in L. by rewrite lookup_nil in L.
  - unfold min_int64, max_int64. lia.
Qed.

(** Serving the delete notice of an item puts it out of the list for
    good. *)
Lemma worker_delete_gone c p rest :
  sound c → c_deletables c = p :: rest →
  ∃ c', worker_delete c = Some c' ∧ sound c' ∧ gone c' p.
Proof.
  intros S Ed. destruct (sg_worker_delete (λ _, False) c) as (c' & E & S' & _);
    [by split|].
  exists c'. split; [done|]. split; [done|].
  unfold worker_delete in E. rewrite Ed in E.
  destruct (sound_deletables c S p) as [i L];
    [rewrite Ed; apply list_elem_of_here|].
  unfold doDelete in E.
  change (load p (with_deletables rest c)) with (load p c) in E.
  rewrite L in E. simpl in E.
  destruct (i_element i) as [e|] eqn:He; injection E as <-.
  - set (c1 := call_onDelete p _).
    assert (L1 : load p c1 = Some i) by (unfold c1; by rewrite load_call_onDelete).
    assert (Eid : c_listId c1 = c_listId c)
      by (unfold c1; by rewrite listId_call_onDelete).
    unfold gone. rewrite listId_list_Remove, Eid.
    destruct (decide (e_list e = Some (c_listId c))) as [Eo|Hno].
    + destruct e as [o]. simpl in Eo. subst o.
      destruct (list_list_Remove_owned p c1 i L1) as [_ L2];
        [rewrite Eid; exact He|].
      eexists. split; [exact L2|]. right. by eexists.
    + unfold list_Remove. rewrite L1, He.
      rewrite decide_False by (by rewrite Eid).
      exists i. split; [done|]. right. by exists e.
  - unfold gone. erewrite load_modify_eq by done.
    eexists. split; [done|]. left. split; [exact He|reflexivity].
Qed.



(** X18: once the worker has served the delete notice of an item, the
    item is out of the recency list for good: whatever calls and turns
    follow, promote messages for that item included, each returns and the
    item is not linked. *)
Theorem served_delete_notice_is_final :
  ∀ (c : CacheInt64) (p : ptr) (rest : list ptr) (os : list op),
    sound c →
    c_deletables c = p :: rest →
    ops_ok (TurnDelete :: os) c →
    ∃ c', execs (TurnDelete :: os) c = Some c' ∧ (p ∉ c_list c') ∧ gone c' p.
Proof.
  intros c p rest os S Ed [_ Hok].
  destruct (worker_delete_gone c p rest S Ed) as (c1 & E & S1 & G1).
  simpl in Hok. rewrite E in Hok.
  destruct (sg_execs (λ q, q = p) os c1) as (c' & E' & S' & G'); [|done|].
  { split; [done|]. by intros q ->. }
  exists c'. simpl. rewrite E. split; [exact E'|].
  split; [|by apply G']. apply (gone_unlinked c' p S'). by apply G'.
Qed.

Lemma served_delete_notice_is_final_witness :
  ∃ c',
    execs [TurnDelete; TurnPromote; TurnPromote; OpGet 2 7; TurnPromote]
      (after [CallSet 0 7 (VOther 0) 100; CallSet 1 7 (VOther 1) 100]
         (empty16 ConfigureInt64))
    = Some c'
    ∧ 0%nat ∉ c_list c'.
Proof.
  set (c := after [CallSet 0 7 (VOther 0) 100; CallSet 1 7 (VOther 1) 100]
              (empty16 ConfigureInt64)).
  assert (S : sound c).
  { destruct (sg_execs (λ _, False)
                [OpSet 0 7 (VOther 0) 100; OpSet 1 7 (VOther 1) 100]
                (empty16 ConfigureInt64)) as (c1 & E & S1 & _).
    - split; [|done].
      apply (sound_NewCacheInt64 (λ _, 16) ConfigureInt64); [reflexivity|].
      unfold max_int64. simpl. lia.
    - vm_compute. tauto.
    - assert (E1 : execs [OpSet 0 7 (VOther 0) 100; OpSet 1 7 (VOther 1) 100]
                     (empty16 ConfigureInt64) = Some c)
        by (vm_compute; reflexivity).
      rewrite E1 in E. by injection E as <-. }
  destruct (served_delete_notice_is_final c 0%nat []
              [TurnPromote; TurnPromote; OpGet 2 7; TurnPromote] S)
    as (c' & E & H & _).
  - reflexivity.
  - vm_compute. tauto.
  - exists c'. split; [exact E|exact H].
Defined.

(** ** A delete notice that comes after the sweep *)

(** X19: when the sweep evicts an item whose delete notice is still
    waiting, the notice is served afterwards as if the item were linked:
    the weight of the item is taken off the size a second time and the
    [onDelete] callback, when there is one, runs a second time for the same
    item.  The list itself is not changed by the late notice. *)
Theorem late_notice_repeats_the_delete :
  ∀ (c : CacheInt64) (p : ptr) (rest : list ptr) (i : ItemInt64),
    list_ok c →
    min_int64 ≤ c_size c ≤ max_int64 →
    load p c = Some i →
    p ∈ gc_victims c →
    c_deletables c = p :: rest →
    ∃ d c1 c2,
      gc c = Some (d, c1)
      ∧ worker_delete c1 = Some c2
      ∧ c_size c1 = wrap64 (c_size c - weight c (gc_victims c))
      ∧ c_size c2 = wrap64 (c_size c - weight c (gc_victims c) - i_size i)
      ∧ c_onDeleteCalls c2
        = c_onDeleteCalls c
          ++ (if onDelete (c_config c)
              then reverse (gc_victims c) ++ [p] else [])
      ∧ c_list c2 = c_list c1.
Proof.
  intros c p rest i Hok Hs L Hv Ed.
  destruct (gc_spec c Hok Hs)
    as (d & c1 & G & _ & _ & _ & Hsz & Hc & Hi & _ & _ & Ecfg & _ & _ & Edel & _).
  assert (L1 : load p c1
               = Some (set_promotions (-2)
                         (set_element (Some (mkElement None)) i))).
  { rewrite Hi, decide_True, L by done. done. }
  exists d, c1. unfold worker_delete. rewrite Edel, Ed. unfold doDelete.
  change (load p (with_deletables rest c1)) with (load p c1). rewrite L1.
  simpl. eexists. split; [exact G|]. split; [reflexivity|].
  split; [exact Hsz|].
  set (c' := call_onDelete p _).
  assert (L' : load p c' = load p c1) by (unfold c'; by rewrite load_call_onDelete).
  assert (ER : list_Remove p c' = c').
  { unfold list_Remove. rewrite L', L1. simpl.
    destruct (decide (None = Some (c_listId c'))); done. }
  rewrite ER. unfold c'. split.
  - rewrite size_call_onDelete. simpl. rewrite Hsz, wrap64_sub_l. done.
  - split; [|by rewrite list_call_onDelete].
    unfold call_onDelete. simpl. rewrite Ecfg.
    destruct (onDelete (c_config c)); simpl; rewrite Hc; [|by rewrite app_nil_r].
    by rewrite <- app_assoc.
Qed.

Lemma late_notice_repeats_the_delete_witness :
  ∃ d c1 c2,
    gc (after [CallSet 0 7 (VOther 0) 100; RecvPromote;
               CallSet 1 7 (VOther 1) 100] (empty16 (OnDelete ConfigureInt64)))
    = Some (d, c1)
    ∧ worker_delete c1 = Some c2
    ∧ c_size c2 = -1
    ∧ c_onDeleteCalls c2 = [0%nat; 0%nat].
Proof.
  set (c := after [CallSet 0 7 (VOther 0) 100; RecvPromote;
                   CallSet 1 7 (VOther 1) 100] (empty16 (OnDelete ConfigureInt64))).
  destruct (late_notice_repeats_the_delete c 0%nat []
              (mkItem 7 0 0 100 1 (VOther 0) (Some (mkElement (Some 0%nat)))))
    as (d & c1 & c2 & G & W & _ & S & C & _).
  - split; [apply NoDup_singleton|].
    intros q ->%list_elem_of_singleton. eexists.
    split; [reflexivity|]. split; [reflexivity|]. by eexists.
  - vm_compute. split; intros H; discriminate H.
  - reflexivity.
  - apply list_elem_of_singleton. reflexivity.
  - reflexivity.
  - exists d, c1, c2. split; [exact G|]. split; [exact W|].
    split; [exact S|exact C].
Defined.

(** ** Stopping the worker *)

Lemma channels_MoveToFront p c :
  c_promotables (list_MoveToFront p c) = c_promotables c
  ∧ c_deletables (list_MoveToFront p c) = c_deletables c.
Proof. unfold list_MoveToFront. repeat case_match; done. Qed.

Lemma channels_list_Remove p c :
  c_promotables (list_Remove p c) = c_promotables c
  ∧ c_deletables (list_Remove p c) = c_deletables c.
Proof. unfold list_Remove. repeat case_match; done. Qed.

Lemma channels_call_onDelete p c :
  c_promotables (call_onDelete p c) = c_promotables c
  ∧ c_deletables (call_onDelete p c) = c_deletables c.
Proof. unfold call_onDelete. case_match; done. Qed.

Lemma channels_doPromote p c b c' :
  doPromote p c = Some (b, c') →
  c_promotables c' = c_promotables c ∧ c_deletables c' = c_deletables c.
Proof.
  unfold doPromote. destruct (load p c) as [i|]; [simpl|done].
  destruct (i_promotions i =? -2); [by intros [= <- <-]|].
  destruct (i_element i).
  - unfold shouldPromote. destruct (_ =? _); intros [= <- <-]; simpl; [|done].
    set (c1 := modify p _ c).
    destruct (channels_MoveToFront p c1) as [H1 H2]. by rewrite H1, H2.
  - by intros [= <- <-].
Qed.

Lemma channels_gc_loop n :
  ∀ cur d c d' c',
    gc_loop n cur d c = Some (d', c') →
    c_promotables c' = c_promotables c ∧ c_deletables c' = c_deletables c.
Proof.
  induction n as [|n IH]; intros cur d c d' c' G; [by injection G as <- <-|].
  simpl in G. destruct cur as [idx|]; [|by injection G as <- <-].
  destruct (c_list c !! idx) as [q|]; [simpl in G|done].
  destruct (load q c) as [j|] eqn:L; [simpl in G|done].
  destruct (negb (tracking (c_config c)) || (i_refCount j =? 0)).
  - destruct (gc_evict q j c) as [c1|] eqn:Ge; [simpl in G|done].
    destruct (gc_evict_inv q j c c1 L Ge)
      as (bi & b & _ & _ & _ & _ & _ & _ & _ & _ & _ & _ & _ & Ed & Ep & _).
    destruct (IH _ _ _ _ _ G) as [H1 H2]. split; congruence.
  - apply (IH _ _ _ _ _ G).
Qed.

(** A turn of the worker takes the first message of its channel and sends
    nothing. *)
Lemma worker_promote_takes_one G c p rest :
  sound_gone G c → c_promotables c = p :: rest →
  ∃ c', worker_promote c = Some c'
        ∧ c_promotables c' = rest ∧ c_deletables c' = c_deletables c
        ∧ sound_gone G c'.
Proof.
  intros SG Ep. destruct (sg_worker_promote G c SG) as (c' & E & S').
  exists c'. split; [done|]. split; [|split; [|done]];
    unfold worker_promote in E; rewrite Ep in E;
    (destruct (doPromote p (with_promotables rest c)) as [[b c1]|] eqn:D;
      [simpl in E|done]);
    destruct (channels_doPromote _ _ _ _ D) as [E1 E2]; simpl in E1, E2;
    (destruct (b && _); [|by injection E as <-]);
    (destruct (gc c1) as [[n c2]|] eqn:Eg; [simpl in E|done]);
    injection E as <-; simpl;
    destruct (channels_gc_loop _ _ _ _ _ _ Eg) as [H1 H2]; congruence.
Qed.

Lemma worker_delete_takes_one G c p rest :
  sound_gone G c → c_deletables c = p :: rest →
  ∃ c', worker_delete c = Some c'
        ∧ c_deletables c' = rest ∧ c_promotables c' = c_promotables c
        ∧ sound_gone (λ q, G q ∨ q = p) c'.
Proof.
  intros SG Ed. destruct (sg_worker_delete G c SG) as (c' & E & S').
  destruct (worker_delete_gone c p rest (proj1 SG) Ed) as (c'' & E' & _ & Gp).
  rewrite E in E'. injection E' as <-.
  exists c'. split; [done|].
  assert (Hch : c_deletables c' = rest ∧ c_promotables c' = c_promotables c).
  { unfold worker_delete in E. rewrite Ed in E. unfold doDelete in E.
    destruct (load p (with_deletables rest c)) as [i|]; [simpl in E|done].
    destruct (i_element i); injection E as <-; [|done].
    set (cx := call_onDelete p _).
    destruct (channels_list_Remove p cx) as [H1 H2]. rewrite H1, H2.
    unfold cx. set (cy := with_size _ _).
    destruct (channels_call_onDelete p cy) as [H3 H4]. by rewrite H3, H4. }
  split; [apply Hch|]. split; [apply Hch|].
  split; [apply S'|]. intros q [Hq| ->]; [by apply S'|done].
Qed.

Lemma sound_gone_weaken (G G' : nat → Prop) c :
  (∀ p, G' p → G p) → sound_gone G c → sound_gone G' c.
Proof. intros H [S HG]. split; [done|]. intros p Hp. by apply HG, H. Qed.

(** The loop of [Stop], with enough turns for the messages that wait. *)
Lemma stop_loop_spec choose n :
  ∀ G c,
    sound_gone G c →
    (length (c_promotables c) + length (c_deletables c) ≤ n)%nat →
    ∃ c',
      stop_loop choose n c = Some c'
      ∧ c_promotables c' = [] ∧ c_deletables c' = []
      ∧ sound_gone (λ q, G q ∨ q ∈ c_deletables c) c'.
Proof.
  induction n as [|n IH]; intros G c SG Hn.
  { destruct (c_promotables c) eqn:Ep, (c_deletables c) eqn:Ed;
      simpl in Hn; try lia.
    exists c. split; [done|]. split; [done|]. split; [done|].
    eapply sound_gone_weaken; [|exact SG].
    intros p [?|Hp]; [done|]. by apply elem_of_nil in Hp. }
  assert (Promote : ∀ p rest, c_promotables c = p :: rest →
    ∃ c', (c1 ← worker_promote c; stop_loop choose n c1) = Some c'
          ∧ c_promotables c' = [] ∧ c_deletables c' = []
          ∧ sound_gone (λ q, G q ∨ q ∈ c_deletables c) c').
  { intros p rest Ep.
    destruct (worker_promote_takes_one G c p rest SG Ep) as (c1 & E & E1 & E2 & S1).
    destruct (IH G c1 S1) as (c' & E' & H1 & H2 & S').
    { rewrite E1, E2. rewrite Ep in Hn. simpl in Hn. lia. }
    exists c'. rewrite E. simpl. split; [done|]. split; [done|]. split; [done|].
    by rewrite <- E2. }
  assert (Delete : ∀ p rest, c_deletables c = p :: rest →
    ∃ c', (c1 ← worker_delete c; stop_loop choose n c1) = Some c'
          ∧ c_promotables c' = [] ∧ c_deletables c' = []
          ∧ sound_gone (λ q, G q ∨ q ∈ c_deletables c) c').
  { intros p rest Ed.
    destruct (worker_delete_takes_one G c p rest SG Ed) as (c1 & E & E1 & E2 & S1).
    destruct (IH _ c1 S1) as (c' & E' & H1 & H2 & S').
    { rewrite E1, E2. rewrite Ed in Hn. simpl in Hn. lia. }
    exists c'. rewrite E. simpl. split; [done|]. split; [done|]. split; [done|].
    eapply sound_gone_weaken; [|exact S']. rewrite E1, Ed.
    intros q [Hq|[->|Hq]%elem_of_cons]; [by left; left|by left; right|by right]. }
  simpl. destruct (c_promotables c) as [|p rest] eqn:Ep;
    destruct (c_deletables c) as [|q rest'] eqn:Ed.
  - exists c. split; [done|]. split; [done|]. split; [done|].
    eapply sound_gone_weaken; [|exact SG].
    intros x [?|Hx]; [done|]. by apply elem_of_nil in Hx.
  - by apply (Delete q rest').
  - by apply (Promote p rest).
  - destruct (choose c); [by apply (Promote p rest)|by apply (Delete q rest')].
Qed.

(** X20: from a cache in order, with whatever choice the worker makes
    between its two channels, [Stop] returns once every message that was
    waiting has been served: both channels are empty, the cache is still
    in order, and every item that had a delete notice waiting is out of
    the recency list. *)
Theorem Stop_serves_every_waiting_message :
  ∀ (choose : CacheInt64 → bool) (c : CacheInt64),
    sound c →
    ∃ c',
      Stop choose c = Some c'
      ∧ c_promotables c' = [] ∧ c_deletables c' = []
      ∧ sound c'
      ∧ ∀ p, p ∈ c_deletables c → p ∉ c_list c'.
Proof.
  intros choose c S.
  destruct (stop_loop_spec choose
              (length (c_promotables c) + length (c_deletables c))
              (λ _, False) c) as (c' & E & H1 & H2 & S' & HG);
    [by split|done|].
  exists c'. split; [exact E|]. split; [done|]. split; [done|].
  split; [done|]. intros p Hp. apply (gone_unlinked c' p S'), HG. by right.
Qed.

Lemma Stop_serves_every_waiting_message_witness :
  ∃ c',
    Stop (λ _, true)
      (after [CallSet 0 7 (VOther 0) 100; CallSet 1 7 (VOther 1) 100;
              CallSet 2 8 (VOther 2) 100] (empty16 ConfigureInt64))
    = Some c'
    ∧ c_promotables c' = [] ∧ c_deletables c' = []
    ∧ 0%nat ∉ c_list c'.
Proof.
  set (c := after [CallSet 0 7 (VOther 0) 100; CallSet 1 7 (VOther 1) 100;
                   CallSet 2 8 (VOther 2) 100] (empty16 ConfigureInt64)).
  assert (S : sound c).
  { destruct (sg_execs (λ _, False)
                [OpSet 0 7 (VOther 0) 100; OpSet 1 7 (VOther 1) 100;
                 OpSet 2 8 (VOther 2) 100]
                (empty16 ConfigureInt64)) as (c1 & E & S1 & _).
    - split; [|done].
      apply (sound_NewCacheInt64 (λ _, 16) ConfigureInt64); [reflexivity|].
      unfold max_int64. simpl. lia.
    - vm_compute. tauto.
    - assert (E1 : execs [OpSet 0 7 (VOther 0) 100; OpSet 1 7 (VOther 1) 100;
                          OpSet 2 8 (VOther 2) 100]
                     (empty16 ConfigureInt64) = Some c)
        by (vm_compute; reflexivity).
      rewrite E1 in E. by injection E as <-. }
  destruct (Stop_serves_every_waiting_message (λ _, true) c S)
    as (c' & E & H1 & H2 & _ & H).
  exists c'. split; [exact E|]. split; [exact H1|]. split; [exact H2|].
  apply H. apply list_elem_of_here.
Defined.

(** ** Recently used items are kept *)

Lemma head_take_app {A} (l k : list A) n :
  (0 < n)%nat → head (take n l ++ k) = head (l ++ k).
Proof. intros Hn. destruct n; [lia|]. by destruct l. Qed.

(** X21: take a cache in order and a linked item whose next promote
    message is the one that counts (its counter reaches [getsPerPromote]).
    The worker's turn on that message puts the item at the front of the
    recency list without running a sweep, and a sweep that follows leaves
    the item at the front and as it is, as long as [itemsToPrune] is
    smaller than the number of linked items: the item just used is the
    last one a sweep would reach.  Its key stays stored as well, if no
    other linked item carries the same key. *)
Theorem promoted_item_outlives_the_sweep :
  ∀ (c : CacheInt64) (p : ptr) (rest : list ptr) (i : ItemInt64),
    sound c →
    c_promotables c = p :: rest →
    load p c = Some i →
    p ∈ c_list c →
    i_promotions i ≠ -2 →
    wrap32 (i_promotions i + 1) = getsPerPromote (c_config c) →
    (Z.to_nat (itemsToPrune (c_config c)) < length (c_list c))%nat →
    ∃ c1 d c2,
      worker_promote c = Some c1
      ∧ head (c_list c1) = Some p
      ∧ c_size c1 = c_size c
      ∧ gc c1 = Some (d, c2)
      ∧ head (c_list c2) = Some p
      ∧ load p c2 = Some (set_promotions 0 i)
      ∧ ((∀ q j, q ∈ c_list c → load q c = Some j → i_key j = i_key i → q = p) →
         GetItem (i_key i) c2 = GetItem (i_key i) c).
Proof.
  intros c p rest i S Ep L Hin Hpr Hn HP.
  destruct (proj2 (sound_list c S) p Hin) as (i0 & L0 & He).
  rewrite L in L0. injection L0 as <-.
  set (c0 := with_promotables rest c).
  set (i' := set_promotions (wrap32 (i_promotions i + 1)) i).
  pose proof (doPromote_linked_at c0 p i L Hpr He Hn) as D. fold i' in D.
  set (c1 := modify p (set_promotions 0) _) in D.
  assert (W : worker_promote c = Some c1).
  { unfold worker_promote. rewrite Ep. fold c0. rewrite D. reflexivity. }
  destruct (sg_worker_promote (λ _, False) c) as (c1' & W' & S1 & _); [by split|].
  rewrite W in W'. injection W' as <-.
  assert (El : c_list c1 = if decide (head (c_list c) = Some p) then c_list c
                           else p :: filter (λ q, q ≠ p) (c_list c)).
  { unfold c1. simpl. by destruct (decide (head (c_list c) = Some p)). }
  assert (Hperm : c_list c1 ≡ₚ c_list c).
  { rewrite El. destruct (decide (head (c_list c) = Some p)); [done|].
    apply move_to_front_Permutation; [apply (sound_list c S)|done]. }
  assert (Hhead : head (c_list c1) = Some p).
  { rewrite El. by destruct (decide (head (c_list c) = Some p)). }
  assert (L1 : load p c1 = Some (set_promotions 0 i)).
  { unfold c1. rewrite (load_modify_eq p (set_promotions 0) _ i');
      [by destruct i|].
    change (c_list c0) with (c_list c).
    destruct (decide (head (c_list c) = Some p));
      exact (load_modify_eq p (λ _, i') c0 i L). }
  assert (Eo : ∀ q, q ≠ p → load q c1 = load q c).
  { intros q Hq. unfold c1. rewrite load_modify_ne by done.
    change (c_list c0) with (c_list c).
    destruct (decide (head (c_list c) = Some p));
      exact (load_modify_ne q p (λ _, i') c0 Hq). }
  set (P := Z.to_nat (itemsToPrune (c_config c))) in *.
  assert (Hlen : length (c_list c1) = length (c_list c))
    by (by apply Permutation_length).
  destruct (gc_spec c1 (sound_list_ok c1 S1) (sound_size c1 S1))
    as (d & c2 & G & _ & Hl2 & _ & _ & _ & Hi & _ & Hf & _).
  assert (Ecfg : c_config c1 = c_config c).
  { unfold c1. simpl. by destruct (decide _). }
  rewrite Ecfg in Hl2. fold P in Hl2.
  assert (Hnv : p ∉ gc_victims c1).
  { unfold gc_victims, lru_window.
    rewrite Ecfg. fold P.
    intros [_ Hd]%list_elem_of_filter.
    pose proof (proj1 (sound_list c1 S1)) as ND.
    destruct (c_list c1) as [|x l] eqn:E1; [done|].
    injection Hhead as ->. simpl in Hlen.
    replace (length (p :: l) - P)%nat with (Datatypes.S (length l - P)) in Hd
      by (simpl; lia).
    simpl in Hd. apply subseteq_drop in Hd.
    by apply NoDup_cons in ND as [ND _]. }
  exists c1, d, c2. split; [exact W|]. split; [exact Hhead|].
  split; [unfold c1; simpl; by destruct (decide _)|]. split; [exact G|]. split.
  { rewrite Hl2, head_take_app by lia.
    destruct (c_list c1); [done|exact Hhead]. }
  split.
  { rewrite Hi, decide_False by done. exact L1. }
  intros Huniq.
  assert (Eb : c_buckets c1 = c_buckets c ∧ c_bucketMask c1 = c_bucketMask c).
  { unfold c1. simpl. by destruct (decide _). }
  rewrite Hf; [apply GetItem_ext; apply Eb|].
  intros q j Hq Lq Ek.
  assert (Hqp : q ≠ p) by (intros ->; done).
  apply Hqp, (Huniq q j).
  - rewrite <- Hperm. unfold gc_victims, lru_window in Hq.
    rewrite Ecfg in Hq.
    apply list_elem_of_filter in Hq as [_ Hq]. by apply subseteq_drop in Hq.
  - by rewrite <- (Eo q Hqp).
  - exact Ek.
Qed.

Lemma promoted_item_outlives_the_sweep_witness :
  ∃ c1 d c2,
    worker_promote
      (after [CallSet 0 1 (VOther 0) 100; RecvPromote;
              CallSet 1 2 (VOther 1) 100; RecvPromote;
              CallGet 2 1; RecvPromote; CallGet 3 1; RecvPromote; CallGet 4 1]
         (empty16 (ItemsToPrune 1 (MaxSize 2 ConfigureInt64))))
    = Some c1
    ∧ head (c_list c1) = Some 0%nat
    ∧ gc c1 = Some (d, c2)
    ∧ head (c_list c2) = Some 0%nat.
Proof.
  set (cfg := ItemsToPrune 1 (MaxSize 2 ConfigureInt64)).
  set (c := after [CallSet 0 1 (VOther 0) 100; RecvPromote;
                   CallSet 1 2 (VOther 1) 100; RecvPromote;
                   CallGet 2 1; RecvPromote; CallGet 3 1; RecvPromote;
                   CallGet 4 1] (empty16 cfg)).
  assert (S : sound c).
  { destruct (sg_execs (λ _, False)
                [OpSet 0 1 (VOther 0) 100; TurnPromote;
                 OpSet 1 2 (VOther 1) 100; TurnPromote;
                 OpGet 2 1; TurnPromote; OpGet 3 1; TurnPromote; OpGet 4 1]
                (empty16 cfg)) as (c1 & E & S1 & _).
    - split; [|done].
      apply (sound_NewCacheInt64 (λ _, 16) cfg); [reflexivity|].
      unfold max_int64. simpl. lia.
    - vm_compute. tauto.
    - assert (E1 : execs [OpSet 0 1 (VOther 0) 100; TurnPromote;
                          OpSet 1 2 (VOther 1) 100; TurnPromote;
                          OpGet 2 1; TurnPromote; OpGet 3 1; TurnPromote;
                          OpGet 4 1] (empty16 cfg) = Some c)
        by (vm_compute; reflexivity).
      rewrite E1 in E. by injection E as <-. }
  destruct (promoted_item_outlives_the_sweep c 0%nat []
              (mkItem 1 2 0 100 1 (VOther 0) (Some (mkElement (Some 0%nat)))) S)
    as (c1 & d & c2 & W & H1 & _ & G & H2 & _).
  - vm_compute. reflexivity.
  - vm_compute. reflexivity.
  - assert (El : c_list c = [1%nat; 0%nat]) by (vm_compute; reflexivity).
    rewrite El. apply list_elem_of_further, list_elem_of_here.
  - simpl. lia.
  - vm_compute. reflexivity.
  - assert (El : c_list c = [1%nat; 0%nat]) by (vm_compute; reflexivity).
    rewrite El. vm_compute. lia.
  - exists c1, d, c2. split; [exact W|]. split; [exact H1|].
    split; [exact G|exact H2].
Defined.
